(** * calc-lab-M1: the expression calculator of [src/lab1/calc_m1.py]

    A shallow embedding of the tokenizer, the token stream and the
    recursive-descent evaluator, together with the part of the Python
    number model they rest on, and the properties of the specification
    settled against that embedding.

    Conventions.
    - A Python [int] is a [Z]; a Python [float] is an IEEE-754 binary64
      value, represented by [spec_float] with precision 53 and [emax] 1024.
    - A Python exception is a constructor of [exn]; a computation that may
      raise has a result of type [outcome].
    - A character is a code point in U+0000..U+00FF (Rocq's [ascii]); a
      Python [str] is a [string] of such characters.
    - The evaluator is given twice: on a stream value, the state of the
      cursor passed from rule to rule, and on a heap of [TokenStream]
      objects that the rules change through the address of their stream
      ([parse_expr_h], [calculate_expression_h]); [rules_on_heap] relates
      the two.
    - The recursive descent is not structurally recursive, so the parser
      functions carry a [fuel] argument (a bound on the depth of the call
      stack) and return [None] when it is exhausted; enough fuel is
      always supplied by [calculate_expression] (see
      [parse_expr_enough_fuel]). The interpreter's recursion limit and
      memory limits are not modelled. *)

From Stdlib Require Import ZArith String Ascii List Bool Arith Lia.
From Stdlib Require Import Floats.SpecFloat.
Import ListNotations.

Local Open Scope Z_scope.

(** ** Python numbers *)

Module Py.

(** Exceptions, with the reason kept as a tag instead of the message text. *)
Inductive parse_reason :=
| ExpectedKind            (* eat: "Ожидался токен типа ..." *)
| ExpectedValue           (* eat: "Ожидался токен ..." *)
| DigitAfterPoint (i : nat)
| BadNumber
| BadChar (ch : ascii) (i : nat)
| ExpectedNumberOrParen
| UnknownMulOp
| Trailing.

Inductive eval_reason :=
| DivisionByZero          (* "Деление на ноль" *)
| IntegersOnly.           (* "// доступно только для целых", "% ..." *)

Inductive exn :=
| ParseError (r : parse_reason)   (* class ParseError(Exception) *)
| EvalError (r : eval_reason)     (* class EvalError(Exception) *)
| ZeroDivisionError               (* built-in *)
| OverflowError.                  (* built-in *)

(** The result of running a piece of Python: a value, an exception, or
    [OutOfModel] when the run reaches a part of the runtime whose result
    this development does not determine: the platform's libm [pow] on
    general arguments, complex numbers, and [//] and [%] on floats (which
    the calculator never applies). *)
Inductive outcome (A : Type) :=
| Ok (a : A)
| Raise (e : exn)
| OutOfModel.
Arguments Ok {A} a.
Arguments Raise {A} e.
Arguments OutOfModel {A}.

Definition obind {A B} (m : outcome A) (k : A -> outcome B) : outcome B :=
  match m with
  | Ok a => k a
  | Raise e => Raise e
  | OutOfModel => OutOfModel
  end.

(** binary64 *)
Definition prec : Z := 53.
Definition emax : Z := 1024.
Definition float : Set := spec_float.

Definition fadd : float -> float -> float := SFadd prec emax.
Definition fsub : float -> float -> float := SFsub prec emax.
Definition fmul : float -> float -> float := SFmul prec emax.
Definition fdiv : float -> float -> float := SFdiv prec emax.
Definition fone : float := S754_finite false 4503599627370496 (-52).
Definition fzero : float := S754_zero false.

(** An integer as an exact (unrounded) binary number. *)
Definition Z2SF (z : Z) : float :=
  match z with
  | Z0 => S754_zero false
  | Zpos p => S754_finite false p 0
  | Zneg p => S754_finite true p 0
  end.

Definition is_nan (f : float) : bool :=
  match f with S754_nan => true | _ => false end.
Definition is_inf (f : float) : bool :=
  match f with S754_infinity _ => true | _ => false end.

(** [float(z)]: round to nearest even; OverflowError ("int too large to
    convert to float") when the rounded value is not finite. *)
Definition int_to_float (z : Z) : outcome float :=
  let f := binary_normalize prec emax z 0 false in
  if is_inf f then Raise OverflowError else Ok f.

(** The least natural number that is too large for a double: it rounds
    to [2 ^ 1024], and the numbers below it to at most the largest double
    [2 ^ 1024 - 2 ^ 971]. *)
Definition double_overflow : Z := 2 ^ 1024 - 2 ^ 970.

(** [iw == floor(iw)] for a finite, non-zero float. *)
Definition is_integral (f : float) : bool :=
  match f with
  | S754_finite _ m e =>
      if 0 <=? e then true else Z.eqb (Z.modulo (Zpos m) (2 ^ (- e))) 0
  | S754_zero _ => true
  | _ => false
  end.

(** [DOUBLE_IS_ODD_INTEGER(x)], that is [fmod(fabs(x), 2.0) == 1.0]. *)
Definition is_odd_integer (f : float) : bool :=
  match f with
  | S754_finite _ m e =>
      if 0 <=? e then Z.eqb e 0 && Z.odd (Zpos m)
      else Z.eqb (Z.modulo (Zpos m) (2 ^ (- e))) 0
           && Z.odd (Z.div (Zpos m) (2 ^ (- e)))
  | _ => false
  end.

Inductive value :=
| VInt (z : Z)
| VFloat (f : float).

Definition is_int (v : value) : bool :=
  match v with VInt _ => true | VFloat _ => false end.
Definition is_float (v : value) : bool :=
  match v with VInt _ => false | VFloat _ => true end.

(** [float(v)] as done by the mixed-mode operators. *)
Definition to_float (v : value) : outcome float :=
  match v with
  | VInt z => int_to_float z
  | VFloat f => Ok f
  end.

(** [v == 0] *)
Definition eq_zero (v : value) : bool :=
  match v with
  | VInt z => Z.eqb z 0
  | VFloat f => SFeqb f fzero
  end.

(** [+v] and [-v] *)
Definition pos (v : value) : outcome value := Ok v.
Definition neg (v : value) : outcome value :=
  match v with
  | VInt z => Ok (VInt (- z))
  | VFloat f => Ok (VFloat (SFopp f))
  end.

(** A binary operator that is exact on two ints and otherwise converts
    both operands to float, left operand first. *)
Definition arith (iop : Z -> Z -> Z) (fop : float -> float -> float)
    (a b : value) : outcome value :=
  match a, b with
  | VInt x, VInt y => Ok (VInt (iop x y))
  | _, _ =>
      obind (to_float a) (fun x =>
      obind (to_float b) (fun y =>
      Ok (VFloat (fop x y))))
  end.

(** [a + b], [a - b], [a * b] *)
Definition add : value -> value -> outcome value := arith Z.add fadd.
Definition sub : value -> value -> outcome value := arith Z.sub fsub.
Definition mul : value -> value -> outcome value := arith Z.mul fmul.

(** [a / b]: the correctly rounded quotient on two ints (OverflowError,
    "integer division result too large for a float", when it is not
    finite); float division otherwise. *)
Definition truediv (a b : value) : outcome value :=
  match a, b with
  | VInt x, VInt y =>
      if Z.eqb y 0 then Raise ZeroDivisionError
      else
        let q := fdiv (Z2SF x) (Z2SF y) in
        if is_inf q then Raise OverflowError else Ok (VFloat q)
  | _, _ =>
      obind (to_float a) (fun x =>
      obind (to_float b) (fun y =>
      if SFeqb y fzero then Raise ZeroDivisionError
      else Ok (VFloat (fdiv x y))))
  end.

(** [a // b] and [a % b]: floor division and its remainder on two ints.
    The calculator applies them to ints only; their float versions are
    not modelled. *)
Definition floordiv (a b : value) : outcome value :=
  match a, b with
  | VInt x, VInt y =>
      if Z.eqb y 0 then Raise ZeroDivisionError else Ok (VInt (Z.div x y))
  | _, _ => OutOfModel
  end.
Definition modulo (a b : value) : outcome value :=
  match a, b with
  | VInt x, VInt y =>
      if Z.eqb y 0 then Raise ZeroDivisionError else Ok (VInt (Z.modulo x y))
  | _, _ => OutOfModel
  end.

(** [float.__pow__]: the special cases CPython sorts out itself, in its
    order; the remaining call of the platform [pow] (finite arguments,
    [iw] non-zero, [iv] positive and not 1.0), and the complex result of a
    negative base with a fractional exponent, are [OutOfModel]. *)
Definition float_pow (iv iw : float) : outcome value :=
  if SFeqb iw fzero then Ok (VFloat fone)
  else if is_nan iv then Ok (VFloat iv)
  else if is_nan iw then Ok (VFloat (if SFeqb iv fone then fone else iw))
  else if is_inf iw then
    let iv := SFabs iv in
    if SFeqb iv fone then Ok (VFloat fone)
    else if Bool.eqb (SFltb fzero iw) (SFltb fone iv)
         then Ok (VFloat (SFabs iw))
         else Ok (VFloat fzero)
  else if is_inf iv then
    let iw_is_odd := is_odd_integer iw in
    if SFltb fzero iw
    then Ok (VFloat (if iw_is_odd then iv else SFabs iv))
    else Ok (VFloat (if iw_is_odd
                     then (if SFltb iv fzero then S754_zero true else fzero)
                     else fzero))
  else if SFeqb iv fzero then
    let iw_is_odd := is_odd_integer iw in
    if SFltb iw fzero then Raise ZeroDivisionError
    else Ok (VFloat (if iw_is_odd then iv else fzero))
  else
    if SFltb iv fzero && negb (is_integral iw) then OutOfModel
    else
      let negate_result := SFltb iv fzero && is_odd_integer iw in
      let iv := if SFltb iv fzero then SFopp iv else iv in
      if SFeqb iv fone
      then Ok (VFloat (if negate_result then SFopp fone else fone))
      else OutOfModel.

(** [a ** b] *)
Definition pow (a b : value) : outcome value :=
  match a, b with
  | VInt x, VInt y =>
      if 0 <=? y then Ok (VInt (Z.pow x y))
      else
        obind (int_to_float x) (fun iv =>
        obind (int_to_float y) (fun iw =>
        float_pow iv iw))
  | _, _ =>
      obind (to_float a) (fun iv =>
      obind (to_float b) (fun iw =>
      float_pow iv iw))
  end.

End Py.

Import Py.

(** ** Characters and number literals *)

Local Open Scope nat_scope.

Definition code (ch : ascii) : nat := nat_of_ascii ch.

(** [ch.isspace()] on U+0000..U+00FF: TAB, LF, VT, FF, CR, FS, GS, RS, US,
    SPACE, NEL (U+0085) and NBSP (U+00A0). *)
Definition isspace (ch : ascii) : bool :=
  let c := code ch in
  ((9 <=? c) && (c <=? 13)) || ((28 <=? c) && (c <=? 32))
  || (c =? 133) || (c =? 160).

(** The ten ASCII digits. *)
Definition is_ascii_digit (ch : ascii) : bool :=
  let c := code ch in (48 <=? c) && (c <=? 57).

(** [ch.isdigit()] on U+0000..U+00FF: the ASCII digits and the superscripts
    U+00B2, U+00B3, U+00B9 (which [int] and [float] do not accept). *)
Definition isdigit (ch : ascii) : bool :=
  let c := code ch in
  is_ascii_digit ch || (c =? 178) || (c =? 179) || (c =? 185).

(** [expression[i]]; every use below is guarded by [i < n], as in the
    source. *)
Definition char_at (expression : string) (i : nat) : ascii :=
  match String.get i expression with
  | Some ch => ch
  | None => Ascii.zero
  end.

(** The value of a run of decimal digits appended to [acc]; [None] on a
    character that is not an ASCII digit. *)
Fixpoint int_of_digits (acc : Z) (s : string) : option Z :=
  match s with
  | EmptyString => Some acc
  | String ch s' =>
      if is_ascii_digit ch
      then int_of_digits (10 * acc + Z.of_nat (code ch - 48)) s'
      else None
  end.

(** [sys.get_int_max_str_digits()], at its default. *)
Definition int_max_str_digits : nat := 4300.

(** [int(num_str)] on a string without sign, blanks or underscores;
    [None] is ValueError: the string is empty, has more digits than
    [int_max_str_digits] (leading zeros count), or has a character that is
    not a decimal digit. *)
Definition py_int (num_str : string) : option Z :=
  match num_str with
  | EmptyString => None
  | _ =>
      if int_max_str_digits <? String.length num_str then None
      else int_of_digits 0 num_str
  end.

(** The part of [s] before the first point, and the part after it. *)
Fixpoint split_point (s : string) : string * string :=
  match s with
  | EmptyString => (EmptyString, EmptyString)
  | String ch s' =>
      if Ascii.eqb ch "." then (EmptyString, s')
      else let (a, b) := split_point s' in (String ch a, b)
  end.

(** [float(num_str)] on a string of digits with at most one point: the
    decimal number, correctly rounded to binary64 (infinity when it is too
    large); [None] is ValueError. *)
Definition py_float (num_str : string) : option float :=
  let (ip, fp) := split_point num_str in
  match String.append ip fp with
  | EmptyString => None
  | digits =>
      match int_of_digits 0 digits with
      | Some m => Some (fdiv (Z2SF m) (Z2SF (10 ^ Z.of_nat (String.length fp))))
      | None => None
      end
  end.

(** ** Tokens and the token stream *)

(** [('NUM', v)], [('OP', s)], [('LPAREN', '(')], [('RPAREN', ')')],
    [('EOF', None)]. *)
Inductive token :=
| NUM (v : value)
| OP (s : string)
| LPAREN
| RPAREN
| EOF.

Inductive kind := KNUM | KOP | KLPAREN | KRPAREN | KEOF.

(** [tok[0]] *)
Definition tok_kind (tok : token) : kind :=
  match tok with
  | NUM _ => KNUM
  | OP _ => KOP
  | LPAREN => KLPAREN
  | RPAREN => KRPAREN
  | EOF => KEOF
  end.

Definition kind_eqb (a b : kind) : bool :=
  match a, b with
  | KNUM, KNUM | KOP, KOP | KLPAREN, KLPAREN | KRPAREN, KRPAREN
  | KEOF, KEOF => true
  | _, _ => false
  end.

(** [tok[1] == value] for a string [value]. *)
Definition payload_is (tok : token) (value : string) : bool :=
  match tok with
  | NUM _ => false
  | OP s => String.eqb s value
  | LPAREN => String.eqb "(" value
  | RPAREN => String.eqb ")" value
  | EOF => false
  end.

(** [tok == ('OP', s)] *)
Definition is_op (tok : token) (s : string) : bool :=
  match tok with
  | OP s' => String.eqb s' s
  | _ => false
  end.

(** ** tokenize *)

(** [while i < n and expression[i].isdigit(): i += 1], with the number of
    iterations bounded by [k]; [n - i] iterations always suffice
    ([scan_digits_exit]). *)
Fixpoint scan_digits (k : nat) (expression : string) (i : nat) : nat :=
  match k with
  | O => i
  | S k' =>
      if (i <? String.length expression) && isdigit (char_at expression i)
      then scan_digits k' expression (i + 1)
      else i
  end.

(** One iteration of the [while i < n] loop of [tokenize], entered with
    [i < n]: the tokens and the index after it, or the exception raised. *)
Definition tokenize_step (expression : string) (tokens : list token)
    (i : nat) : outcome (list token * nat) :=
  let n := String.length expression in
  let ch := char_at expression i in
  if isspace ch then Ok (tokens, i + 1)
  else if isdigit ch then
    let start := i in
    let i := scan_digits (n - i) expression i in
    if (i <? n) && Ascii.eqb (char_at expression i) "." then
      if (n <=? i + 1) || negb (isdigit (char_at expression (i + 1)))
      then Raise (ParseError (DigitAfterPoint i))
      else
        let i := i + 1 in
        let i := scan_digits (n - i) expression i in
        let num_str := substring start (i - start) expression in
        match py_float num_str with
        | None => Raise (ParseError BadNumber)
        | Some val => Ok (tokens ++ [NUM (VFloat val)], i)
        end
    else
      let num_str := substring start (i - start) expression in
      match py_int num_str with
      | None => Raise (ParseError BadNumber)
      | Some val => Ok (tokens ++ [NUM (VInt val)], i)
      end
  else if Ascii.eqb ch "(" then Ok (tokens ++ [LPAREN], i + 1)
  else if Ascii.eqb ch ")" then Ok (tokens ++ [RPAREN], i + 1)
  else if Ascii.eqb ch "*" then
    if (i + 1 <? n) && Ascii.eqb (char_at expression (i + 1)) "*"
    then Ok (tokens ++ [OP "**"], i + 2)
    else Ok (tokens ++ [OP "*"], i + 1)
  else if Ascii.eqb ch "/" then
    if (i + 1 <? n) && Ascii.eqb (char_at expression (i + 1)) "/"
    then Ok (tokens ++ [OP "//"], i + 2)
    else Ok (tokens ++ [OP "/"], i + 1)
  else if Ascii.eqb ch "+" || Ascii.eqb ch "-" || Ascii.eqb ch "%"
  then Ok (tokens ++ [OP (String ch EmptyString)], i + 1)
  else Raise (ParseError (BadChar ch i)).

(** The loop of [tokenize]; [fuel] bounds the number of iterations and
    [None] means that it ran out. *)
Fixpoint tokenize_loop (fuel : nat) (expression : string)
    (tokens : list token) (i : nat) : option (outcome (list token)) :=
  if i <? String.length expression then
    match fuel with
    | O => None
    | S fuel' =>
        match tokenize_step expression tokens i with
        | Ok (tokens', i') => tokenize_loop fuel' expression tokens' i'
        | Raise e => Some (Raise e)
        | OutOfModel => Some OutOfModel
        end
    end
  else Some (Ok (tokens ++ [EOF])).

Definition tokenize (expression : string) : option (outcome (list token)) :=
  tokenize_loop (String.length expression) expression [] 0.

(** ** TokenStream *)

Record TokenStream := { tokens : list token; pos : nat }.

(** [TokenStream.peek] *)
Definition peek (ts : TokenStream) : token :=
  match nth_error (tokens ts) (pos ts) with
  | Some tok => tok
  | None => EOF
  end.

(** [TokenStream.eat]: the token and the stream after [self.pos += 1]. *)
Definition eat (kind : kind) (value : option string) (ts : TokenStream)
    : outcome (token * TokenStream) :=
  let tok := peek ts in
  if negb (kind_eqb (tok_kind tok) kind) then Raise (ParseError ExpectedKind)
  else
    match value with
    | Some value =>
        if negb (payload_is tok value) then Raise (ParseError ExpectedValue)
        else Ok (tok, {| tokens := tokens ts; pos := pos ts + 1 |})
    | None => Ok (tok, {| tokens := tokens ts; pos := pos ts + 1 |})
    end.

(** ** The evaluator *)

(** A grammar rule run on a stream: [None] when the fuel ran out,
    otherwise a value with the stream after it, or the exception. *)
Definition run (A : Type) : Type := option (outcome (A * TokenStream)).

Definition bind {A B : Type} (m : run A) (k : A -> TokenStream -> run B)
    : run B :=
  match m with
  | None => None
  | Some (Ok (a, ts)) => k a ts
  | Some (Raise e) => Some (Raise e)
  | Some OutOfModel => Some OutOfModel
  end.

(** A step that cannot run out of fuel. *)
Definition lift {A : Type} (m : outcome (A * TokenStream)) : run A := Some m.

(** [return o] for the result [o] of an arithmetic operation. *)
Definition ret (o : outcome value) (ts : TokenStream) : run value :=
  Some (obind o (fun v => Ok (v, ts))).

Arguments bind : simpl never.
Arguments lift : simpl never.
Arguments ret : simpl never.

Notation "'let*' ( x , ts ) := m 'in' k" :=
  (bind m (fun x ts => k))
  (at level 10, x name, ts name, m at level 100, k at level 200).

Definition _apply_mul_op (op : string) (a b : value) : outcome value :=
  if (String.eqb op "/" || String.eqb op "//" || String.eqb op "%")
     && eq_zero b
  then Raise (EvalError DivisionByZero)
  else if String.eqb op "*" then Py.mul a b
  else if String.eqb op "/" then Py.truediv a b
  else if String.eqb op "//" then
    if negb (is_int a && is_int b) then Raise (EvalError IntegersOnly)
    else Py.floordiv a b
  else if String.eqb op "%" then
    if negb (is_int a && is_int b) then Raise (EvalError IntegersOnly)
    else Py.modulo a b
  else Raise (ParseError UnknownMulOp).

(** [tok[1] in ('*', '/', '//', '%')] *)
Definition is_mul_op (op : string) : bool :=
  String.eqb op "*" || String.eqb op "/" || String.eqb op "//"
  || String.eqb op "%".

(** The grammar rules. Each call, and each iteration of the two
    [while True] loops ([parse_mul_loop], [parse_add_loop]), takes one unit
    of fuel. *)
Fixpoint parse_primary (fuel : nat) (ts : TokenStream) {struct fuel}
    : run value :=
  match fuel with
  | O => None
  | S fuel' =>
      let tok := peek ts in
      match tok with
      | NUM v =>
          let* (_, ts) := lift (eat KNUM None ts) in
          ret (Ok v) ts
      | LPAREN =>
          let* (_, ts) := lift (eat KLPAREN (Some "("%string) ts) in
          let* (val, ts) := parse_expr fuel' ts in
          let* (_, ts) := lift (eat KRPAREN (Some ")"%string) ts) in
          ret (Ok val) ts
      | _ => Some (Raise (ParseError ExpectedNumberOrParen))
      end
  end

with parse_unary (fuel : nat) (ts : TokenStream) {struct fuel} : run value :=
  match fuel with
  | O => None
  | S fuel' =>
      let tok := peek ts in
      if is_op tok "+" then
        let* (_, ts) := lift (eat KOP (Some "+"%string) ts) in
        let* (v, ts) := parse_unary fuel' ts in
        ret (Py.pos v) ts
      else if is_op tok "-" then
        let* (_, ts) := lift (eat KOP (Some "-"%string) ts) in
        let* (v, ts) := parse_unary fuel' ts in
        ret (Py.neg v) ts
      else parse_primary fuel' ts
  end

with parse_pow (fuel : nat) (ts : TokenStream) {struct fuel} : run value :=
  match fuel with
  | O => None
  | S fuel' =>
      let* (left, ts) := parse_unary fuel' ts in
      let tok := peek ts in
      if is_op tok "**" then
        let* (_, ts) := lift (eat KOP (Some "**"%string) ts) in
        let* (right, ts) := parse_pow fuel' ts in
        ret (Py.pow left right) ts
      else ret (Ok left) ts
  end

with parse_mul_loop (fuel : nat) (value : value) (ts : TokenStream)
    {struct fuel} : run Py.value :=
  match fuel with
  | O => None
  | S fuel' =>
      let tok := peek ts in
      match tok with
      | OP op =>
          if is_mul_op op then
            let* (_, ts) := lift (eat KOP (Some op) ts) in
            let* (rhs, ts) := parse_pow fuel' ts in
            let* (value, ts) := ret (_apply_mul_op op value rhs) ts in
            parse_mul_loop fuel' value ts
          else ret (Ok value) ts
      | _ => ret (Ok value) ts
      end
  end

with parse_mul (fuel : nat) (ts : TokenStream) {struct fuel} : run value :=
  match fuel with
  | O => None
  | S fuel' =>
      let* (value, ts) := parse_pow fuel' ts in
      parse_mul_loop fuel' value ts
  end

with parse_add_loop (fuel : nat) (value : value) (ts : TokenStream)
    {struct fuel} : run Py.value :=
  match fuel with
  | O => None
  | S fuel' =>
      let tok := peek ts in
      if is_op tok "+" then
        let* (_, ts) := lift (eat KOP (Some "+"%string) ts) in
        let* (rhs, ts) := parse_mul fuel' ts in
        let* (value, ts) := ret (Py.add value rhs) ts in
        parse_add_loop fuel' value ts
      else if is_op tok "-" then
        let* (_, ts) := lift (eat KOP (Some "-"%string) ts) in
        let* (rhs, ts) := parse_mul fuel' ts in
        let* (value, ts) := ret (Py.sub value rhs) ts in
        parse_add_loop fuel' value ts
      else ret (Ok value) ts
  end

with parse_add (fuel : nat) (ts : TokenStream) {struct fuel} : run value :=
  match fuel with
  | O => None
  | S fuel' =>
      let* (value, ts) := parse_mul fuel' ts in
      parse_add_loop fuel' value ts
  end

with parse_expr (fuel : nat) (ts : TokenStream) {struct fuel} : run value :=
  match fuel with
  | O => None
  | S fuel' => parse_add fuel' ts
  end.

(** Lines 229-234 of [calculate_expression], on the token list, with the
    call depth bounded by [fuel]. *)
Definition calculate_tokens (fuel : nat) (tokens : list token)
    : option (outcome value) :=
  let ts := {| tokens := tokens; pos := 0 |} in
  match parse_expr fuel ts with
  | None => None
  | Some (Ok (result, ts)) =>
      if negb (kind_eqb (tok_kind (peek ts)) KEOF)
      then Some (Raise (ParseError Trailing))
      else Some (Ok result)
  | Some (Raise e) => Some (Raise e)
  | Some OutOfModel => Some OutOfModel
  end.

(** Fuel that is always enough for a token list ([parse_expr_enough_fuel]). *)
Definition budget (tokens : list token) : nat := 8 * List.length tokens + 8.

Definition calculate_expression (expression : string)
    : option (outcome value) :=
  match tokenize expression with
  | None => None
  | Some (Ok tokens) => calculate_tokens (budget tokens) tokens
  | Some (Raise e) => Some (Raise e)
  | Some OutOfModel => Some OutOfModel
  end.

(** ** The evaluator on a heap of objects *)

(** The instances of [TokenStream] by address: those that earlier calls
    have left, and those that the current call creates. A grammar rule
    receives the address [ts] of its stream and changes the object there. *)
Definition heap : Type := list TokenStream.

(** A computation on the heap: [None] when the fuel ran out, otherwise
    the value or the exception, with the heap it leaves. *)
Definition hrun (A : Type) : Type := heap -> option (outcome A * heap).

Definition hbind {A B : Type} (m : hrun A) (k : A -> hrun B) : hrun B :=
  fun h =>
    match m h with
    | None => None
    | Some (Ok a, h') => k a h'
    | Some (Raise e, h') => Some (Raise e, h')
    | Some (OutOfModel, h') => Some (OutOfModel, h')
    end.

Definition hret {A : Type} (o : outcome A) : hrun A := fun h => Some (o, h).

(** The object at [self] replaced by [ts]. *)
Fixpoint store (self : nat) (ts : TokenStream) (h : heap) : heap :=
  match h, self with
  | [], _ => []
  | _ :: h', O => ts :: h'
  | x :: h', S self' => x :: store self' ts h'
  end.

(** [TokenStream(tokens)]: a new object, at a new address. *)
Definition new_stream (tokens : list token) : hrun nat :=
  fun h => Some (Ok (List.length h), h ++ [{| tokens := tokens; pos := 0 |}]).

(** [self.peek()] *)
Definition ts_peek (self : nat) : hrun token :=
  fun h =>
    match nth_error h self with
    | Some ts => Some (Ok (peek ts), h)
    | None => Some (OutOfModel, h)
    end.

(** [self.eat(kind, value)]: [self.pos += 1] changes the object at
    [self]. *)
Definition ts_eat (kind : kind) (value : option string) (self : nat)
    : hrun token :=
  fun h =>
    match nth_error h self with
    | Some ts =>
        match eat kind value ts with
        | Ok (tok, ts') => Some (Ok tok, store self ts' h)
        | Raise e => Some (Raise e, h)
        | OutOfModel => Some (OutOfModel, h)
        end
    | None => Some (OutOfModel, h)
    end.

Notation "'do*' x := m 'in' k" :=
  (hbind m (fun x => k))
  (at level 10, x name, m at level 100, k at level 200).

(** The grammar rules on the stream at address [ts]. *)
Fixpoint parse_primary_h (fuel : nat) (ts : nat) {struct fuel} : hrun value :=
  match fuel with
  | O => fun _ => None
  | S fuel' =>
      do* tok := ts_peek ts in
      match tok with
      | NUM v =>
          do* _ := ts_eat KNUM None ts in
          hret (Ok v)
      | LPAREN =>
          do* _ := ts_eat KLPAREN (Some "("%string) ts in
          do* val := parse_expr_h fuel' ts in
          do* _ := ts_eat KRPAREN (Some ")"%string) ts in
          hret (Ok val)
      | _ => hret (Raise (ParseError ExpectedNumberOrParen))
      end
  end

with parse_unary_h (fuel : nat) (ts : nat) {struct fuel} : hrun value :=
  match fuel with
  | O => fun _ => None
  | S fuel' =>
      do* tok := ts_peek ts in
      if is_op tok "+" then
        do* _ := ts_eat KOP (Some "+"%string) ts in
        do* v := parse_unary_h fuel' ts in
        hret (Py.pos v)
      else if is_op tok "-" then
        do* _ := ts_eat KOP (Some "-"%string) ts in
        do* v := parse_unary_h fuel' ts in
        hret (Py.neg v)
      else parse_primary_h fuel' ts
  end

with parse_pow_h (fuel : nat) (ts : nat) {struct fuel} : hrun value :=
  match fuel with
  | O => fun _ => None
  | S fuel' =>
      do* left := parse_unary_h fuel' ts in
      do* tok := ts_peek ts in
      if is_op tok "**" then
        do* _ := ts_eat KOP (Some "**"%string) ts in
        do* right := parse_pow_h fuel' ts in
        hret (Py.pow left right)
      else hret (Ok left)
  end

with parse_mul_loop_h (fuel : nat) (value : value) (ts : nat) {struct fuel}
    : hrun Py.value :=
  match fuel with
  | O => fun _ => None
  | S fuel' =>
      do* tok := ts_peek ts in
      match tok with
      | OP op =>
          if is_mul_op op then
            do* _ := ts_eat KOP (Some op) ts in
            do* rhs := parse_pow_h fuel' ts in
            do* value := hret (_apply_mul_op op value rhs) in
            parse_mul_loop_h fuel' value ts
          else hret (Ok value)
      | _ => hret (Ok value)
      end
  end

with parse_mul_h (fuel : nat) (ts : nat) {struct fuel} : hrun value :=
  match fuel with
  | O => fun _ => None
  | S fuel' =>
      do* value := parse_pow_h fuel' ts in
      parse_mul_loop_h fuel' value ts
  end

with parse_add_loop_h (fuel : nat) (value : value) (ts : nat) {struct fuel}
    : hrun Py.value :=
  match fuel with
  | O => fun _ => None
  | S fuel' =>
      do* tok := ts_peek ts in
      if is_op tok "+" then
        do* _ := ts_eat KOP (Some "+"%string) ts in
        do* rhs := parse_mul_h fuel' ts in
        do* value := hret (Py.add value rhs) in
        parse_add_loop_h fuel' value ts
      else if is_op tok "-" then
        do* _ := ts_eat KOP (Some "-"%string) ts in
        do* rhs := parse_mul_h fuel' ts in
        do* value := hret (Py.sub value rhs) in
        parse_add_loop_h fuel' value ts
      else hret (Ok value)
  end

with parse_add_h (fuel : nat) (ts : nat) {struct fuel} : hrun value :=
  match fuel with
  | O => fun _ => None
  | S fuel' =>
      do* value := parse_mul_h fuel' ts in
      parse_add_loop_h fuel' value ts
  end

with parse_expr_h (fuel : nat) (ts : nat) {struct fuel} : hrun value :=
  match fuel with
  | O => fun _ => None
  | S fuel' => parse_add_h fuel' ts
  end.

(** [calculate_expression] on the heap [h]: the token list is a local of
    the call, the stream a new object. *)
Definition calculate_expression_h (expression : string) : hrun value :=
  fun h =>
    match tokenize expression with
    | None => None
    | Some (Ok tokens) =>
        (do* ts := new_stream tokens in
         do* result := parse_expr_h (budget tokens) ts in
         do* tok := ts_peek ts in
         if negb (kind_eqb (tok_kind tok) KEOF)
         then hret (Raise (ParseError Trailing))
         else hret (Ok result)) h
    | Some (Raise e) => Some (Raise e, h)
    | Some OutOfModel => Some (OutOfModel, h)
    end.

(** What a rule on the heap does, compared with the rule [r] on the
    stream alone: the same value or exception, and no other change of the
    heap than the object at [self]. *)
Definition same_run {A : Type} (self : nat) (h : heap) (r : run A)
    (x : option (outcome A * heap)) : Prop :=
  match r with
  | None => x = None
  | Some (Ok (a, ts')) => x = Some (Ok a, store self ts' h)
  | Some (Raise e) => exists ts', x = Some (Raise e, store self ts' h)
  | Some OutOfModel => exists ts', x = Some (OutOfModel, store self ts' h)
  end.

Definition same_rules (fuel : nat) : Prop :=
  forall (self : nat) (h : heap) (ts : TokenStream),
    self < List.length h ->
    same_run self h (parse_primary fuel ts)
      (parse_primary_h fuel self (store self ts h))
    /\ same_run self h (parse_unary fuel ts)
         (parse_unary_h fuel self (store self ts h))
    /\ same_run self h (parse_pow fuel ts)
         (parse_pow_h fuel self (store self ts h))
    /\ (forall v, same_run self h (parse_mul_loop fuel v ts)
                    (parse_mul_loop_h fuel v self (store self ts h)))
    /\ same_run self h (parse_mul fuel ts)
         (parse_mul_h fuel self (store self ts h))
    /\ (forall v, same_run self h (parse_add_loop fuel v ts)
                    (parse_add_loop_h fuel v self (store self ts h)))
    /\ same_run self h (parse_add fuel ts)
         (parse_add_h fuel self (store self ts h))
    /\ same_run self h (parse_expr fuel ts)
         (parse_expr_h fuel self (store self ts h)).

(** ** Notions used in the proofs *)

(** The outcomes a tokenizer iteration can have. *)
Definition is_parse_error {A : Type} (o : outcome A) : Prop :=
  exists r, o = Raise (ParseError r).

(** Tokens left in front of the cursor. *)
Definition remaining (ts : TokenStream) : nat :=
  List.length (tokens ts) - pos ts.

(** [r] is a result (the fuel was enough), and if it is a value the cursor
    is on the same token list as [ts0] and not before it. *)
Definition progress {A : Type} (r : run A) (ts0 : TokenStream) : Prop :=
  exists o, r = Some o
            /\ forall a ts, o = Ok (a, ts) ->
                 tokens ts = tokens ts0 /\ pos ts0 <= pos ts.

(** The fuel that the rule of rank [rank] needs on [ts]: eight units for
    each token left, and one for each rule between it and [parse_primary]. *)
Definition need (rank : nat) (ts : TokenStream) : nat :=
  8 * remaining ts + rank.

Definition enough_at (fuel : nat) : Prop :=
  (forall ts, need 1 ts <= fuel -> progress (parse_primary fuel ts) ts)
  /\ (forall ts, need 2 ts <= fuel -> progress (parse_unary fuel ts) ts)
  /\ (forall ts, need 3 ts <= fuel -> progress (parse_pow fuel ts) ts)
  /\ (forall v ts, need 4 ts <= fuel -> progress (parse_mul_loop fuel v ts) ts)
  /\ (forall ts, need 5 ts <= fuel -> progress (parse_mul fuel ts) ts)
  /\ (forall v ts, need 6 ts <= fuel -> progress (parse_add_loop fuel v ts) ts)
  /\ (forall ts, need 7 ts <= fuel -> progress (parse_add fuel ts) ts)
  /\ (forall ts, need 8 ts <= fuel -> progress (parse_expr fuel ts) ts).

Definition mono_at (fuel : nat) : Prop :=
  forall fuel', fuel <= fuel' ->
  (forall ts o, parse_primary fuel ts = Some o ->
                parse_primary fuel' ts = Some o)
  /\ (forall ts o, parse_unary fuel ts = Some o ->
                   parse_unary fuel' ts = Some o)
  /\ (forall ts o, parse_pow fuel ts = Some o -> parse_pow fuel' ts = Some o)
  /\ (forall v ts o, parse_mul_loop fuel v ts = Some o ->
                     parse_mul_loop fuel' v ts = Some o)
  /\ (forall ts o, parse_mul fuel ts = Some o -> parse_mul fuel' ts = Some o)
  /\ (forall v ts o, parse_add_loop fuel v ts = Some o ->
                     parse_add_loop fuel' v ts = Some o)
  /\ (forall ts o, parse_add fuel ts = Some o -> parse_add fuel' ts = Some o)
  /\ (forall ts o, parse_expr fuel ts = Some o ->
                   parse_expr fuel' ts = Some o).

(** The stream after [self.pos += 1]. *)
Definition advance (ts : TokenStream) : TokenStream :=
  {| tokens := tokens ts; pos := pos ts + 1 |}.

(** The stream on [toks] with the cursor at index [n]. *)
Definition stream_at (toks : list token) (n : nat) : TokenStream :=
  {| tokens := toks; pos := n |}.

(** The tokens of ["2 ** 3 ** 2"], ["5 % -0.0"] and ["-2 ** 2"]. *)
Definition toks_pow_chain : list token :=
  [NUM (VInt 2); OP "**"; NUM (VInt 3); OP "**"; NUM (VInt 2); EOF].
Definition toks_mod_zero : list token :=
  [NUM (VInt 5); OP "%"; OP "-"; NUM (VFloat (S754_zero false)); EOF].
Definition toks_minus_pow : list token :=
  [OP "-"; NUM (VInt 2); OP "**"; NUM (VInt 2); EOF].

(** ** Kinds of results *)

(** An int that [float] does not convert: OverflowError in mixed
    arithmetic. *)
Definition too_large (v : value) : bool :=
  match v with
  | VInt z => (double_overflow <=? Z.abs z)%Z
  | VFloat _ => false
  end.



(** ** Notions used for the further properties *)

(** Fuel that is enough for every rule on [ts]. *)
Definition fuel_for (ts : TokenStream) : nat := 8 * remaining ts + 8.

Definition force {A : Type} (r : run A) : outcome (A * TokenStream) :=
  match r with
  | Some o => o
  | None => OutOfModel
  end.

(** The result of a rule, with the fuel that is enough for it. *)
Definition canon (m : nat -> TokenStream -> run value) (ts : TokenStream)
    : outcome (value * TokenStream) :=
  force (m (fuel_for ts) ts).

Definition run_primary : TokenStream -> outcome (value * TokenStream) :=
  canon parse_primary.
Definition run_unary : TokenStream -> outcome (value * TokenStream) :=
  canon parse_unary.
Definition run_pow : TokenStream -> outcome (value * TokenStream) :=
  canon parse_pow.
Definition run_mul_loop (v : value)
    : TokenStream -> outcome (value * TokenStream) :=
  canon (fun fuel ts => parse_mul_loop fuel v ts).
Definition run_mul : TokenStream -> outcome (value * TokenStream) :=
  canon parse_mul.
Definition run_add_loop (v : value)
    : TokenStream -> outcome (value * TokenStream) :=
  canon (fun fuel ts => parse_add_loop fuel v ts).
Definition run_add : TokenStream -> outcome (value * TokenStream) :=
  canon parse_add.
Definition run_expr : TokenStream -> outcome (value * TokenStream) :=
  canon parse_expr.

(** Sequencing of results, without fuel. *)
Definition rbind {A B : Type} (r : outcome (A * TokenStream))
    (k : A -> TokenStream -> outcome (B * TokenStream))
    : outcome (B * TokenStream) :=
  match r with
  | Ok (a, ts) => k a ts
  | Raise e => Raise e
  | OutOfModel => OutOfModel
  end.

Definition rret (o : outcome value) (ts : TokenStream)
    : outcome (value * TokenStream) :=
  obind o (fun v => Ok (v, ts)).

(** The check of [calculate_expression] after [parse_expr]. *)
Definition finish (r : outcome (value * TokenStream)) : outcome value :=
  match r with
  | Ok (result, ts) =>
      if negb (kind_eqb (tok_kind (peek ts)) KEOF)
      then Raise (ParseError Trailing)
      else Ok result
  | Raise e => Raise e
  | OutOfModel => OutOfModel
  end.

(** The stream on [pre ++ suf] with the cursor on the first token of
    [suf]. *)
Definition at_ (pre suf : list token) : TokenStream :=
  stream_at (pre ++ suf) (List.length pre).

(** Expressions as the grammar of the docstrings builds them: an add
    expression is a chain of mul expressions joined by [+] or [-], a mul
    expression a chain of pow expressions joined by one of the four
    multiplicative operators (both chains grouping to the left), a pow
    expression a unary expression, alone or followed by the power
    operator and a pow expression; then signs, numbers and parentheses. *)
Inductive mulop := Times | Div | FloorDiv | Mod.

Definition mulop_symbol (o : mulop) : string :=
  match o with
  | Times => "*"
  | Div => "/"
  | FloorDiv => "//"
  | Mod => "%"
  end.

Inductive primary_expr :=
| Num (v : value)
| Paren (e : add_expr)
with unary_expr :=
| Primary (p : primary_expr)
| Plus (u : unary_expr)
| Minus (u : unary_expr)
with pow_expr :=
| Unary (u : unary_expr)
| Power (u : unary_expr) (w : pow_expr)
with mul_expr :=
| Pow (w : pow_expr)
| MulOp (t : mul_expr) (o : mulop) (w : pow_expr)
with add_expr :=
| Mul (t : mul_expr)
| Add (e : add_expr) (t : mul_expr)
| Sub (e : add_expr) (t : mul_expr).

(** The tokens an expression is written with. *)
Fixpoint tokens_of_primary (p : primary_expr) : list token :=
  match p with
  | Num v => [NUM v]
  | Paren e => LPAREN :: tokens_of_add e ++ [RPAREN]
  end
with tokens_of_unary (u : unary_expr) : list token :=
  match u with
  | Primary p => tokens_of_primary p
  | Plus u => OP "+" :: tokens_of_unary u
  | Minus u => OP "-" :: tokens_of_unary u
  end
with tokens_of_pow (w : pow_expr) : list token :=
  match w with
  | Unary u => tokens_of_unary u
  | Power u w => tokens_of_unary u ++ OP "**" :: tokens_of_pow w
  end
with tokens_of_mul (t : mul_expr) : list token :=
  match t with
  | Pow w => tokens_of_pow w
  | MulOp t o w => tokens_of_mul t ++ OP (mulop_symbol o) :: tokens_of_pow w
  end
with tokens_of_add (e : add_expr) : list token :=
  match e with
  | Mul t => tokens_of_mul t
  | Add e t => tokens_of_add e ++ OP "+" :: tokens_of_mul t
  | Sub e t => tokens_of_add e ++ OP "-" :: tokens_of_mul t
  end.

(** The value of an expression: operands from left to right, then the
    operation, the first exception ending the evaluation. *)
Fixpoint eval_primary (p : primary_expr) : outcome value :=
  match p with
  | Num v => Ok v
  | Paren e => eval_add e
  end
with eval_unary (u : unary_expr) : outcome value :=
  match u with
  | Primary p => eval_primary p
  | Plus u => obind (eval_unary u) Py.pos
  | Minus u => obind (eval_unary u) Py.neg
  end
with eval_pow (w : pow_expr) : outcome value :=
  match w with
  | Unary u => eval_unary u
  | Power u w =>
      obind (eval_unary u) (fun a =>
      obind (eval_pow w) (fun b => Py.pow a b))
  end
with eval_mul (t : mul_expr) : outcome value :=
  match t with
  | Pow w => eval_pow w
  | MulOp t o w =>
      obind (eval_mul t) (fun a =>
      obind (eval_pow w) (fun b => _apply_mul_op (mulop_symbol o) a b))
  end
with eval_add (e : add_expr) : outcome value :=
  match e with
  | Mul t => eval_mul t
  | Add e t =>
      obind (eval_add e) (fun a =>
      obind (eval_mul t) (fun b => Py.add a b))
  | Sub e t =>
      obind (eval_add e) (fun a =>
      obind (eval_mul t) (fun b => Py.sub a b))
  end.

(** Tokens at which a rule stops. *)
Definition is_mul_tok (tok : token) : bool :=
  match tok with
  | OP op => is_mul_op op
  | _ => false
  end.
Definition stops_pow (tok : token) : bool := negb (is_op tok "**").
Definition stops_mul (tok : token) : bool :=
  stops_pow tok && negb (is_mul_tok tok).
Definition stops_add (tok : token) : bool :=
  stops_mul tok && negb (is_op tok "+") && negb (is_op tok "-").

(** A result whose value satisfies [QA] and whose stream is on the token
    list [tks], or an exception that satisfies [E]; [M] tells whether the
    result may be outside the model. *)
Definition good_res {A : Type} (E : exn -> Prop) (M : Prop) (QA : A -> Prop)
    (tks : list token) (r : outcome (A * TokenStream)) : Prop :=
  match r with
  | Ok (a, ts) => QA a /\ tokens ts = tks
  | Raise e => E e
  | OutOfModel => M
  end.

Definition good_out (E : exn -> Prop) (M : Prop) (Q : value -> Prop)
    (o : outcome value) : Prop :=
  match o with
  | Ok v => Q v
  | Raise e => E e
  | OutOfModel => M
  end.

(** The statement of the invariant for the eight rules at one fuel. *)
Definition invariant_at (P : token -> Prop) (Q : value -> Prop)
    (E : exn -> Prop) (M : Prop) (fuel : nat) : Prop :=
  (forall ts r, Forall P (tokens ts) ->
     parse_primary fuel ts = Some r -> good_res E M Q (tokens ts) r)
  /\ (forall ts r, Forall P (tokens ts) ->
        parse_unary fuel ts = Some r -> good_res E M Q (tokens ts) r)
  /\ (forall ts r, Forall P (tokens ts) ->
        parse_pow fuel ts = Some r -> good_res E M Q (tokens ts) r)
  /\ (forall v ts r, Q v -> Forall P (tokens ts) ->
        parse_mul_loop fuel v ts = Some r -> good_res E M Q (tokens ts) r)
  /\ (forall ts r, Forall P (tokens ts) ->
        parse_mul fuel ts = Some r -> good_res E M Q (tokens ts) r)
  /\ (forall v ts r, Q v -> Forall P (tokens ts) ->
        parse_add_loop fuel v ts = Some r -> good_res E M Q (tokens ts) r)
  /\ (forall ts r, Forall P (tokens ts) ->
        parse_add fuel ts = Some r -> good_res E M Q (tokens ts) r)
  /\ (forall ts r, Forall P (tokens ts) ->
        parse_expr fuel ts = Some r -> good_res E M Q (tokens ts) r).


(** The two ParseErrors of the grammar rules. *)
Definition rule_error (r : parse_reason) : Prop :=
  r = ExpectedKind \/ r = ExpectedNumberOrParen.

(** Exceptions of the evaluator on any token list. *)
Definition any_exn (e : exn) : Prop :=
  match e with
  | ParseError r => rule_error r
  | _ => True
  end.

(** Exceptions of the evaluator on a token list without [**]. *)
Definition no_pow_exn (e : exn) : Prop :=
  match e with
  | ParseError r => rule_error r
  | EvalError _ => True
  | OverflowError => True
  | ZeroDivisionError => False
  end.

(** Exceptions of the evaluator on integer arithmetic. *)
Definition int_exn (e : exn) : Prop :=
  match e with
  | ParseError r => rule_error r
  | EvalError _ => True
  | OverflowError => False
  | ZeroDivisionError => False
  end.

(** A token of integer arithmetic: an int, a parenthesis, EOF, or one of
    [+], [-], [*], [//], [%]. *)
Definition int_token (tok : token) : Prop :=
  match tok with
  | NUM v => is_int v = true
  | OP op =>
      op = "+"%string \/ op = "-"%string \/ op = "*"%string
      \/ op = "//"%string \/ op = "%"%string
  | _ => True
  end.

(** The cursor is inside the token list, or just after its end. *)
Definition within (ts : TokenStream) : Prop :=
  pos ts <= List.length (tokens ts).

(** From [ts0] to [ts]: the same token list, the cursor further, and
    inside the list. *)
Definition consumed (ts0 ts : TokenStream) : Prop :=
  tokens ts = tokens ts0 /\ pos ts0 < pos ts /\ within ts.

(** From [ts0] to [ts]: the same token list, the cursor not before, and
    inside the list if it was. *)
Definition kept (ts0 ts : TokenStream) : Prop :=
  tokens ts = tokens ts0 /\ pos ts0 <= pos ts /\ (within ts0 -> within ts).

(** Every value that [m] returns comes with a stream related to [ts0]. *)
Definition moves {A : Type} (R : TokenStream -> TokenStream -> Prop)
    (m : run A) (ts0 : TokenStream) : Prop :=
  forall a ts, m = Some (Ok (a, ts)) -> R ts0 ts.

Definition cursor_at (fuel : nat) : Prop :=
  (forall ts, moves consumed (parse_primary fuel ts) ts)
  /\ (forall ts, moves consumed (parse_unary fuel ts) ts)
  /\ (forall ts, moves consumed (parse_pow fuel ts) ts)
  /\ (forall v ts, moves kept (parse_mul_loop fuel v ts) ts)
  /\ (forall ts, moves consumed (parse_mul fuel ts) ts)
  /\ (forall v ts, moves kept (parse_add_loop fuel v ts) ts)
  /\ (forall ts, moves consumed (parse_add fuel ts) ts)
  /\ (forall ts, moves consumed (parse_expr fuel ts) ts).

(** The result of the scan loop of [tokenize] from index [i] with the
    tokens [tokens] so far, with the iterations it needs. *)
Definition lex (expression : string) (tokens : list token) (i : nat)
    : outcome (list token) :=
  match tokenize_loop (String.length expression - i) expression tokens i with
  | Some o => o
  | None => OutOfModel
  end.

(** Positions in exceptions, moved by [k] characters. *)
Definition shift_reason (k : nat) (r : parse_reason) : parse_reason :=
  match r with
  | DigitAfterPoint i => DigitAfterPoint (k + i)
  | BadChar ch i => BadChar ch (k + i)
  | r => r
  end.

Definition shift_exn (k : nat) (e : exn) : exn :=
  match e with
  | ParseError r => ParseError (shift_reason k r)
  | e => e
  end.

Definition shift_outcome {A : Type} (k : nat) (o : outcome A) : outcome A :=
  match o with
  | Raise e => Raise (shift_exn k e)
  | o => o
  end.

(** The result of an iteration, with the index and the positions moved
    by [k] characters. *)
Definition shift_step (k : nat) (o : outcome (list token * nat))
    : outcome (list token * nat) :=
  match o with
  | Ok (toks, i) => Ok (toks, k + i)
  | Raise e => Raise (shift_exn k e)
  | OutOfModel => OutOfModel
  end.

(** The tokens [acc] put in front of a token list. *)
Definition prepend (acc : list token) (o : outcome (list token))
    : outcome (list token) :=
  obind o (fun l => Ok (acc ++ l)).

(** Every character of [s] is white space. *)
Fixpoint blank (s : string) : bool :=
  match s with
  | EmptyString => true
  | String c s' => isspace c && blank s'
  end.

(** ** Lexemes *)

Inductive operator := OPlus | OMinus | OTimes | ODiv | OFloorDiv | OMod | OPow.

Definition operator_symbol (o : operator) : string :=
  match o with
  | OPlus => "+"
  | OMinus => "-"
  | OTimes => "*"
  | ODiv => "/"
  | OFloorDiv => "//"
  | OMod => "%"
  | OPow => "**"
  end.

(** What the tokenizer accepts: an int literal (digits [0] to [9], at
    most [int_max_str_digits] of them), a decimal literal (digits, a point,
    digits), an operator, a parenthesis. *)
Inductive lexeme :=
| LInt (digits : string)
| LDec (int_part frac_part : string)
| LOp (o : operator)
| LOpen
| LClose.

(** A non-empty string of ASCII digits. *)
Fixpoint digits_only (s : string) : bool :=
  match s with
  | EmptyString => true
  | String c s' => is_ascii_digit c && digits_only s'
  end.

Definition numeral (s : string) : bool :=
  negb (String.eqb s "") && digits_only s.

Definition wf_lexeme (l : lexeme) : bool :=
  match l with
  | LInt d => numeral d && (String.length d <=? int_max_str_digits)
  | LDec ip fp => numeral ip && numeral fp
  | _ => true
  end.

(** The characters of a lexeme. *)
Definition lexeme_text (l : lexeme) : string :=
  match l with
  | LInt d => d
  | LDec ip fp => ip ++ String "." fp
  | LOp o => operator_symbol o
  | LOpen => "("
  | LClose => ")"
  end.

(** The number written by a string of digits. *)
Definition digits_value (d : string) : Z :=
  match int_of_digits 0 d with
  | Some z => z
  | None => 0%Z
  end.

(** The token of a lexeme; a decimal literal stands for the quotient of
    its digits by the power of ten, rounded to the nearest double. *)
Definition lexeme_token (l : lexeme) : token :=
  match l with
  | LInt d => NUM (VInt (digits_value d))
  | LDec ip fp =>
      NUM (VFloat (fdiv (Z2SF (digits_value (ip ++ fp)))
                        (Z2SF (10 ^ Z.of_nat (String.length fp)))))
  | LOp o => OP (operator_symbol o)
  | LOpen => LPAREN
  | LClose => RPAREN
  end.

(** What may follow a lexeme without changing it: no digit and no point
    after a number, no [*] after [*], no [/] after [/]. *)
Definition follows (l : lexeme) (rest : string) : bool :=
  match rest with
  | EmptyString => true
  | String c _ =>
      match l with
      | LInt _ | LDec _ _ => negb (isdigit c) && negb (Ascii.eqb c ".")
      | LOp OTimes => negb (Ascii.eqb c "*")
      | LOp ODiv => negb (Ascii.eqb c "/")
      | _ => true
      end
  end.

(** Lexemes, each with the white space after it. *)
Fixpoint render (items : list (lexeme * string)) : string :=
  match items with
  | [] => EmptyString
  | (l, ws) :: items' => lexeme_text l ++ ws ++ render items'
  end.

Fixpoint wf_items (items : list (lexeme * string)) : bool :=
  match items with
  | [] => true
  | (l, ws) :: items' =>
      wf_lexeme l && blank ws && follows l (ws ++ render items')
      && wf_items items'
  end.

(** The first character of [s] is not a digit, if there is one. *)
Definition no_digit_first (s : string) : bool :=
  match s with
  | EmptyString => true
  | String c _ => negb (isdigit c)
  end.

(** The tokens of a list of lexemes. *)
Definition lexeme_tokens (items : list (lexeme * string)) : list token :=
  map (fun it => lexeme_token (fst it)) items.

From Stdlib Require DecimalString DecimalNat.

(** The decimal writing of a natural number, without leading zeros, as
    [str] gives it. *)
Definition decimal (n : nat) : string :=
  DecimalString.NilZero.string_of_uint (Nat.to_uint n).

(** The characters of [s] from index [i] on. *)
Definition suffix (i : nat) (s : string) : string :=
  substring i (String.length s - i) s.

(** [p] holds of every character of [s]. *)
Fixpoint all_chars (p : ascii -> bool) (s : string) : bool :=
  match s with
  | EmptyString => true
  | String c s' => p c && all_chars p s'
  end.

(** What follows a lexeme right after the iteration that read it; a point
    after a decimal literal is excluded by the next iteration. *)
Definition follows_step (l : lexeme) (rest : string) : bool :=
  match rest with
  | EmptyString => true
  | String c _ =>
      match l with
      | LInt _ => negb (isdigit c) && negb (Ascii.eqb c ".")
      | LDec _ _ => negb (isdigit c)
      | LOp OTimes => negb (Ascii.eqb c "*")
      | LOp ODiv => negb (Ascii.eqb c "/")
      | _ => true
      end
  end.

(** A float that is zero, positive or plus infinity: not negative, not
    minus zero, not NaN. *)
Definition nonneg_float (f : float) : bool :=
  match f with
  | S754_zero s | S754_infinity s | S754_finite s _ _ => negb s
  | S754_nan => false
  end.

(** A token of the tokenizer other than EOF: a number that is not
    negative, one of the seven operators, or a parenthesis. *)
Definition literal_token (tok : token) : Prop :=
  match tok with
  | NUM (VInt z) => (0 <= z)%Z
  | NUM (VFloat f) => nonneg_float f = true
  | OP op =>
      In op ["+"; "-"; "*"; "/"; "//"; "%"; "**"]%string
  | LPAREN | RPAREN => True
  | EOF => False
  end.

(** From [ts] to [ts'] the cursor has passed exactly the tokens [l], on
    the same token list. *)
Definition reads (ts ts' : TokenStream) (l : list token) : Prop :=
  tokens ts' = tokens ts
  /\ pos ts' = pos ts + List.length l
  /\ skipn (pos ts) (tokens ts) = l ++ skipn (pos ts') (tokens ts).

(** What a rule that returns a value has read is an expression of its
    level with that value; a loop extends the expression on its left. *)
Definition sound_at (fuel : nat) : Prop :=
  (forall ts v ts', parse_primary fuel ts = Some (Ok (v, ts')) ->
     exists p, reads ts ts' (tokens_of_primary p) /\ eval_primary p = Ok v)
  /\ (forall ts v ts', parse_unary fuel ts = Some (Ok (v, ts')) ->
        exists u, reads ts ts' (tokens_of_unary u) /\ eval_unary u = Ok v)
  /\ (forall ts v ts', parse_pow fuel ts = Some (Ok (v, ts')) ->
        exists w, reads ts ts' (tokens_of_pow w) /\ eval_pow w = Ok v)
  /\ (forall t v ts v' ts', eval_mul t = Ok v ->
        parse_mul_loop fuel v ts = Some (Ok (v', ts')) ->
        exists t' l, reads ts ts' l
                     /\ tokens_of_mul t' = tokens_of_mul t ++ l
                     /\ eval_mul t' = Ok v')
  /\ (forall ts v ts', parse_mul fuel ts = Some (Ok (v, ts')) ->
        exists t, reads ts ts' (tokens_of_mul t) /\ eval_mul t = Ok v)
  /\ (forall e v ts v' ts', eval_add e = Ok v ->
        parse_add_loop fuel v ts = Some (Ok (v', ts')) ->
        exists e' l, reads ts ts' l
                     /\ tokens_of_add e' = tokens_of_add e ++ l
                     /\ eval_add e' = Ok v')
  /\ (forall ts v ts', parse_add fuel ts = Some (Ok (v, ts')) ->
        exists e, reads ts ts' (tokens_of_add e) /\ eval_add e = Ok v)
  /\ (forall ts v ts', parse_expr fuel ts = Some (Ok (v, ts')) ->
        exists e, reads ts ts' (tokens_of_add e) /\ eval_add e = Ok v).

(** The characters that start an operator or are a parenthesis. *)
Definition symbol_char (c : ascii) : bool :=
  Ascii.eqb c "(" || Ascii.eqb c ")" || Ascii.eqb c "*" || Ascii.eqb c "/"
  || Ascii.eqb c "+" || Ascii.eqb c "-" || Ascii.eqb c "%".

(** A digit for [isdigit] other than [0] to [9]: on U+0000..U+00FF the
    three superscripts, which [int] and [float] refuse. *)
Definition other_digit (c : ascii) : bool :=
  isdigit c && negb (is_ascii_digit c).

(** The exceptions of [tokenize] on [s], with what they tell about [s]. *)
Definition lex_error (s : string) (e : exn) : Prop :=
  match e with
  | ParseError (BadChar c i) =>
      i < String.length s /\ c = char_at s i
      /\ isspace c = false /\ isdigit c = false /\ symbol_char c = false
  | ParseError (DigitAfterPoint i) =>
      0 < i /\ i < String.length s
      /\ isdigit (char_at s (i - 1)) = true
      /\ char_at s i = "."%char
      /\ (String.length s <= i + 1 \/ isdigit (char_at s (i + 1)) = false)
  | ParseError BadNumber =>
      all_chars (fun c => negb (other_digit c)) s = false
      \/ (exists a l,
            int_max_str_digits < String.length (substring a l s)
            /\ digits_only (substring a l s) = true)
  | _ => False
  end.

(** The tokens an operand can start with: a number, an opening
    parenthesis or a sign. *)
Definition starts_operand (tok : token) : bool :=
  match tok with
  | NUM _ | LPAREN => true
  | OP s => String.eqb s "+" || String.eqb s "-"
  | _ => false
  end.

(** [calculate_expression] on a token list, with the fuel of
    [calculate_expression]. *)
Definition evaluate (toks : list token) : option (outcome value) :=
  calculate_tokens (budget toks) toks.

(** The string of [n] characters [c]. *)
Fixpoint repeat_char (c : ascii) (n : nat) : string :=
  match n with
  | O => EmptyString
  | S n' => String c (repeat_char c n')
  end.

(** The two ParseErrors of the source that no input reaches: a token
    with another value than expected in [eat], and an unknown operator
    in [_apply_mul_op]. *)
Definition unreachable_reason (r : parse_reason) : bool :=
  match r with
  | ExpectedValue | UnknownMulOp => true
  | _ => false
  end.

(** * Properties *)

(** ** Rounding an integer to binary64 *)

Section Rounding.
Local Open Scope Z_scope.

Lemma digits_shr_1 (s : shr_record) :
  0 <= shr_m s ->
  Zdigits2 (shr_m (shr_1 s)) = Z.max 0 (Zdigits2 (shr_m s) - 1)
  /\ 0 <= shr_m (shr_1 s).
Proof.
  destruct s as [m r t]; cbn [shr_m]; intros Hm.
  destruct m as [|p|p]; [cbn; lia| |lia].
  destruct p; cbn [shr_1 shr_m Zdigits2 digits2_pos]; lia.
Qed.

Lemma digits_iter_shr_1 (p : positive) (s : shr_record) :
  0 <= shr_m s ->
  Zdigits2 (shr_m (iter_pos shr_1 p s)) = Z.max 0 (Zdigits2 (shr_m s) - Zpos p)
  /\ 0 <= shr_m (iter_pos shr_1 p s).
Proof.
  revert s; induction p as [p IH|p IH|]; intros s Hs; simpl.
  - destruct (digits_shr_1 s Hs) as [E1 P1].
    destruct (IH _ P1) as [E2 P2]. destruct (IH _ P2) as [E3 P3].
    split; [|exact P3]. rewrite E3, E2, E1. lia.
  - destruct (IH _ Hs) as [E2 P2]. destruct (IH _ P2) as [E3 P3].
    split; [|exact P3]. rewrite E3, E2. lia.
  - apply digits_shr_1; exact Hs.
Qed.

Lemma shr_m_of_loc (m : Z) (l : location) : shr_m (shr_record_of_loc m l) = m.
Proof. destruct l as [|[]]; reflexivity. Qed.

Lemma digits_shr_fexp (m e : Z) (l : location) :
  0 <= m -> 1 <= Zdigits2 m -> -1074 < Zdigits2 m + e ->
  let '(mrs, e') := shr_fexp Py.prec Py.emax m e l in
  0 <= shr_m mrs /\ 1 <= Zdigits2 (shr_m mrs)
  /\ Zdigits2 (shr_m mrs) + e' = Zdigits2 m + e.
Proof.
  intros Hm Hd He. unfold shr_fexp, shr.
  assert (Hf : fexp Py.prec Py.emax (Zdigits2 m + e) = Z.max (Zdigits2 m + e - 53) (-1074))
    by reflexivity.
  rewrite Hf.
  destruct (Z.max (Zdigits2 m + e - 53) (-1074) - e) as [|p|p] eqn:En;
    try (rewrite shr_m_of_loc; lia).
  destruct (digits_iter_shr_1 p (shr_record_of_loc m l)) as [E P];
    [rewrite shr_m_of_loc; exact Hm|].
  rewrite shr_m_of_loc in E. rewrite E. lia.
Qed.

Lemma digits_succ (p : positive) :
  Zpos (digits2_pos p) <= Zpos (digits2_pos (Pos.succ p)).
Proof. induction p; simpl; lia. Qed.

Lemma digits_round (m : Z) (l : location) :
  0 <= m -> 1 <= Zdigits2 m ->
  0 <= round_nearest_even m l /\ Zdigits2 m <= Zdigits2 (round_nearest_even m l).
Proof.
  intros Hm Hd. destruct m as [|p|p]; [simpl in Hd; lia| |lia].
  assert (H1 : Zdigits2 (Zpos p) <= Zdigits2 (Zpos p + 1)).
  { replace (Zpos p + 1) with (Zpos (Pos.succ p)) by lia. apply digits_succ. }
  unfold round_nearest_even.
  destruct l as [|[]]; try destruct (Z.even (Zpos p)); split; lia.
Qed.

Lemma binary_round_aux_nonzero (s : bool) (p : positive) (e : Z) (l : location) :
  -1074 < Zpos (digits2_pos p) + e ->
  match binary_round_aux Py.prec Py.emax s (Zpos p) e l with
  | S754_finite _ _ _ | S754_infinity _ => True
  | _ => False
  end.
Proof.
  intros He. unfold binary_round_aux.
  pose proof (digits_shr_fexp (Zpos p) e l) as H1.
  destruct (shr_fexp Py.prec Py.emax (Zpos p) e l) as [mrs' e'].
  destruct H1 as (P1 & D1 & S1); [lia|simpl; lia|exact He|].
  destruct (digits_round (shr_m mrs') (loc_of_shr_record mrs') P1 D1) as [P2 D2].
  pose proof (digits_shr_fexp (round_nearest_even (shr_m mrs') (loc_of_shr_record mrs'))
                e' loc_Exact) as H3.
  destruct (shr_fexp Py.prec Py.emax _ e' loc_Exact) as [mrs'' e''].
  destruct H3 as (P3 & D3 & S3); [exact P2|lia|simpl in *; lia|].
  destruct (shr_m mrs'') as [|q|q]; [simpl in D3; lia| |lia].
  destruct (e'' <=? Py.emax - Py.prec); exact I.
Qed.

Lemma digits_iter_xO (k m : positive) :
  digits2_pos (Pos.iter xO m k) = (digits2_pos m + k)%positive.
Proof.
  induction k as [|k IH] using Pos.peano_ind.
  - simpl. lia.
  - rewrite Pos.iter_succ. simpl. rewrite IH. lia.
Qed.

Lemma binary_normalize_nonzero (z : Z) :
  z <> 0 ->
  match binary_normalize Py.prec Py.emax z 0 false with
  | S754_finite _ _ _ | S754_infinity _ => True
  | _ => False
  end.
Proof.
  assert (H : forall s p,
     match binary_round Py.prec Py.emax s p 0 with
     | S754_finite _ _ _ | S754_infinity _ => True
     | _ => False
     end).
  { intros s p. unfold binary_round, shl_align.
    destruct (fexp Py.prec Py.emax (Zpos (digits2_pos p) + 0) - 0) as [|k|k] eqn:Ek;
      try (apply binary_round_aux_nonzero; lia).
    apply binary_round_aux_nonzero. rewrite digits_iter_xO.
    assert (fexp Py.prec Py.emax (Zpos (digits2_pos p) + 0)
            = Z.max (Zpos (digits2_pos p) + 0 - 53) (-1074)) as Hf by reflexivity.
    rewrite Hf in *. lia. }
  intros Hz. destruct z as [|p|p]; [congruence| |]; apply H.
Qed.

(** A non-zero int converts to a non-zero float. *)
Lemma int_to_float_nonzero (z : Z) (y : float) :
  z <> 0 -> int_to_float z = Ok y -> SFeqb y fzero = false.
Proof.
  intros Hz. unfold int_to_float.
  pose proof (binary_normalize_nonzero z Hz) as H.
  destruct (binary_normalize Py.prec Py.emax z 0 false) as [| | |s m e];
    try contradiction; simpl; intros E; inversion E; subst.
  destruct s; reflexivity.
Qed.

(** ** When rounding overflows *)

Lemma digits_bounds (p : positive) :
  2 ^ (Zpos (digits2_pos p) - 1) <= Zpos p < 2 ^ Zpos (digits2_pos p).
Proof.
  induction p as [p IH|p IH|]; cbn [digits2_pos].
  - rewrite Pos2Z.inj_succ.
    replace (Z.succ (Zpos (digits2_pos p)) - 1)
      with (Z.succ (Zpos (digits2_pos p) - 1)) by lia.
    rewrite !Z.pow_succ_r by lia. lia.
  - rewrite Pos2Z.inj_succ.
    replace (Z.succ (Zpos (digits2_pos p)) - 1)
      with (Z.succ (Zpos (digits2_pos p) - 1)) by lia.
    rewrite !Z.pow_succ_r by lia. lia.
  - simpl. lia.
Qed.

Lemma digits_nonneg (m : Z) : 0 <= Zdigits2 m.
Proof. destruct m; simpl; lia. Qed.

(** [m < 2 ^ k] bounds the number of digits of [m] by [k]. *)
Lemma digits_le (m k : Z) : 0 <= m -> 0 <= k -> m < 2 ^ k -> Zdigits2 m <= k.
Proof.
  intros Hm Hk H. destruct m as [|p|p]; [simpl; lia| |lia].
  destruct (digits_bounds p) as [Hl _]. cbn [Zdigits2].
  destruct (Z.le_gt_cases (Zpos (digits2_pos p)) k) as [|Hgt]; [assumption|].
  assert (2 ^ k <= 2 ^ (Zpos (digits2_pos p) - 1))
    by (apply Z.pow_le_mono_r; lia).
  lia.
Qed.

Lemma digits_lt (m k : Z) : 0 <= k -> 2 ^ k <= m -> k < Zdigits2 m.
Proof.
  intros Hk H.
  assert (0 < 2 ^ k) by (apply Z.pow_pos_nonneg; lia).
  destruct m as [|p|p]; try lia.
  destruct (digits_bounds p) as [_ Hu]. cbn [Zdigits2].
  destruct (Z.le_gt_cases (Zpos (digits2_pos p)) k) as [Hle|]; [|lia].
  assert (2 ^ Zpos (digits2_pos p) <= 2 ^ k)
    by (apply Z.pow_le_mono_r; lia).
  lia.
Qed.

Lemma value_shr_1 (s : shr_record) :
  0 <= shr_m s ->
  shr_m (shr_1 s) = shr_m s / 2 /\ shr_r (shr_1 s) = Z.odd (shr_m s).
Proof.
  destruct s as [m r t]; cbn [shr_m]; intros Hm.
  destruct m as [|p|p]; [split; reflexivity| |lia].
  destruct p as [p|p|]; cbn [shr_1 shr_m shr_r].
  - split; [|reflexivity].
    apply (Z.div_unique (Zpos p~1) 2 (Zpos p) 1); lia.
  - split; [|reflexivity].
    apply (Z.div_unique (Zpos p~0) 2 (Zpos p) 0); lia.
  - split; reflexivity.
Qed.

(** After [p] shifts the mantissa is the quotient by [2 ^ p] and the round
    bit is bit [p - 1] of the mantissa before. *)
Lemma value_iter_shr_1 (p : positive) (s : shr_record) :
  0 <= shr_m s ->
  shr_m (iter_pos shr_1 p s) = shr_m s / 2 ^ Zpos p
  /\ shr_r (iter_pos shr_1 p s) = Z.testbit (shr_m s) (Zpos p - 1)
  /\ 0 <= shr_m (iter_pos shr_1 p s).
Proof.
  revert s; induction p as [p IH|p IH|]; intros s Hs; cbn [iter_pos];
    try pose proof (Z.pow_pos_nonneg 2 (Zpos p) ltac:(lia) ltac:(lia)) as Hp.
  - destruct (value_shr_1 s Hs) as [E1 _].
    assert (P1 : 0 <= shr_m (shr_1 s)) by (rewrite E1; apply Z.div_pos; lia).
    destruct (IH _ P1) as (E2 & _ & P2). destruct (IH _ P2) as (E3 & R3 & P3).
    split; [|split; [|exact P3]].
    + rewrite E3, E2, E1, !Z.div_div by lia.
      f_equal. rewrite Pos2Z.inj_xI, Z.add_comm, Z.pow_add_r by lia.
      replace (2 * Zpos p) with (Zpos p + Zpos p) by lia.
      rewrite Z.pow_add_r by lia. lia.
    + rewrite R3, E2, E1, Z.div_div by lia.
      replace (2 * 2 ^ Zpos p) with (2 ^ (Zpos p + 1))
        by (rewrite Z.pow_add_r by lia; lia).
      rewrite Z.div_pow2_bits by lia. f_equal. lia.
  - destruct (IH _ Hs) as (E2 & _ & P2). destruct (IH _ P2) as (E3 & R3 & P3).
    split; [|split; [|exact P3]].
    + rewrite E3, E2, Z.div_div by lia.
      f_equal. replace (Zpos p~0) with (Zpos p + Zpos p) by lia.
      rewrite Z.pow_add_r by lia. reflexivity.
    + rewrite R3, E2, Z.div_pow2_bits by lia. f_equal. lia.
  - destruct (value_shr_1 s Hs) as [E1 R1].
    split; [|split].
    + rewrite E1. reflexivity.
    + rewrite R1. symmetry. apply Z.bit0_odd.
    + rewrite E1. apply Z.div_pos; lia.
Qed.

(** The exponent and the number of digits after [shr_fexp]. *)
Lemma shr_fexp_shape (m e : Z) (l : location) :
  0 <= m ->
  let '(mrs, e') := shr_fexp Py.prec Py.emax m e l in
  0 <= shr_m mrs
  /\ e' = Z.max e (Z.max (Zdigits2 m + e - 53) (-1074))
  /\ Zdigits2 (shr_m mrs) = Z.max 0 (Zdigits2 m + e - e').
Proof.
  intros Hm. unfold shr_fexp, shr.
  assert (Hf : fexp Py.prec Py.emax (Zdigits2 m + e)
               = Z.max (Zdigits2 m + e - 53) (-1074)) by reflexivity.
  rewrite Hf. pose proof (digits_nonneg m) as Hd.
  destruct (Z.max (Zdigits2 m + e - 53) (-1074) - e) as [|p|p] eqn:En;
    try (rewrite shr_m_of_loc; lia).
  destruct (digits_iter_shr_1 p (shr_record_of_loc m l)) as [E P];
    [rewrite shr_m_of_loc; exact Hm|].
  rewrite shr_m_of_loc in E. rewrite E. lia.
Qed.

Lemma digits_round_le (m : Z) (l : location) :
  0 <= m ->
  0 <= round_nearest_even m l
  /\ Zdigits2 (round_nearest_even m l) <= Zdigits2 m + 1.
Proof.
  intros Hm.
  assert (H1 : Zdigits2 (m + 1) <= Zdigits2 m + 1).
  { pose proof (digits_nonneg m).
    apply digits_le; [lia|lia|].
    destruct m as [|p|p]; [simpl; lia| |lia].
    destruct (digits_bounds p) as [_ Hu]. cbn [Zdigits2].
    rewrite Z.pow_add_r by lia. lia. }
  unfold round_nearest_even.
  destruct l as [|[]]; try destruct (Z.even m); split; lia.
Qed.

(** No overflow when the number has at most 1023 binary digits. *)
Lemma binary_round_aux_finite (s : bool) (mx ex : Z) (l : location) :
  0 <= mx -> ex <= 0 -> Zdigits2 mx + ex <= 1023 ->
  is_inf (binary_round_aux Py.prec Py.emax s mx ex l) = false.
Proof.
  intros Hm He Hd. unfold binary_round_aux.
  pose proof (shr_fexp_shape mx ex l Hm) as H1.
  destruct (shr_fexp Py.prec Py.emax mx ex l) as [mrs' e'].
  destruct H1 as (P1 & E1 & D1).
  destruct (digits_round_le (shr_m mrs') (loc_of_shr_record mrs') P1)
    as [P2 D2].
  pose proof (shr_fexp_shape _ e' loc_Exact P2) as H3.
  destruct (shr_fexp Py.prec Py.emax _ e' loc_Exact) as [mrs'' e''].
  destruct H3 as (P3 & E3 & D3).
  destruct (shr_m mrs'') as [|q|q]; try reflexivity.
  replace (e'' <=? Py.emax - Py.prec) with true; [reflexivity|].
  symmetry. apply Z.leb_le. change (Py.emax - Py.prec) with 971. lia.
Qed.

Lemma digits_upper (m : Z) : 0 <= m -> m < 2 ^ Zdigits2 m.
Proof.
  destruct m as [|p|p]; [simpl; lia|intros _; apply digits_bounds|lia].
Qed.

Lemma digits_lower (m : Z) : 0 < m -> 2 ^ (Zdigits2 m - 1) <= m.
Proof. destruct m as [|p|p]; try lia. intros _. apply digits_bounds. Qed.

(** Rounding to nearest even of a mantissa of 53 digits with its round
    bit reaches [2 ^ 53] exactly when the 54 digits are all ones. *)
Lemma round_carries (mrs : shr_record) (q : Z) :
  0 <= shr_m mrs < 2 ^ 53 ->
  q = 2 * shr_m mrs + (if shr_r mrs then 1 else 0) ->
  (2 ^ 53 <=? round_nearest_even (shr_m mrs) (loc_of_shr_record mrs))
  = (2 ^ 54 - 1 <=? q).
Proof.
  destruct mrs as [m r t]. cbn [shr_m shr_r]. intros Hm ->.
  change (2 ^ 53) with 9007199254740992 in *.
  change (2 ^ 54 - 1) with 18014398509481983.
  destruct r, t; cbn [loc_of_shr_record round_nearest_even].
  - apply eq_true_iff_eq. rewrite !Z.leb_le. lia.
  - destruct (Z.eq_dec m 9007199254740991) as [->|Hne]; [reflexivity|].
    destruct (Z.even m); apply eq_true_iff_eq; rewrite !Z.leb_le; lia.
  - apply eq_true_iff_eq. rewrite !Z.leb_le. lia.
  - apply eq_true_iff_eq. rewrite !Z.leb_le. lia.
Qed.

(** Rounding a natural number to binary64 overflows exactly from
    [double_overflow] on, whatever the location of the exact value in
    [mx, mx + 1). *)
Lemma binary_round_aux_overflow (s : bool) (mx : Z) (l : location) :
  0 <= mx ->
  is_inf (binary_round_aux Py.prec Py.emax s mx 0 l)
  = (double_overflow <=? mx).
Proof.
  intros Hm.
  assert (C1 : 2 ^ 1023 < double_overflow) by (vm_compute; reflexivity).
  assert (C2 : double_overflow < 2 ^ 1024) by (vm_compute; reflexivity).
  pose proof (digits_upper mx Hm) as Hup.
  destruct (Z.le_gt_cases (Zdigits2 mx) 1023) as [Hd|Hd].
  { rewrite binary_round_aux_finite by lia. symmetry. apply Z.leb_gt.
    assert (2 ^ Zdigits2 mx <= 2 ^ 1023) by (apply Z.pow_le_mono_r; lia).
    lia. }
  assert (Hpos : 0 < mx) by (destruct mx; simpl in Hd; lia).
  pose proof (digits_lower mx Hpos) as Hlo.
  set (p := Z.to_pos (Zdigits2 mx - 53)).
  assert (Ep : Zpos p = Zdigits2 mx - 53) by (subst p; rewrite Z2Pos.id; lia).
  assert (H1 : shr_fexp Py.prec Py.emax mx 0 l
               = (iter_pos shr_1 p (shr_record_of_loc mx l), 0 + Zpos p)).
  { unfold shr_fexp, shr.
    assert (En : fexp Py.prec Py.emax (Zdigits2 mx + 0) - 0 = Zpos p).
    { change (fexp Py.prec Py.emax (Zdigits2 mx + 0))
        with (Z.max (Zdigits2 mx + 0 - 53) (-1074)). lia. }
    rewrite En. reflexivity. }
  unfold binary_round_aux. rewrite H1.
  assert (Hrec : 0 <= shr_m (shr_record_of_loc mx l))
    by (rewrite shr_m_of_loc; exact Hm).
  destruct (value_iter_shr_1 p _ Hrec) as (V1 & R1 & P1).
  destruct (digits_iter_shr_1 p _ Hrec) as [D1 _].
  rewrite shr_m_of_loc in V1, R1, D1.
  set (mrs' := iter_pos shr_1 p (shr_record_of_loc mx l)) in *.
  assert (D1' : Zdigits2 (shr_m mrs') = 53) by lia.
  assert (D0 : 1 <= Zdigits2 (shr_m mrs')) by lia.
  destruct (digits_round (shr_m mrs') (loc_of_shr_record mrs') P1 D0)
    as [P2 D2lo].
  destruct (digits_round_le (shr_m mrs') (loc_of_shr_record mrs') P1)
    as [_ D2hi].
  pose proof (shr_fexp_shape _ (0 + Zpos p) loc_Exact P2) as H3.
  set (m1 := round_nearest_even (shr_m mrs') (loc_of_shr_record mrs')) in *.
  destruct (shr_fexp Py.prec Py.emax m1 (0 + Zpos p) loc_Exact)
    as [mrs'' e''].
  destruct H3 as (P3 & E3 & D3).
  assert (E3' : e'' = Zdigits2 mx - 53 + (Zdigits2 m1 - 53)) by lia.
  assert (D3' : Zdigits2 (shr_m mrs'') = 53) by lia.
  destruct (shr_m mrs'') as [|q|q]; [simpl in D3'; lia| |lia].
  change (Py.emax - Py.prec) with 971.
  destruct (Z.le_gt_cases 1025 (Zdigits2 mx)) as [Hbig|Hlim].
  - (* more than 1024 digits *)
    replace (e'' <=? 971) with false by (symmetry; apply Z.leb_gt; lia).
    symmetry. apply Z.leb_le.
    assert (2 ^ 1024 <= 2 ^ (Zdigits2 mx - 1)) by (apply Z.pow_le_mono_r; lia).
    lia.
  - (* exactly 1024 digits *)
    assert (Hd' : Zdigits2 mx = 1024) by lia.
    assert (Ep' : Zpos p = 971) by lia.
    rewrite Ep' in V1, R1.
    assert (A0 : 0 < 2 ^ 970) by (apply Z.pow_pos_nonneg; lia).
    set (A := 2 ^ 970) in *.
    assert (EA : 2 ^ 971 = A * 2) by (subst A; reflexivity).
    assert (ET : double_overflow = A * (2 ^ 54 - 1))
      by (subst A; vm_compute; reflexivity).
    assert (Hq : mx / A = 2 * shr_m mrs' + (if shr_r mrs' then 1 else 0)).
    { rewrite V1, R1, EA, <- Z.div_div by lia.
      change (971 - 1) with 970.
      rewrite Z.testbit_odd, Z.shiftr_div_pow2 by lia. fold A.
      rewrite (Z.div_mod (mx / A) 2) at 1 by lia.
      rewrite Zmod_odd. reflexivity. }
    assert (Hm53 : 0 <= shr_m mrs' < 2 ^ 53).
    { split; [exact P1|]. rewrite <- D1'. apply digits_upper. exact P1. }
    pose proof (round_carries mrs' (mx / A) Hm53 Hq) as Hr. fold m1 in Hr.
    assert (Hinf : (e'' <=? 971) = negb (2 ^ 53 <=? m1)).
    { destruct (2 ^ 53 <=? m1) eqn:E53; simpl.
      - apply Z.leb_le in E53. apply Z.leb_gt.
        pose proof (digits_lt m1 53 ltac:(lia) E53). lia.
      - apply Z.leb_gt in E53. apply Z.leb_le.
        pose proof (digits_le m1 53 P2 ltac:(lia) E53). lia. }
    rewrite Hinf, Hr.
    destruct (2 ^ 54 - 1 <=? mx / A) eqn:E54; simpl.
    + apply Z.leb_le in E54. symmetry. apply Z.leb_le. rewrite ET.
      pose proof (Z.mul_div_le mx A A0).
      assert (A * (2 ^ 54 - 1) <= A * (mx / A))
        by (apply Z.mul_le_mono_nonneg_l; lia).
      lia.
    + apply Z.leb_gt in E54. symmetry. apply Z.leb_gt. rewrite ET.
      destruct (Z.lt_ge_cases mx (A * (2 ^ 54 - 1))) as [|Hge]; [assumption|].
      pose proof (Z.div_le_lower_bound mx A (2 ^ 54 - 1) A0 Hge). lia.
Qed.

(** [float(z)] overflows exactly when [|z|] is at least
    [double_overflow]. *)
Lemma binary_normalize_overflow (z : Z) :
  is_inf (binary_normalize Py.prec Py.emax z 0 false)
  = (double_overflow <=? Z.abs z).
Proof.
  assert (C : 2 ^ 52 < double_overflow) by (vm_compute; reflexivity).
  assert (H : forall s p,
             is_inf (binary_round Py.prec Py.emax s p 0)
             = (double_overflow <=? Zpos p)).
  { intros s p. unfold binary_round, shl_align.
    assert (Hf : fexp Py.prec Py.emax (Zpos (digits2_pos p) + 0)
                 = Z.max (Zpos (digits2_pos p) + 0 - 53) (-1074))
      by reflexivity.
    destruct (fexp Py.prec Py.emax (Zpos (digits2_pos p) + 0) - 0)
      as [|k|k] eqn:Ek;
      try (apply binary_round_aux_overflow; lia).
    assert (Ef : fexp Py.prec Py.emax (Zpos (digits2_pos p) + 0) = Zneg k)
      by lia.
    rewrite Ef. rewrite binary_round_aux_finite.
    - symmetry. apply Z.leb_gt.
      destruct (digits_bounds p) as [_ Hu].
      assert (2 ^ Zpos (digits2_pos p) <= 2 ^ 52)
        by (apply Z.pow_le_mono_r; lia).
      lia.
    - lia.
    - lia.
    - cbn [Zdigits2]. rewrite digits_iter_xO. lia. }
  destruct z as [|p|p]; [reflexivity| |]; apply H.
Qed.

Lemma int_to_float_overflow (z : Z) :
  int_to_float z
  = if double_overflow <=? Z.abs z then Raise OverflowError
    else Ok (binary_normalize Py.prec Py.emax z 0 false).
Proof.
  unfold int_to_float. rewrite binary_normalize_overflow. reflexivity.
Qed.

(** The correctly rounded quotient of two positive integers overflows
    exactly when their integer quotient is at least [double_overflow]. *)
Lemma div_core_overflow (s : bool) (mx my : positive) :
  is_inf (let '(mz, ez, lz) :=
            SFdiv_core_binary Py.prec Py.emax (Zpos mx) 0 (Zpos my) 0 in
          binary_round_aux Py.prec Py.emax s mz ez lz)
  = (double_overflow <=? Zpos mx / Zpos my).
Proof.
  assert (C : 2 ^ 53 < double_overflow) by (vm_compute; reflexivity).
  unfold SFdiv_core_binary. cbn [Zdigits2].
  set (d1 := Zpos (digits2_pos mx)). set (d2 := Zpos (digits2_pos my)).
  assert (Hf : fexp Py.prec Py.emax (d1 + 0 - (d2 + 0))
               = Z.max (d1 + 0 - (d2 + 0) - 53) (-1074)) by reflexivity.
  rewrite Hf. clear Hf.
  set (f := Z.max (d1 + 0 - (d2 + 0) - 53) (-1074)).
  destruct (digits_bounds mx) as [L1 U1]. destruct (digits_bounds my) as [L2 U2].
  fold d1 in L1, U1. fold d2 in L2, U2.
  destruct (Z.le_gt_cases 0 f) as [Hf|Hf].
  - (* the quotient has at least 53 digits: no scaling *)
    replace (Z.min f (0 - 0)) with 0 by lia. cbn [Z.sub Z.opp Z.add].
    destruct (Z.div_eucl (Zpos mx) (Zpos my)) as [q r] eqn:Ediv.
    assert (Eq : q = Zpos mx / Zpos my)
      by (unfold Z.div; rewrite Ediv; reflexivity).
    rewrite <- Eq. apply binary_round_aux_overflow.
    rewrite Eq. apply Z.div_pos; lia.
  - (* a small quotient, scaled *)
    replace (Z.min f (0 - 0)) with f by lia.
    assert (Es : exists k, 0 - 0 - f = Zpos k /\ Zpos k = - f).
    { exists (Z.to_pos (- f)). rewrite Z2Pos.id by lia. lia. }
    destruct Es as (k & Es & Ek). rewrite Es, Z.shiftl_mul_pow2 by lia.
    assert (Hk : 0 < 2 ^ Zpos k) by (apply Z.pow_pos_nonneg; lia).
    assert (Hsmall : Zpos mx < Zpos my * 2 ^ 53).
    { assert (2 ^ d1 <= 2 ^ (d2 - 1 + 53)) by (apply Z.pow_le_mono_r; lia).
      rewrite Z.pow_add_r in * by lia.
      assert (2 ^ (d2 - 1) * 2 ^ 53 <= Zpos my * 2 ^ 53)
        by (apply Z.mul_le_mono_nonneg_r; lia).
      lia. }
    destruct (Z.div_eucl (Zpos mx * 2 ^ Zpos k) (Zpos my)) as [q r] eqn:Ediv.
    assert (Eq : q = Zpos mx * 2 ^ Zpos k / Zpos my)
      by (unfold Z.div; rewrite Ediv; reflexivity).
    assert (Q0 : 0 <= q) by (rewrite Eq; apply Z.div_pos; lia).
    assert (Q1 : q < 2 ^ (53 + Zpos k)).
    { rewrite Eq. apply Z.div_lt_upper_bound; [lia|].
      rewrite Z.pow_add_r by lia.
      replace (Zpos my * (2 ^ 53 * 2 ^ Zpos k))
        with ((Zpos my * 2 ^ 53) * 2 ^ Zpos k) by ring.
      apply Z.mul_lt_mono_pos_r; assumption. }
    rewrite binary_round_aux_finite.
    + symmetry. apply Z.leb_gt.
      assert (Zpos mx / Zpos my < 2 ^ 53)
        by (apply Z.div_lt_upper_bound; lia).
      lia.
    + exact Q0.
    + lia.
    + pose proof (digits_le q (53 + Zpos k) Q0 ltac:(lia) Q1). lia.
Qed.

Lemma fdiv_overflow (x y : Z) :
  y <> 0 ->
  is_inf (fdiv (Z2SF x) (Z2SF y)) = (double_overflow <=? Z.abs x / Z.abs y).
Proof.
  intros Hy. destruct y as [|my|my]; [congruence| |];
    (destruct x as [|mx|mx]; [reflexivity| |]);
    apply div_core_overflow.
Qed.

End Rounding.

(** ** The tokenizer terminates *)

Lemma scan_digits_ge (k : nat) (expression : string) (i : nat) :
  i <= scan_digits k expression i.
Proof.
  revert i; induction k as [|k IH]; intros i; simpl; [lia|].
  destruct ((i <? String.length expression) && isdigit (char_at expression i));
    [|lia].
  specialize (IH (i + 1)); lia.
Qed.

Lemma scan_digits_le (k : nat) (expression : string) (i : nat) :
  i <= String.length expression ->
  scan_digits k expression i <= String.length expression.
Proof.
  revert i; induction k as [|k IH]; intros i Hi; simpl; [lia|].
  destruct (i <? String.length expression) eqn:Hlt; simpl; [|lia].
  apply Nat.ltb_lt in Hlt.
  destruct (isdigit (char_at expression i)); [|lia].
  apply IH; lia.
Qed.

(** With [n - i] iterations the bounded loop stops on the exit condition
    of the source's [while], not on its bound. *)
Lemma scan_digits_exit (k : nat) (expression : string) (i : nat) :
  String.length expression - i <= k ->
  let j := scan_digits k expression i in
  (j <? String.length expression) && isdigit (char_at expression j) = false.
Proof.
  revert i; induction k as [|k IH]; intros i Hk; simpl.
  - replace (i <? String.length expression) with false; [reflexivity|].
    symmetry; apply Nat.ltb_ge; lia.
  - destruct ((i <? String.length expression) && isdigit (char_at expression i))
      eqn:Hc; [|exact Hc].
    apply IH; lia.
Qed.

Lemma scan_digits_first (k : nat) (expression : string) (i : nat) :
  i < String.length expression ->
  isdigit (char_at expression i) = true ->
  0 < k ->
  i < scan_digits k expression i.
Proof.
  intros Hi Hd Hk; destruct k as [|k]; [lia|]; simpl.
  apply Nat.ltb_lt in Hi; rewrite Hi, Hd; simpl.
  pose proof (scan_digits_ge k expression (i + 1)); lia.
Qed.

Lemma tokenize_step_advances (expression : string) (tokens : list token)
    (i : nat) :
  i < String.length expression ->
  match tokenize_step expression tokens i with
  | Ok (_, i') => i < i' <= String.length expression
  | Raise e => exists r, e = ParseError r
  | OutOfModel => False
  end.
Proof.
  intros Hi; unfold tokenize_step.
  set (n := String.length expression) in *.
  destruct (isspace (char_at expression i)); [lia|].
  destruct (isdigit (char_at expression i)) eqn:Hd.
  - assert (H1 : i < scan_digits (n - i) expression i)
      by (apply scan_digits_first; [exact Hi|exact Hd|lia]).
    assert (H2 : scan_digits (n - i) expression i <= n)
      by (apply scan_digits_le; fold n; lia).
    set (j := scan_digits (n - i) expression i) in *.
    destruct ((j <? n) && Ascii.eqb (char_at expression j) ".") eqn:Hp.
    + destruct ((n <=? j + 1) || negb (isdigit (char_at expression (j + 1))))
        eqn:Hq; [eexists; reflexivity|].
      apply orb_false_iff in Hq; destruct Hq as [Hq _].
      apply Nat.leb_gt in Hq.
      pose proof (scan_digits_ge (n - (j + 1)) expression (j + 1)) as H3.
      assert (H4 : scan_digits (n - (j + 1)) expression (j + 1) <= n)
        by (apply scan_digits_le; fold n; lia).
      destruct (py_float _); [lia|eexists; reflexivity].
    + destruct (py_int _); [lia|eexists; reflexivity].
  - destruct (Ascii.eqb (char_at expression i) "("); [lia|].
    destruct (Ascii.eqb (char_at expression i) ")"); [lia|].
    destruct (Ascii.eqb (char_at expression i) "*").
    { destruct ((i + 1 <? n) && Ascii.eqb (char_at expression (i + 1)) "*")
        eqn:Hs; [|lia].
      apply andb_true_iff in Hs; destruct Hs as [Hs _].
      apply Nat.ltb_lt in Hs; lia. }
    destruct (Ascii.eqb (char_at expression i) "/").
    { destruct ((i + 1 <? n) && Ascii.eqb (char_at expression (i + 1)) "/")
        eqn:Hs; [|lia].
      apply andb_true_iff in Hs; destruct Hs as [Hs _].
      apply Nat.ltb_lt in Hs; lia. }
    destruct (_ || _); [lia|eexists; reflexivity].
Qed.

Lemma tokenize_loop_enough (fuel : nat) (expression : string)
    (tokens : list token) (i : nat) :
  String.length expression - i <= fuel ->
  exists o, tokenize_loop fuel expression tokens i = Some o
            /\ ((exists toks, o = Ok toks) \/ is_parse_error o).
Proof.
  revert tokens i; induction fuel as [|fuel IH]; intros tokens i Hf.
  - simpl. replace (i <? String.length expression) with false
      by (symmetry; apply Nat.ltb_ge; lia).
    eexists; split; [reflexivity|left; eexists; reflexivity].
  - simpl. destruct (i <? String.length expression) eqn:Hlt.
    + apply Nat.ltb_lt in Hlt.
      pose proof (tokenize_step_advances expression tokens i Hlt) as Hs.
      destruct (tokenize_step expression tokens i) as [[toks' i']|e|].
      * apply IH; lia.
      * destruct Hs as [r ->].
        eexists; split; [reflexivity|right; eexists; reflexivity].
      * contradiction.
    + eexists; split; [reflexivity|left; eexists; reflexivity].
Qed.

Lemma tokenize_loop_fuel_mono (fuel fuel' : nat) (expression : string)
    (tokens : list token) (i : nat) (o : outcome (list token)) :
  fuel <= fuel' ->
  tokenize_loop fuel expression tokens i = Some o ->
  tokenize_loop fuel' expression tokens i = Some o.
Proof.
  revert fuel' tokens i; induction fuel as [|fuel IH];
    intros fuel' tokens i Hle H.
  - simpl in H. destruct fuel'; simpl;
      destruct (i <? String.length expression); congruence.
  - destruct fuel' as [|fuel']; [lia|]. simpl in *.
    destruct (i <? String.length expression); [|exact H].
    destruct (tokenize_step expression tokens i) as [[toks' i']|e|];
      [|exact H|exact H].
    apply IH; [lia|exact H].
Qed.

Lemma tokenize_total (expression : string) :
  exists o, tokenize expression = Some o
            /\ ((exists toks, o = Ok toks) \/ is_parse_error o).
Proof. apply tokenize_loop_enough; lia. Qed.

(** ** The evaluator never runs out of fuel *)

Lemma peek_not_eof (ts : TokenStream) :
  tok_kind (peek ts) <> KEOF -> pos ts < List.length (tokens ts).
Proof.
  unfold peek; intros H.
  destruct (nth_error (tokens ts) (pos ts)) eqn:E.
  - apply nth_error_Some; congruence.
  - simpl in H; congruence.
Qed.

Lemma eat_ok (k : kind) (value : option string) (ts ts' : TokenStream)
    (tok : token) :
  eat k value ts = Ok (tok, ts') ->
  tok = peek ts /\ tok_kind tok = k
  /\ tokens ts' = tokens ts /\ pos ts' = pos ts + 1.
Proof.
  unfold eat; intros H.
  destruct (kind_eqb (tok_kind (peek ts)) k) eqn:Hk; simpl in H;
    [|discriminate].
  assert (Hkind : tok_kind (peek ts) = k)
    by (destruct (tok_kind (peek ts)), k; simpl in Hk; congruence).
  destruct value as [v|].
  - destruct (payload_is (peek ts) v); simpl in H; [|discriminate].
    inversion H; subst; simpl; auto.
  - inversion H; subst; simpl; auto.
Qed.

Lemma eat_remaining (k : kind) (value : option string) (ts ts' : TokenStream)
    (tok : token) :
  k <> KEOF ->
  eat k value ts = Ok (tok, ts') ->
  tokens ts' = tokens ts /\ pos ts' = pos ts + 1
  /\ S (remaining ts') = remaining ts.
Proof.
  intros Hk H. apply eat_ok in H. destruct H as (-> & Hkind & Ht & Hp).
  assert (pos ts < List.length (tokens ts))
    by (apply peek_not_eof; congruence).
  unfold remaining; rewrite Ht, Hp; repeat split; lia.
Qed.

Lemma progress_bind {A B : Type} (m : run A)
    (k : A -> TokenStream -> run B) (ts0 : TokenStream) :
  progress m ts0 ->
  (forall a ts, m = Some (Ok (a, ts)) ->
     tokens ts = tokens ts0 -> pos ts0 <= pos ts -> progress (k a ts) ts) ->
  progress (bind m k) ts0.
Proof.
  intros (o & -> & Ho) Hk.
  destruct o as [[a ts]|e|]; simpl.
  - destruct (Ho a ts eq_refl) as [Ht Hp].
    destruct (Hk a ts eq_refl Ht Hp) as (o' & Hr & Ho').
    exists o'; split; [exact Hr|].
    intros b ts' E. destruct (Ho' b ts' E) as [Ht' Hp'].
    split; [congruence|lia].
  - eexists; split; [reflexivity|discriminate].
  - eexists; split; [reflexivity|discriminate].
Qed.

Lemma progress_ret (o : outcome value) (ts ts0 : TokenStream) :
  tokens ts = tokens ts0 -> pos ts0 <= pos ts -> progress (ret o ts) ts0.
Proof.
  intros Ht Hp. eexists; split; [reflexivity|].
  intros a ts' E. destruct o; simpl in E; inversion E; subst; auto.
Qed.

Lemma progress_raise {A : Type} (e : exn) (ts0 : TokenStream) :
  progress (A := A) (Some (Raise e)) ts0.
Proof. eexists; split; [reflexivity|discriminate]. Qed.

Lemma progress_eat (k : kind) (value : option string) (ts : TokenStream) :
  progress (lift (eat k value ts)) ts.
Proof.
  eexists; split; [reflexivity|].
  intros tok ts' E. apply eat_ok in E. destruct E as (_ & _ & Ht & Hp).
  split; [exact Ht|lia].
Qed.

Lemma progress_weaken {A : Type} (r : run A) (ts ts0 : TokenStream) :
  progress r ts -> tokens ts = tokens ts0 -> pos ts0 <= pos ts ->
  progress r ts0.
Proof.
  intros (o & Hr & Ho) Ht Hp. exists o; split; [exact Hr|].
  intros a ts' E. destruct (Ho a ts' E). split; [congruence|lia].
Qed.

Lemma remaining_le (ts ts0 : TokenStream) :
  tokens ts = tokens ts0 -> pos ts0 <= pos ts ->
  remaining ts <= remaining ts0.
Proof. unfold remaining; intros -> ?; lia. Qed.

(** After a successful [eat] of a token that is not EOF. *)
Ltac after_eat H :=
  let Ht := fresh "Ht" in
  let Hp := fresh "Hp" in
  let Hr := fresh "Hr" in
  apply (f_equal (fun o => match o with Some x => x | None => OutOfModel end))
    in H; simpl in H;
  apply eat_remaining in H; [|discriminate];
  destruct H as (Ht & Hp & Hr).

Ltac same_stream :=
  match goal with
  | |- tokens _ = tokens _ => congruence
  | |- _ <= _ => unfold need in *; lia
  | |- _ => idtac
  end.

Lemma enough_fuel (fuel : nat) : enough_at fuel.
Proof.
  induction fuel as [|fuel IH].
  { unfold enough_at, need; repeat split; intros; lia. }
  destruct IH as (Hprim & Hun & Hpow & Hml & Hmul & Hal & Hadd & Hexpr).
  unfold enough_at; repeat split.
  - (* parse_primary *)
    intros ts Hn; simpl. destruct (peek ts); try apply progress_raise.
    + apply progress_bind; [apply progress_eat|].
      intros; apply progress_ret; same_stream.
    + apply progress_bind; [apply progress_eat|].
      intros tok ts1 E _ _; after_eat E.
      apply progress_bind; [apply Hexpr; unfold need in *; lia|].
      intros val ts2 _ Ht2 Hp2.
      apply progress_bind; [apply progress_eat|].
      intros; apply progress_ret; same_stream.
  - (* parse_unary *)
    intros ts Hn; simpl.
    destruct (is_op (peek ts) "+").
    { apply progress_bind; [apply progress_eat|].
      intros tok ts1 E _ _; after_eat E.
      apply progress_bind; [apply Hun; unfold need in *; lia|].
      intros; apply progress_ret; same_stream. }
    destruct (is_op (peek ts) "-").
    { apply progress_bind; [apply progress_eat|].
      intros tok ts1 E _ _; after_eat E.
      apply progress_bind; [apply Hun; unfold need in *; lia|].
      intros; apply progress_ret; same_stream. }
    apply Hprim; unfold need in *; lia.
  - (* parse_pow *)
    intros ts Hn; simpl.
    apply progress_bind; [apply Hun; unfold need in *; lia|].
    intros left ts1 _ Ht1 Hp1.
    pose proof (remaining_le ts1 ts Ht1 Hp1) as Hr1.
    destruct (is_op (peek ts1) "**"); [|apply progress_ret; same_stream].
    apply progress_bind; [apply progress_eat|].
    intros tok ts2 E _ _; after_eat E.
    apply progress_bind; [apply Hpow; unfold need in *; lia|].
    intros; apply progress_ret; same_stream.
  - (* parse_mul_loop *)
    intros v ts Hn; simpl.
    destruct (peek ts) as [| op | | |]; try (apply progress_ret; same_stream).
    destruct (is_mul_op op); [|apply progress_ret; same_stream].
    apply progress_bind; [apply progress_eat|].
    intros tok ts1 E _ _; after_eat E.
    apply progress_bind; [apply Hpow; unfold need in *; lia|].
    intros rhs ts2 _ Ht2 Hp2.
    pose proof (remaining_le ts2 ts1 Ht2 Hp2) as Hr2.
    apply progress_bind; [apply progress_ret; same_stream|].
    intros v' ts3 E3 Ht3 Hp3.
    assert (ts3 = ts2) as ->.
    { unfold ret in E3. destruct (_apply_mul_op op v rhs); simpl in E3;
        inversion E3; reflexivity. }
    apply Hml; unfold need in *; lia.
  - (* parse_mul *)
    intros ts Hn; simpl.
    apply progress_bind; [apply Hpow; unfold need in *; lia|].
    intros v ts1 _ Ht1 Hp1.
    pose proof (remaining_le ts1 ts Ht1 Hp1) as Hr1.
    apply Hml; unfold need in *; lia.
  - (* parse_add_loop *)
    intros v ts Hn; simpl.
    destruct (is_op (peek ts) "+").
    { apply progress_bind; [apply progress_eat|].
      intros tok ts1 E _ _; after_eat E.
      apply progress_bind; [apply Hmul; unfold need in *; lia|].
      intros rhs ts2 _ Ht2 Hp2.
      pose proof (remaining_le ts2 ts1 Ht2 Hp2) as Hr2.
      apply progress_bind; [apply progress_ret; same_stream|].
      intros v' ts3 E3 Ht3 Hp3.
      assert (ts3 = ts2) as ->.
      { unfold ret in E3. destruct (Py.add v rhs); simpl in E3;
          inversion E3; reflexivity. }
      apply Hal; unfold need in *; lia. }
    destruct (is_op (peek ts) "-"); [|apply progress_ret; same_stream].
    apply progress_bind; [apply progress_eat|].
    intros tok ts1 E _ _; after_eat E.
    apply progress_bind; [apply Hmul; unfold need in *; lia|].
    intros rhs ts2 _ Ht2 Hp2.
    pose proof (remaining_le ts2 ts1 Ht2 Hp2) as Hr2.
    apply progress_bind; [apply progress_ret; same_stream|].
    intros v' ts3 E3 Ht3 Hp3.
    assert (ts3 = ts2) as ->.
    { unfold ret in E3. destruct (Py.sub v rhs); simpl in E3;
        inversion E3; reflexivity. }
    apply Hal; unfold need in *; lia.
  - (* parse_add *)
    intros ts Hn; simpl.
    apply progress_bind; [apply Hmul; unfold need in *; lia|].
    intros v ts1 _ Ht1 Hp1.
    pose proof (remaining_le ts1 ts Ht1 Hp1) as Hr1.
    apply Hal; unfold need in *; lia.
  - (* parse_expr *)
    intros ts Hn; simpl. apply Hadd; unfold need in *; lia.
Qed.

Lemma parse_expr_enough_fuel (tokens : list token) :
  progress (parse_expr (budget tokens) {| tokens := tokens; pos := 0 |})
           {| tokens := tokens; pos := 0 |}.
Proof.
  apply enough_fuel. unfold need, remaining, budget; simpl; lia.
Qed.

(** ** More fuel does not change a result *)

Lemma bind_mono {A B : Type} (m m' : run A)
    (k k' : A -> TokenStream -> run B) (o : outcome (B * TokenStream)) :
  (forall x, m = Some x -> m' = Some x) ->
  (forall a ts y, k a ts = Some y -> k' a ts = Some y) ->
  bind m k = Some o -> bind m' k' = Some o.
Proof.
  intros Hm Hk H. destruct m as [x|]; [|discriminate].
  rewrite (Hm x eq_refl).
  destruct x as [[a ts]|e|]; unfold bind in *; auto.
Qed.

(** Close a goal [bind m' k' = Some o] from [bind m k = Some o], rule by
    rule, with the induction hypotheses in the context. *)
Ltac mono_step :=
  match goal with
  | H : bind _ _ = Some ?o |- bind _ _ = Some ?o =>
      refine (bind_mono _ _ _ _ _ _ _ H); clear H;
      [ intros ? ?; auto | intros ? ? ? ?; simpl in * ]
  | H : ?x = Some ?o |- ?x = Some ?o => exact H
  | H : (if ?c then _ else _) = Some ?o |- (if ?c then _ else _) = Some ?o =>
      destruct c
  | H : _ = Some ?o |- _ = Some ?o => solve [auto]
  end.

Lemma fuel_mono (fuel : nat) : mono_at fuel.
Proof.
  induction fuel as [|fuel IH]; intros fuel' Hle.
  { repeat split; intros; discriminate. }
  destruct fuel' as [|fuel']; [lia|].
  destruct (IH fuel' ltac:(lia))
    as (Hprim & Hun & Hpow & Hml & Hmul & Hal & Hadd & Hexpr).
  repeat split.
  - intros ts o H; simpl in *.
    destruct (peek ts); try exact H; repeat mono_step.
  - intros ts o H; simpl in *. repeat mono_step.
  - intros ts o H; simpl in *. repeat mono_step.
  - intros v ts o H; simpl in *.
    destruct (peek ts) as [|op| | |]; try exact H.
    destruct (is_mul_op op); try exact H. repeat mono_step.
  - intros ts o H; simpl in *. repeat mono_step.
  - intros v ts o H; simpl in *. repeat mono_step.
  - intros ts o H; simpl in *. repeat mono_step.
  - intros ts o H; simpl in *. auto.
Qed.

Lemma parse_expr_fuel_mono (fuel fuel' : nat) (ts : TokenStream)
    (o : outcome (value * TokenStream)) :
  fuel <= fuel' -> parse_expr fuel ts = Some o -> parse_expr fuel' ts = Some o.
Proof. intros Hle. apply (fuel_mono fuel fuel' Hle). Qed.

Lemma calculate_tokens_fuel_mono (fuel fuel' : nat) (tokens : list token)
    (o : outcome value) :
  fuel <= fuel' ->
  calculate_tokens fuel tokens = Some o ->
  calculate_tokens fuel' tokens = Some o.
Proof.
  unfold calculate_tokens; intros Hle H.
  destruct (parse_expr fuel _) as [r|] eqn:E; [|discriminate].
  rewrite (parse_expr_fuel_mono _ _ _ _ Hle E). exact H.
Qed.

Lemma calculate_tokens_total (tokens : list token) :
  exists o, calculate_tokens (budget tokens) tokens = Some o.
Proof.
  unfold calculate_tokens.
  destruct (parse_expr_enough_fuel tokens) as (r & -> & _).
  destruct r as [[v ts]|e|]; [|eauto|eauto].
  destruct (negb _); eauto.
Qed.

Lemma calculate_expression_total (expression : string) :
  exists o, calculate_expression expression = Some o.
Proof.
  unfold calculate_expression.
  destruct (tokenize_total expression) as (r & -> & _).
  destruct r as [toks|e|]; [|eauto|eauto].
  apply calculate_tokens_total.
Qed.

Lemma parse_unary_fuel_mono (fuel fuel' : nat) (ts : TokenStream)
    (o : outcome (value * TokenStream)) :
  fuel <= fuel' ->
  parse_unary fuel ts = Some o -> parse_unary fuel' ts = Some o.
Proof. intros Hle. apply (fuel_mono fuel fuel' Hle). Qed.

Lemma parse_pow_fuel_mono (fuel fuel' : nat) (ts : TokenStream)
    (o : outcome (value * TokenStream)) :
  fuel <= fuel' -> parse_pow fuel ts = Some o -> parse_pow fuel' ts = Some o.
Proof. intros Hle. apply (fuel_mono fuel fuel' Hle). Qed.

(** ** Unfolding the rules *)

Lemma bind_ok {A B : Type} (a : A) (ts : TokenStream)
    (k : A -> TokenStream -> run B) :
  bind (Some (Ok (a, ts))) k = k a ts.
Proof. reflexivity. Qed.

Lemma eat_op (s : string) (ts : TokenStream) :
  is_op (peek ts) s = true ->
  eat KOP (Some s) ts = Ok (peek ts, advance ts).
Proof.
  unfold eat, is_op. destruct (peek ts); try discriminate.
  intros H; simpl; rewrite H; reflexivity.
Qed.

(** [parse_pow] on [left ** ...]: a unary operand, the operator, and the
    rule [parse_pow] again for everything to its right. *)
Lemma parse_pow_star (fuel : nat) (ts ts1 : TokenStream) (left : value) :
  parse_unary fuel ts = Some (Ok (left, ts1)) ->
  is_op (peek ts1) "**" = true ->
  parse_pow (S fuel) ts
  = let* (right, ts) := parse_pow fuel (advance ts1) in
    ret (Py.pow left right) ts.
Proof.
  intros Hu Hop. simpl. rewrite Hu, bind_ok, Hop.
  unfold lift. rewrite (eat_op _ _ Hop), bind_ok. reflexivity.
Qed.

Lemma parse_unary_minus (fuel : nat) (ts ts1 : TokenStream) (v : value) :
  is_op (peek ts) "-" = true ->
  parse_unary fuel (advance ts) = Some (Ok (v, ts1)) ->
  parse_unary (S fuel) ts = ret (Py.neg v) ts1.
Proof.
  intros Hop Hu. simpl.
  assert (is_op (peek ts) "+" = false) as ->.
  { unfold is_op in *. destruct (peek ts); try discriminate.
    apply String.eqb_eq in Hop; subst; reflexivity. }
  rewrite Hop. unfold lift. rewrite (eat_op _ _ Hop), bind_ok, Hu, bind_ok.
  reflexivity.
Qed.

Lemma ret_ok (v : value) (ts : TokenStream) :
  ret (Ok v) ts = Some (Ok (v, ts)).
Proof. reflexivity. Qed.

(** ** C1: power is right-associative *)

(** C1. The power operator is right-associative. Whenever a unary operand
    [a] is followed by [**], a unary operand [b], [**] again and a power
    expression [c], [parse_pow] returns [a ** (b ** c)] (and raises what
    [b ** c], then [a ** _], raise): the right operand of [**] is parsed
    by [parse_pow] itself. In particular the tokens [a ** b ** c] of three
    numbers evaluate to [a ** (b ** c)], and ["2 ** 3 ** 2"] to 512, not
    to 64. *)
Theorem pow_right_assoc :
  (forall (fuel : nat) (ts ts1 ts3 ts5 : TokenStream) (a b c : value),
     parse_unary fuel ts = Some (Ok (a, ts1)) ->
     is_op (peek ts1) "**" = true ->
     parse_unary fuel (advance ts1) = Some (Ok (b, ts3)) ->
     is_op (peek ts3) "**" = true ->
     parse_pow fuel (advance ts3) = Some (Ok (c, ts5)) ->
     parse_pow (S (S fuel)) ts
     = ret (obind (Py.pow b c) (fun r => Py.pow a r)) ts5)
  /\ (forall a b c : value,
        let toks := [NUM a; OP "**"; NUM b; OP "**"; NUM c; EOF] in
        calculate_tokens (budget toks) toks
        = Some (obind (Py.pow b c) (fun r => Py.pow a r)))
  /\ calculate_expression "2 ** 3 ** 2" = Some (Ok (VInt 512))
  /\ calculate_expression "2 ** 3 ** 2" <> Some (Ok (VInt 64)).
Proof.
  split; [|split; [|split]].
  - intros fuel ts ts1 ts3 ts5 a b c Ha Hop1 Hb Hop3 Hc.
    apply (parse_unary_fuel_mono fuel (S fuel)) in Ha; [|lia].
    rewrite (parse_pow_star _ _ _ _ Ha Hop1).
    rewrite (parse_pow_star _ _ _ _ Hb Hop3), Hc, bind_ok.
    unfold ret, bind. destruct (Py.pow b c) as [r| |]; reflexivity.
  - intros a b c toks. subst toks.
    apply (calculate_tokens_fuel_mono 8); [unfold budget; simpl; lia|].
    unfold calculate_tokens.
    cbn -[Py.pow]. unfold bind, lift, ret; cbn -[Py.pow].
    destruct (Py.pow b c) as [r| |]; cbn -[Py.pow]; [|reflexivity..].
    destruct (Py.pow a r); reflexivity.
  - vm_compute; reflexivity.
  - vm_compute; discriminate.
Qed.

Lemma pow_right_assoc_witness :
  parse_unary 3 (stream_at toks_pow_chain 0)
  = Some (Ok (VInt 2, stream_at toks_pow_chain 1))
  /\ is_op (peek (stream_at toks_pow_chain 1)) "**" = true
  /\ parse_unary 3 (advance (stream_at toks_pow_chain 1))
     = Some (Ok (VInt 3, stream_at toks_pow_chain 3))
  /\ is_op (peek (stream_at toks_pow_chain 3)) "**" = true
  /\ parse_pow 3 (advance (stream_at toks_pow_chain 3))
     = Some (Ok (VInt 2, stream_at toks_pow_chain 5))
  /\ parse_pow 5 (stream_at toks_pow_chain 0)
     = Some (Ok (VInt 512, stream_at toks_pow_chain 5)).
Proof.
  repeat (split; [reflexivity|]).
  exact (proj1 pow_right_assoc 3
           (stream_at toks_pow_chain 0) (stream_at toks_pow_chain 1)
           (stream_at toks_pow_chain 3) (stream_at toks_pow_chain 5)
           (VInt 2) (VInt 3) (VInt 2)
           eq_refl eq_refl eq_refl eq_refl eq_refl).
Defined.

(** ** C2: division by zero is checked first *)

Lemma eq_zero_spec (b : value) :
  eq_zero b = true <-> b = VInt 0 \/ exists s, b = VFloat (S754_zero s).
Proof.
  split.
  - destruct b as [z|f]; simpl; intros H.
    + apply Z.eqb_eq in H; subst; auto.
    + right. destruct f as [s|s| |s m e]; try (destruct s; discriminate).
      * eauto.
      * discriminate.
  - intros [->|[s ->]]; [reflexivity|destruct s; reflexivity].
Qed.

Lemma eat_op_token (op : string) (ts : TokenStream) :
  peek ts = OP op -> eat KOP (Some op) ts = Ok (OP op, advance ts).
Proof.
  intros H. rewrite <- H. apply eat_op.
  rewrite H; simpl; apply String.eqb_refl.
Qed.

(** C2. A zero right operand ([0], [0.0] or [-0.0]) of [/], [//] or [%]
    makes [_apply_mul_op] raise EvalError "division by zero", whatever the
    kinds of the operands, so before any integer-only check; the
    multiplicative loop of [parse_mul] therefore raises it for every such
    application, and so do ["5 / 0"], ["5 // 0"], ["5 % 0"] and [//], [%]
    with float operands. *)
Theorem division_by_zero_first :
  (forall b, eq_zero b = true
             <-> b = VInt 0 \/ exists s, b = VFloat (S754_zero s))
  /\ (forall (op : string) (a b : value),
        op = "/"%string \/ op = "//"%string \/ op = "%"%string ->
        eq_zero b = true ->
        _apply_mul_op op a b = Raise (EvalError DivisionByZero))
  /\ (forall (fuel : nat) (v rhs : value) (ts ts2 : TokenStream) (op : string),
        peek ts = OP op ->
        op = "/"%string \/ op = "//"%string \/ op = "%"%string ->
        parse_pow fuel (advance ts) = Some (Ok (rhs, ts2)) ->
        eq_zero rhs = true ->
        parse_mul_loop (S fuel) v ts = Some (Raise (EvalError DivisionByZero)))
  /\ calculate_expression "5 / 0" = Some (Raise (EvalError DivisionByZero))
  /\ calculate_expression "5 // 0" = Some (Raise (EvalError DivisionByZero))
  /\ calculate_expression "5 % 0" = Some (Raise (EvalError DivisionByZero))
  /\ calculate_expression "5.0 % 0" = Some (Raise (EvalError DivisionByZero))
  /\ calculate_expression "5 % 0.0" = Some (Raise (EvalError DivisionByZero))
  /\ calculate_expression "5.5 // 0" = Some (Raise (EvalError DivisionByZero))
  /\ calculate_expression "5 // 0.0" = Some (Raise (EvalError DivisionByZero))
  /\ calculate_expression "5.0 / 0.0" = Some (Raise (EvalError DivisionByZero)).
Proof.
  assert (Hop : forall (op : string) (a b : value),
            op = "/"%string \/ op = "//"%string \/ op = "%"%string ->
            eq_zero b = true ->
            _apply_mul_op op a b = Raise (EvalError DivisionByZero)).
  { intros op a b Hop Hz. unfold _apply_mul_op.
    destruct Hop as [-> | [-> | ->]]; rewrite Hz; reflexivity. }
  split; [exact eq_zero_spec|]. split; [exact Hop|]. split.
  - intros fuel v rhs ts ts2 op Hpeek Hops Hp Hz. simpl. rewrite Hpeek.
    assert (is_mul_op op = true) as ->
      by (destruct Hops as [-> | [-> | ->]]; reflexivity).
    unfold lift. rewrite (eat_op_token _ _ Hpeek), bind_ok, Hp, bind_ok.
    unfold ret. rewrite (Hop op v rhs Hops Hz). reflexivity.
  - repeat split; vm_compute; reflexivity.
Qed.

Lemma division_by_zero_first_witness :
  eq_zero (VFloat (S754_zero true)) = true
  /\ _apply_mul_op "%" (VFloat fone) (VFloat (S754_zero true))
     = Raise (EvalError DivisionByZero)
  /\ peek (stream_at toks_mod_zero 1) = OP "%"
  /\ parse_pow 4 (advance (stream_at toks_mod_zero 1))
     = Some (Ok (VFloat (S754_zero true), stream_at toks_mod_zero 4))
  /\ parse_mul_loop 5 (VInt 5) (stream_at toks_mod_zero 1)
     = Some (Raise (EvalError DivisionByZero)).
Proof.
  split; [reflexivity|]. split; [|split; [reflexivity|split; [reflexivity|]]].
  - apply (proj1 (proj2 division_by_zero_first)); [auto|reflexivity].
  - apply (proj1 (proj2 (proj2 division_by_zero_first))
             4 (VInt 5) (VFloat (S754_zero true))
             (stream_at toks_mod_zero 1) (stream_at toks_mod_zero 4)
             "%"%string);
      [reflexivity|auto|reflexivity|reflexivity].
Defined.

(** ** C3: [//] and [%] are for integers only *)

(** C3. With a non-zero right operand, [//] and [%] raise EvalError
    ("only defined for integers") as soon as one operand is a float; on two
    ints they return the floor quotient [q] and the remainder [r] with
    [x = y * q + r] and [r] of the sign of the divisor ([0 <= r < y] or
    [y < r <= 0]). ["7 // 2"] is 3, ["7 % 2"] is 1, ["7.0 // 2"] raises
    EvalError. *)
Theorem floordiv_mod_integers_only :
  (forall (op : string) (a b : value),
     op = "//"%string \/ op = "%"%string ->
     eq_zero b = false ->
     is_float a || is_float b = true ->
     _apply_mul_op op a b = Raise (EvalError IntegersOnly))
  /\ (forall x y : Z,
        y <> 0%Z ->
        _apply_mul_op "//" (VInt x) (VInt y) = Ok (VInt (x / y))
        /\ _apply_mul_op "%" (VInt x) (VInt y) = Ok (VInt (x mod y))
        /\ (x = y * (x / y) + x mod y)%Z
        /\ ((0 < y -> 0 <= x mod y < y) /\ (y < 0 -> y < x mod y <= 0))%Z)
  /\ calculate_expression "7 // 2" = Some (Ok (VInt 3))
  /\ calculate_expression "7 % 2" = Some (Ok (VInt 1))
  /\ calculate_expression "7.0 // 2" = Some (Raise (EvalError IntegersOnly))
  /\ calculate_expression "7 % 2.5" = Some (Raise (EvalError IntegersOnly))
  /\ calculate_expression "-7 // 2" = Some (Ok (VInt (-4)))
  /\ calculate_expression "7 % -2" = Some (Ok (VInt (-1))).
Proof.
  split; [|split].
  - intros op a b Hop Hz Hf. unfold _apply_mul_op.
    destruct Hop as [-> | ->]; rewrite Hz; simpl;
      destruct a, b; simpl in Hf; try discriminate; reflexivity.
  - intros x y Hy.
    assert (Hz : (y =? 0)%Z = false) by (apply Z.eqb_neq; exact Hy).
    unfold _apply_mul_op, floordiv, modulo; simpl; rewrite Hz; simpl.
    repeat split; try reflexivity.
    + apply Z.div_mod; exact Hy.
    + apply Z.mod_pos_bound; assumption.
    + apply Z.mod_pos_bound; assumption.
    + apply Z.mod_neg_bound; assumption.
    + apply Z.mod_neg_bound; assumption.
  - repeat split; vm_compute; reflexivity.
Qed.

Lemma floordiv_mod_integers_only_witness :
  _apply_mul_op "//" (VFloat fone) (VInt 2) = Raise (EvalError IntegersOnly)
  /\ _apply_mul_op "//" (VInt (-7)) (VInt 2) = Ok (VInt (-4))
  /\ _apply_mul_op "%" (VInt 7) (VInt (-2)) = Ok (VInt (-1)).
Proof.
  split; [|split].
  - apply (proj1 floordiv_mod_integers_only); [auto|reflexivity|reflexivity].
  - apply (proj1 (proj2 floordiv_mod_integers_only) (-7) 2)%Z. lia.
  - apply (proj1 (proj2 floordiv_mod_integers_only) 7 (-2))%Z. lia.
Defined.

(** ** C4: the kind of the result of [+], [-], [*] and [**] *)


Lemma to_float_cases (v : value) :
  (exists f, to_float v = Ok f) \/ to_float v = Raise OverflowError.
Proof.
  destruct v as [z|f]; simpl; [|eauto].
  unfold int_to_float. destruct (is_inf _); eauto.
Qed.

Lemma arith_float_kind (iop : Z -> Z -> Z) (fop : float -> float -> float)
    (a b : value) :
  is_float a || is_float b = true ->
  (exists f, arith iop fop a b = Ok (VFloat f))
  \/ arith iop fop a b = Raise OverflowError.
Proof.
  intros H.
  assert (E : arith iop fop a b
              = obind (to_float a) (fun x =>
                obind (to_float b) (fun y => Ok (VFloat (fop x y)))))
    by (destruct a, b; simpl in H; try discriminate; reflexivity).
  rewrite E.
  destruct (to_float_cases a) as [[x ->]| ->]; simpl; [|auto].
  destruct (to_float_cases b) as [[y ->]| ->]; simpl; eauto.
Qed.










(** ** C5: unary minus and power *)

(** C5 (as the code has it). The left operand of [**] is parsed by
    [parse_unary], so a unary minus in front of a power expression applies
    to the base only: [- a ** b] is [(-a) ** b], and ["-2 ** 2"] is 4. *)
Theorem unary_minus_applies_to_base :
  (forall (fuel : nat) (ts ts1 ts2 : TokenStream) (a b : value),
     is_op (peek ts) "-" = true ->
     parse_unary fuel (advance ts) = Some (Ok (a, ts1)) ->
     is_op (peek ts1) "**" = true ->
     parse_pow (S fuel) (advance ts1) = Some (Ok (b, ts2)) ->
     parse_pow (S (S fuel)) ts
     = ret (obind (Py.neg a) (fun na => Py.pow na b)) ts2)
  /\ (forall a b : value,
        let toks := [OP "-"; NUM a; OP "**"; NUM b; EOF] in
        calculate_tokens (budget toks) toks
        = Some (obind (Py.neg a) (fun na => Py.pow na b)))
  /\ calculate_expression "-2 ** 2" = Some (Ok (VInt 4))
  /\ calculate_expression "-(2 ** 2)" = Some (Ok (VInt (-4)))
  /\ calculate_expression "2 ** -2 ** 0" = Some (Ok (VInt 2)).
Proof.
  split; [|split].
  - intros fuel ts ts1 ts2 a b Hm Ha Hop Hb.
    pose proof (parse_unary_minus fuel ts ts1 a Hm Ha) as Hu.
    destruct (Py.neg a) as [na| |] eqn:En; try (destruct a; discriminate).
    rewrite ret_ok in Hu.
    rewrite (parse_pow_star _ _ _ _ Hu Hop), Hb, bind_ok. reflexivity.
  - intros a b toks. subst toks.
    apply (calculate_tokens_fuel_mono 8); [unfold budget; simpl; lia|].
    unfold calculate_tokens.
    cbn -[Py.pow Py.neg]. unfold bind, lift, ret; cbn -[Py.pow Py.neg].
    destruct (Py.neg a) as [na| |]; cbn -[Py.pow]; [|reflexivity..].
    destruct (Py.pow na b); reflexivity.
  - repeat split; vm_compute; reflexivity.
Qed.

Lemma unary_minus_applies_to_base_witness :
  is_op (peek (stream_at toks_minus_pow 0)) "-" = true
  /\ parse_unary 2 (advance (stream_at toks_minus_pow 0))
     = Some (Ok (VInt 2, stream_at toks_minus_pow 2))
  /\ is_op (peek (stream_at toks_minus_pow 2)) "**" = true
  /\ parse_pow 3 (advance (stream_at toks_minus_pow 2))
     = Some (Ok (VInt 2, stream_at toks_minus_pow 4))
  /\ parse_pow 4 (stream_at toks_minus_pow 0)
     = Some (Ok (VInt 4, stream_at toks_minus_pow 4)).
Proof.
  repeat (split; [reflexivity|]).
  exact (proj1 unary_minus_applies_to_base 2
           (stream_at toks_minus_pow 0) (stream_at toks_minus_pow 2)
           (stream_at toks_minus_pow 4) (VInt 2) (VInt 2)
           eq_refl eq_refl eq_refl eq_refl).
Defined.

(** C5 as stated fails: ["-2 ** 2"] evaluates to 4, not to -4. *)
Lemma minus_two_squared_is_four :
  calculate_expression "-2 ** 2" = Some (Ok (VInt 4))
  /\ calculate_expression "-2 ** 2" <> Some (Ok (VInt (-4))).
Proof. split; [vm_compute; reflexivity|vm_compute; discriminate]. Qed.

(** ** C6: the exceptions that reach the caller *)

(** C6. ["0 ** -1"] makes [calculate_expression] raise the built-in
    ZeroDivisionError, which is neither ParseError nor EvalError:
    [parse_pow] applies [**] without the zero check that [_apply_mul_op]
    makes for [/], [//] and [%]. *)
Theorem zero_to_negative_power_escapes :
  calculate_expression "0 ** -1" = Some (Raise ZeroDivisionError)
  /\ (forall r, ZeroDivisionError <> ParseError r)
  /\ (forall r, ZeroDivisionError <> EvalError r)
  /\ _apply_mul_op "/" (VInt 1) (VInt 0) = Raise (EvalError DivisionByZero).
Proof.
  split; [vm_compute; reflexivity|].
  repeat split; intros; discriminate.
Qed.

(** ** C7: true division *)

Lemma apply_truediv (a b : value) :
  eq_zero b = false -> _apply_mul_op "/" a b = Py.truediv a b.
Proof. intros Hz. unfold _apply_mul_op. rewrite Hz. reflexivity. Qed.

(** C7 (as the code has it). With a non-zero right operand, [/] returns
    a float, the correctly rounded quotient, in every case but these, where
    it raises OverflowError: on two ints, exactly when the integer quotient
    of their absolute values is [double_overflow] or more; with a float
    operand, exactly when the int operand is [double_overflow] or more in
    absolute value. On two floats it always returns their float
    quotient. *)
Theorem truediv_float_or_overflow :
  (forall x y : Z,
     y <> 0%Z ->
     _apply_mul_op "/" (VInt x) (VInt y)
     = if (double_overflow <=? Z.abs x / Z.abs y)%Z
       then Raise OverflowError
       else Ok (VFloat (fdiv (Z2SF x) (Z2SF y))))
  /\ (forall a b : value,
        eq_zero b = false ->
        is_float a || is_float b = true ->
        too_large a || too_large b = false ->
        exists x y : float,
          to_float a = Ok x /\ to_float b = Ok y
          /\ _apply_mul_op "/" a b = Ok (VFloat (fdiv x y)))
  /\ (forall a b : value,
        eq_zero b = false ->
        is_float a || is_float b = true ->
        too_large a || too_large b = true ->
        _apply_mul_op "/" a b = Raise OverflowError)
  /\ (forall x y : float,
        eq_zero (VFloat y) = false ->
        _apply_mul_op "/" (VFloat x) (VFloat y) = Ok (VFloat (fdiv x y)))
  /\ calculate_expression "7 / 2"
     = Some (Ok (VFloat (S754_finite false 7881299347898368 (-51))))
  /\ calculate_expression "6 / 3"
     = Some (Ok (VFloat (S754_finite false 4503599627370496 (-51))))
  /\ calculate_expression "1 / 2.0"
     = Some (Ok (VFloat (S754_finite false 4503599627370496 (-53)))).
Proof.
  split; [|split; [|split; [|split]]].
  - intros x y Hy.
    rewrite apply_truediv by (apply Z.eqb_neq; exact Hy).
    unfold truediv.
    replace (y =? 0)%Z with false by (symmetry; apply Z.eqb_neq; exact Hy).
    cbv zeta. rewrite (fdiv_overflow x y Hy). reflexivity.
  - intros a b Hz Hf Ht. rewrite (apply_truediv a b Hz).
    apply orb_false_iff in Ht. destruct Ht as [Ha Hb].
    destruct a as [x|x], b as [y|y]; try discriminate;
      cbn [too_large] in Ha, Hb; unfold truediv; cbn [to_float obind].
    + rewrite int_to_float_overflow, Ha. cbn [obind].
      simpl in Hz. rewrite Hz. eauto.
    + pose proof (int_to_float_overflow y) as Ey. rewrite Hb in Ey.
      rewrite Ey. cbn [obind].
      rewrite (int_to_float_nonzero y _ (proj1 (Z.eqb_neq y 0) Hz) Ey). eauto.
    + simpl in Hz. rewrite Hz. eauto.
  - intros a b Hz Hf Ht. rewrite (apply_truediv a b Hz).
    destruct a as [x|x], b as [y|y]; try discriminate;
      cbn [too_large orb] in Ht; unfold truediv; cbn [to_float obind].
    + rewrite orb_false_r in Ht. rewrite int_to_float_overflow, Ht.
      reflexivity.
    + rewrite int_to_float_overflow, Ht. reflexivity.
  - intros x y Hz. rewrite (apply_truediv _ _ Hz). simpl in *.
    rewrite Hz. reflexivity.
  - repeat split; vm_compute; reflexivity.
Qed.

Lemma truediv_float_or_overflow_witness :
  _apply_mul_op "/" (VInt 7) (VInt 2)
  = Ok (VFloat (fdiv (Z2SF 7) (Z2SF 2)))
  /\ (exists x y : float,
        to_float (VInt 1) = Ok x /\ to_float (VFloat fone) = Ok y
        /\ _apply_mul_op "/" (VInt 1) (VFloat fone) = Ok (VFloat (fdiv x y)))
  /\ _apply_mul_op "/" (VFloat fone) (VInt (10 ^ 400)) = Raise OverflowError
  /\ _apply_mul_op "/" (VFloat fone) (VFloat fone)
     = Ok (VFloat (fdiv fone fone)).
Proof.
  split; [|split; [|split]].
  - exact (proj1 truediv_float_or_overflow 7 2 ltac:(discriminate))%Z.
  - apply (proj1 (proj2 truediv_float_or_overflow) (VInt 1) (VFloat fone));
      reflexivity.
  - apply (proj1 (proj2 (proj2 truediv_float_or_overflow))
             (VFloat fone) (VInt (10 ^ 400))); vm_compute; reflexivity.
  - apply (proj1 (proj2 (proj2 (proj2 truediv_float_or_overflow)))).
    reflexivity.
Defined.

(** C7 as stated fails: with the int [10 ** 400] as left operand and 1 as
    right operand, [/] raises OverflowError and produces no float. *)
Lemma truediv_huge_int_overflows :
  _apply_mul_op "/" (VInt (10 ^ 400)) (VInt 1) = Raise OverflowError
  /\ calculate_expression
       "10000000000000000000000000000000000000000000000000000000000000000000000000000000000000000000000000000000000000000000000000000000000000000000000000000000000000000000000000000000000000000000000000000000000000000000000000000000000000000000000000000000000000000000000000000000000000000000000000000000000000000000000000000000000000000000000000000000000000000000000000000000000000000000000000000000000000000 / 1"
     = Some (Raise OverflowError).
Proof. split; vm_compute; reflexivity. Qed.

(** ** C8: syntax errors *)

(** C8. ["2 3"] (tokens left over), ["2 +"] (operand missing), ["(2+3"]
    (parenthesis not closed), [".5"] (a number cannot start with a point;
    this holds for every input that starts with a point) and ["12."] (a
    digit must follow the point) all raise ParseError. *)
Theorem syntax_errors :
  calculate_expression "2 3" = Some (Raise (ParseError Trailing))
  /\ calculate_expression "2 +"
     = Some (Raise (ParseError ExpectedNumberOrParen))
  /\ calculate_expression "(2+3" = Some (Raise (ParseError ExpectedKind))
  /\ calculate_expression ".5" = Some (Raise (ParseError (BadChar "." 0)))
  /\ calculate_expression "12." = Some (Raise (ParseError (DigitAfterPoint 2)))
  /\ (forall rest : string,
        calculate_expression (String "." rest)
        = Some (Raise (ParseError (BadChar "." 0)))).
Proof.
  repeat split; try (vm_compute; reflexivity).
Qed.

(** ** C9: determinism *)

Lemma nth_store (self : nat) (ts : TokenStream) (h : heap) :
  self < List.length h -> nth_error (store self ts h) self = Some ts.
Proof.
  revert self. induction h as [|x h IH]; intros [|n] H; simpl in *;
    try lia; [reflexivity|].
  apply IH. lia.
Qed.

Lemma store_store (self : nat) (a b : TokenStream) (h : heap) :
  store self b (store self a h) = store self b h.
Proof.
  revert self. induction h as [|x h IH]; intros [|n]; simpl; auto.
  rewrite IH. reflexivity.
Qed.

Lemma store_last (ts ts' : TokenStream) (h : heap) :
  store (List.length h) ts' (h ++ [ts]) = h ++ [ts'].
Proof. induction h as [|x h IH]; simpl; [|rewrite IH]; reflexivity. Qed.

Lemma peek_here {A : Type} (self : nat) (h : heap) (ts : TokenStream)
    (k : token -> hrun A) :
  self < List.length h ->
  hbind (ts_peek self) k (store self ts h) = k (peek ts) (store self ts h).
Proof.
  intros H. unfold hbind, ts_peek. rewrite (nth_store _ _ _ H). reflexivity.
Qed.

Lemma same_bind {A B : Type} (self : nat) (h : heap) (ts : TokenStream)
    (r : run A) (m : hrun A) (k : A -> TokenStream -> run B)
    (k' : A -> hrun B) :
  same_run self h r (m (store self ts h)) ->
  (forall a ts1, same_run self h (k a ts1) (k' a (store self ts1 h))) ->
  same_run self h (bind r k) (hbind m k' (store self ts h)).
Proof.
  intros Hm Hk. unfold bind, hbind.
  destruct r as [[[a ts1]|e|]|]; simpl in Hm.
  - rewrite Hm. apply Hk.
  - destruct Hm as [ts' ->]. exists ts'. reflexivity.
  - destruct Hm as [ts' ->]. exists ts'. reflexivity.
  - rewrite Hm. reflexivity.
Qed.

Lemma same_eat (self : nat) (h : heap) (ts : TokenStream) (k : kind)
    (value : option string) :
  self < List.length h ->
  same_run self h (lift (eat k value ts))
    (ts_eat k value self (store self ts h)).
Proof.
  intros H. unfold lift, ts_eat. rewrite (nth_store _ _ _ H).
  destruct (eat k value ts) as [[tok ts']|e|]; simpl.
  - rewrite store_store. reflexivity.
  - exists ts. reflexivity.
  - exists ts. reflexivity.
Qed.

Lemma same_ret (self : nat) (h : heap) (ts : TokenStream) (o : outcome value) :
  same_run self h (ret o ts) (hret o (store self ts h)).
Proof.
  unfold ret, hret. destruct o as [v|e|]; simpl;
    [reflexivity|exists ts; reflexivity|exists ts; reflexivity].
Qed.

Lemma same_raise {A : Type} (self : nat) (h : heap) (ts : TokenStream)
    (e : exn) :
  same_run (A := A) self h (Some (Raise e)) (hret (Raise e) (store self ts h)).
Proof. exists ts. reflexivity. Qed.

Ltac same_step H :=
  first
    [ apply same_ret
    | apply same_raise
    | apply same_bind; [apply same_eat; exact H | intros ? ?]
    | rewrite (peek_here _ _ _ _ H) ].

(** The rules on the heap do what the rules on the stream do, to the
    object at [self] and to no other. *)
Lemma rules_on_heap (fuel : nat) : same_rules fuel.
Proof.
  induction fuel as [|fuel IH]; intros self h ts H.
  { repeat split; reflexivity. }
  assert (IHp : forall t, same_run self h (parse_primary fuel t)
                  (parse_primary_h fuel self (store self t h)))
    by (intros t; apply (IH self h t H)).
  assert (IHu : forall t, same_run self h (parse_unary fuel t)
                  (parse_unary_h fuel self (store self t h)))
    by (intros t; apply (IH self h t H)).
  assert (IHw : forall t, same_run self h (parse_pow fuel t)
                  (parse_pow_h fuel self (store self t h)))
    by (intros t; apply (IH self h t H)).
  assert (IHml : forall v t, same_run self h (parse_mul_loop fuel v t)
                   (parse_mul_loop_h fuel v self (store self t h)))
    by (intros v t; apply (IH self h t H)).
  assert (IHm : forall t, same_run self h (parse_mul fuel t)
                  (parse_mul_h fuel self (store self t h)))
    by (intros t; apply (IH self h t H)).
  assert (IHal : forall v t, same_run self h (parse_add_loop fuel v t)
                   (parse_add_loop_h fuel v self (store self t h)))
    by (intros v t; apply (IH self h t H)).
  assert (IHa : forall t, same_run self h (parse_add fuel t)
                  (parse_add_h fuel self (store self t h)))
    by (intros t; apply (IH self h t H)).
  assert (IHe : forall t, same_run self h (parse_expr fuel t)
                  (parse_expr_h fuel self (store self t h)))
    by (intros t; apply (IH self h t H)).
  clear IH.
  refine (conj _ (conj _ (conj _ (conj _ (conj _ (conj _ (conj _ _))))))).
  - (* parse_primary *)
    cbn [parse_primary parse_primary_h]. rewrite (peek_here _ _ _ _ H).
    destruct (peek ts); try apply same_raise.
    + same_step H. apply same_ret.
    + same_step H. apply same_bind; [apply IHe|intros val ts2].
      same_step H. apply same_ret.
  - (* parse_unary *)
    cbn [parse_unary parse_unary_h]. rewrite (peek_here _ _ _ _ H).
    destruct (is_op (peek ts) "+"); [|destruct (is_op (peek ts) "-")].
    + same_step H. apply same_bind; [apply IHu|intros v ts2]. apply same_ret.
    + same_step H. apply same_bind; [apply IHu|intros v ts2]. apply same_ret.
    + apply IHp.
  - (* parse_pow *)
    cbn [parse_pow parse_pow_h].
    apply same_bind; [apply IHu|intros left ts1].
    rewrite (peek_here _ _ _ _ H). cbv zeta.
    destruct (is_op (peek ts1) "**"); [|apply same_ret].
    same_step H. apply same_bind; [apply IHw|intros right ts3]. apply same_ret.
  - (* parse_mul_loop *)
    intros v. cbn [parse_mul_loop parse_mul_loop_h].
    rewrite (peek_here _ _ _ _ H). cbv zeta.
    destruct (peek ts) as [|op| | |]; try apply same_ret.
    destruct (is_mul_op op); [|apply same_ret].
    same_step H. apply same_bind; [apply IHw|intros rhs ts2].
    apply same_bind; [apply same_ret|intros v' ts3]. apply IHml.
  - (* parse_mul *)
    cbn [parse_mul parse_mul_h].
    apply same_bind; [apply IHw|intros v ts1]. apply IHml.
  - (* parse_add_loop *)
    intros v. cbn [parse_add_loop parse_add_loop_h].
    rewrite (peek_here _ _ _ _ H). cbv zeta.
    destruct (is_op (peek ts) "+"); [|destruct (is_op (peek ts) "-")].
    + same_step H. apply same_bind; [apply IHm|intros rhs ts2].
      apply same_bind; [apply same_ret|intros v' ts3]. apply IHal.
    + same_step H. apply same_bind; [apply IHm|intros rhs ts2].
      apply same_bind; [apply same_ret|intros v' ts3]. apply IHal.
    + apply same_ret.
  - (* parse_add *)
    cbn [parse_add parse_add_h].
    apply same_bind; [apply IHm|intros v ts1]. apply IHal.
  - (* parse_expr *)
    cbn [parse_expr parse_expr_h]. apply IHa.
Qed.

(** One call on a heap: the outcome is the one that the string alone
    determines, and the heap after the call is the heap before it, followed
    by what the call has created. *)
Lemma call_on_heap (expression : string) (h : heap) :
  exists (o : outcome value) (garbage : heap),
    calculate_expression expression = Some o
    /\ calculate_expression_h expression h = Some (o, h ++ garbage).
Proof.
  unfold calculate_expression, calculate_expression_h.
  destruct (tokenize_total expression) as (r & Hr & _). rewrite Hr.
  destruct r as [toks|e|].
  - set (ts0 := {| tokens := toks; pos := 0 |}).
    assert (Hself : List.length h < List.length (h ++ [ts0]))
      by (rewrite length_app; simpl; lia).
    destruct (rules_on_heap (budget toks) (List.length h) (h ++ [ts0]) ts0
                Hself) as (_ & _ & _ & _ & _ & _ & _ & He).
    rewrite store_last in He.
    destruct (parse_expr_enough_fuel toks) as (r & Hp & _).
    unfold calculate_tokens. fold ts0. fold ts0 in Hp. rewrite Hp in *.
    unfold hbind, new_stream. fold ts0.
    destruct r as [[v ts']|e|]; simpl in He.
    + rewrite He, store_last. unfold ts_peek.
      rewrite nth_error_app2, Nat.sub_diag by lia. cbn [nth_error].
      destruct (negb (kind_eqb (tok_kind (peek ts')) KEOF));
        eexists; exists [ts']; split; reflexivity.
    + destruct He as [ts' ->]. rewrite store_last.
      eexists; exists [ts']; split; reflexivity.
    + destruct He as [ts' ->]. rewrite store_last.
      eexists; exists [ts']; split; reflexivity.
  - exists (Raise e), []. rewrite app_nil_r. split; reflexivity.
  - exists OutOfModel, []. rewrite app_nil_r. split; reflexivity.
Qed.

(** C9. No state persists between calls. On any heap of objects,
    whatever earlier calls have left there, [calculate_expression] has the
    outcome that the string alone determines; it changes no object that was
    there before the call and only adds its own stream, which nothing
    refers to afterwards. So two invocations on the same string, one after
    the other, have identical outcomes: the same value of the same kind, or
    the same exception. *)
Theorem calculate_expression_deterministic :
  forall (expression : string) (h : heap),
    exists (o : outcome value) (garbage1 garbage2 : heap),
      calculate_expression expression = Some o
      /\ calculate_expression_h expression h = Some (o, h ++ garbage1)
      /\ calculate_expression_h expression (h ++ garbage1)
         = Some (o, (h ++ garbage1) ++ garbage2).
Proof.
  intros expression h.
  destruct (call_on_heap expression h) as (o & g1 & Ho & H1).
  destruct (call_on_heap expression (h ++ g1)) as (o' & g2 & Ho' & H2).
  assert (o' = o) by congruence. subst o'.
  exists o, g1, g2. auto.
Qed.

(** ** C10: the tokenizer terminates *)

(** C10. An iteration of the scan loop entered with [i < n] either raises
    ParseError or moves the index strictly forward, and not beyond [n]; so
    [n - i] iterations always finish the scan from index [i], and
    [tokenize], which allows itself [n] iterations, is total: it returns a
    token list or raises ParseError. *)
Theorem tokenize_terminates :
  (forall (expression : string) (tokens : list token) (i : nat),
     i < String.length expression ->
     match tokenize_step expression tokens i with
     | Ok (_, i') => i < i' <= String.length expression
     | Raise e => exists r, e = ParseError r
     | OutOfModel => False
     end)
  /\ (forall (expression : string) (fuel : nat) (tokens : list token) (i : nat),
        String.length expression - i <= fuel ->
        exists o, tokenize_loop fuel expression tokens i = Some o
                  /\ ((exists toks, o = Ok toks)
                      \/ exists r, o = Raise (ParseError r)))
  /\ (forall expression : string,
        exists o, tokenize expression = Some o
                  /\ ((exists toks, o = Ok toks)
                      \/ exists r, o = Raise (ParseError r))).
Proof.
  split; [exact tokenize_step_advances|]. split.
  - intros expression fuel tokens i H.
    exact (tokenize_loop_enough fuel expression tokens i H).
  - exact tokenize_total.
Qed.

Lemma tokenize_terminates_witness :
  0 < String.length "12.5+x"
  /\ tokenize_step "12.5+x" [] 0
     = Ok ([NUM (VFloat (S754_finite false 7036874417766400 (-49)))], 4)
  /\ 0 < 4 <= String.length "12.5+x"
  /\ tokenize "12.5+x" = Some (Raise (ParseError (BadChar "x" 5))).
Proof.
  split; [simpl; lia|]. split; [reflexivity|]. split.
  - exact (proj1 tokenize_terminates "12.5+x"%string [] 0
             (Nat.lt_0_succ _)).
  - reflexivity.
Defined.

(** ** The examples of the specification *)

Example precedence : calculate_expression "2 + 3 * 4" = Some (Ok (VInt 14)).
Proof. vm_compute; reflexivity. Qed.

Example grouping : calculate_expression "(2 + 3) * 4" = Some (Ok (VInt 20)).
Proof. vm_compute; reflexivity. Qed.

Example nested_signs :
  calculate_expression "--5" = Some (Ok (VInt 5))
  /\ calculate_expression "-+-5" = Some (Ok (VInt 5)).
Proof. split; vm_compute; reflexivity. Qed.

Example left_assoc_sub :
  calculate_expression "10 - 2 - 3" = Some (Ok (VInt 5)).
Proof. vm_compute; reflexivity. Qed.

Example trailing_paren :
  calculate_expression "2+3)" = Some (Raise (ParseError Trailing)).
Proof. vm_compute; reflexivity. Qed.

(** * Further properties of the evaluator and of the tokenizer *)

(** ** The rules without fuel *)

Section Canon.

Variable m : nat -> TokenStream -> run value.
Hypothesis m_mono :
  forall fuel fuel' ts o, fuel <= fuel' -> m fuel ts = Some o ->
                          m fuel' ts = Some o.
Hypothesis m_enough :
  forall fuel ts, fuel_for ts <= fuel -> progress (m fuel ts) ts.

Lemma canon_at (fuel : nat) (ts : TokenStream) :
  fuel_for ts <= fuel -> m fuel ts = Some (canon m ts).
Proof.
  intros Hf. unfold canon.
  destruct (m_enough (fuel_for ts) ts (Nat.le_refl _)) as (o & Ho & _).
  rewrite Ho. simpl. apply (m_mono _ _ _ _ Hf Ho).
Qed.

Lemma canon_unique (fuel : nat) (ts : TokenStream)
    (o : outcome (value * TokenStream)) :
  m fuel ts = Some o -> canon m ts = o.
Proof.
  intros H.
  pose proof (canon_at (Nat.max fuel (fuel_for ts)) ts (Nat.le_max_r _ _)) as E.
  rewrite (m_mono fuel _ ts o (Nat.le_max_l _ _) H) in E. congruence.
Qed.

Lemma canon_progress (ts ts' : TokenStream) (v : value) :
  canon m ts = Ok (v, ts') -> tokens ts' = tokens ts /\ pos ts <= pos ts'.
Proof.
  intros H. unfold canon in H.
  destruct (m_enough (fuel_for ts) ts (Nat.le_refl _)) as (o & Ho & Hp).
  rewrite Ho in H. simpl in H. subst o. apply (Hp v ts' eq_refl).
Qed.

End Canon.

Lemma fuel_for_need (rank : nat) (fuel : nat) (ts : TokenStream) :
  rank <= 8 -> fuel_for ts <= fuel -> need rank ts <= fuel.
Proof. unfold fuel_for, need. lia. Qed.

(** Instances of the three facts for each rule. *)
Ltac rule_mono :=
  let H := fresh in
  intros ? ? ? ? ? H;
  match goal with
  | Hle : ?f <= ?f' |- _ =>
      destruct (fuel_mono f f' Hle) as (? & ? & ? & ? & ? & ? & ? & ?)
  end; auto.
Ltac rule_enough :=
  let Hf := fresh in
  intros ? ? Hf;
  match type of Hf with
  | _ <= ?f =>
      destruct (enough_fuel f) as (? & ? & ? & ? & ? & ? & ? & ?)
  end;
  match goal with
  | H : _ |- _ => apply H; apply fuel_for_need; [lia|exact Hf]
  end.

Lemma primary_mono : forall fuel fuel' ts o, fuel <= fuel' ->
  parse_primary fuel ts = Some o -> parse_primary fuel' ts = Some o.
Proof. rule_mono. Qed.
Lemma unary_mono : forall fuel fuel' ts o, fuel <= fuel' ->
  parse_unary fuel ts = Some o -> parse_unary fuel' ts = Some o.
Proof. rule_mono. Qed.
Lemma pow_mono : forall fuel fuel' ts o, fuel <= fuel' ->
  parse_pow fuel ts = Some o -> parse_pow fuel' ts = Some o.
Proof. rule_mono. Qed.
Lemma mul_loop_mono (v : value) : forall fuel fuel' ts o, fuel <= fuel' ->
  parse_mul_loop fuel v ts = Some o -> parse_mul_loop fuel' v ts = Some o.
Proof. rule_mono. Qed.
Lemma mul_mono : forall fuel fuel' ts o, fuel <= fuel' ->
  parse_mul fuel ts = Some o -> parse_mul fuel' ts = Some o.
Proof. rule_mono. Qed.
Lemma add_loop_mono (v : value) : forall fuel fuel' ts o, fuel <= fuel' ->
  parse_add_loop fuel v ts = Some o -> parse_add_loop fuel' v ts = Some o.
Proof. rule_mono. Qed.
Lemma add_mono : forall fuel fuel' ts o, fuel <= fuel' ->
  parse_add fuel ts = Some o -> parse_add fuel' ts = Some o.
Proof. rule_mono. Qed.
Lemma expr_mono : forall fuel fuel' ts o, fuel <= fuel' ->
  parse_expr fuel ts = Some o -> parse_expr fuel' ts = Some o.
Proof. rule_mono. Qed.

Lemma primary_enough : forall fuel ts, fuel_for ts <= fuel ->
  progress (parse_primary fuel ts) ts.
Proof. rule_enough. Qed.
Lemma unary_enough : forall fuel ts, fuel_for ts <= fuel ->
  progress (parse_unary fuel ts) ts.
Proof. rule_enough. Qed.
Lemma pow_enough : forall fuel ts, fuel_for ts <= fuel ->
  progress (parse_pow fuel ts) ts.
Proof. rule_enough. Qed.
Lemma mul_loop_enough (v : value) : forall fuel ts, fuel_for ts <= fuel ->
  progress (parse_mul_loop fuel v ts) ts.
Proof. rule_enough. Qed.
Lemma mul_enough : forall fuel ts, fuel_for ts <= fuel ->
  progress (parse_mul fuel ts) ts.
Proof. rule_enough. Qed.
Lemma add_loop_enough (v : value) : forall fuel ts, fuel_for ts <= fuel ->
  progress (parse_add_loop fuel v ts) ts.
Proof. rule_enough. Qed.
Lemma add_enough : forall fuel ts, fuel_for ts <= fuel ->
  progress (parse_add fuel ts) ts.
Proof. rule_enough. Qed.
Lemma expr_enough : forall fuel ts, fuel_for ts <= fuel ->
  progress (parse_expr fuel ts) ts.
Proof. rule_enough. Qed.

Lemma advance_tokens (ts : TokenStream) : tokens (advance ts) = tokens ts.
Proof. reflexivity. Qed.

Lemma fuel_for_advance (ts : TokenStream) :
  fuel_for (advance ts) <= fuel_for ts.
Proof. unfold fuel_for, remaining, advance; simpl; lia. Qed.

Lemma fuel_for_le (ts ts' : TokenStream) :
  tokens ts' = tokens ts -> pos ts <= pos ts' -> fuel_for ts' <= fuel_for ts.
Proof. unfold fuel_for, remaining; intros -> ?; lia. Qed.

Lemma run_primary_at fuel ts :
  fuel_for ts <= fuel -> parse_primary fuel ts = Some (run_primary ts).
Proof. apply (canon_at _ primary_mono primary_enough). Qed.
Lemma run_unary_at fuel ts :
  fuel_for ts <= fuel -> parse_unary fuel ts = Some (run_unary ts).
Proof. apply (canon_at _ unary_mono unary_enough). Qed.
Lemma run_pow_at fuel ts :
  fuel_for ts <= fuel -> parse_pow fuel ts = Some (run_pow ts).
Proof. apply (canon_at _ pow_mono pow_enough). Qed.
Lemma run_mul_loop_at fuel v ts :
  fuel_for ts <= fuel -> parse_mul_loop fuel v ts = Some (run_mul_loop v ts).
Proof.
  apply (canon_at (fun f t => parse_mul_loop f v t)
           (mul_loop_mono v) (mul_loop_enough v)).
Qed.
Lemma run_mul_at fuel ts :
  fuel_for ts <= fuel -> parse_mul fuel ts = Some (run_mul ts).
Proof. apply (canon_at _ mul_mono mul_enough). Qed.
Lemma run_add_loop_at fuel v ts :
  fuel_for ts <= fuel -> parse_add_loop fuel v ts = Some (run_add_loop v ts).
Proof.
  apply (canon_at (fun f t => parse_add_loop f v t)
           (add_loop_mono v) (add_loop_enough v)).
Qed.
Lemma run_add_at fuel ts :
  fuel_for ts <= fuel -> parse_add fuel ts = Some (run_add ts).
Proof. apply (canon_at _ add_mono add_enough). Qed.
Lemma run_expr_at fuel ts :
  fuel_for ts <= fuel -> parse_expr fuel ts = Some (run_expr ts).
Proof. apply (canon_at _ expr_mono expr_enough). Qed.

Lemma run_primary_progress ts ts' v :
  run_primary ts = Ok (v, ts') -> tokens ts' = tokens ts /\ pos ts <= pos ts'.
Proof. apply (canon_progress _ primary_enough). Qed.
Lemma run_unary_progress ts ts' v :
  run_unary ts = Ok (v, ts') -> tokens ts' = tokens ts /\ pos ts <= pos ts'.
Proof. apply (canon_progress _ unary_enough). Qed.
Lemma run_pow_progress ts ts' v :
  run_pow ts = Ok (v, ts') -> tokens ts' = tokens ts /\ pos ts <= pos ts'.
Proof. apply (canon_progress _ pow_enough). Qed.
Lemma run_mul_progress ts ts' v :
  run_mul ts = Ok (v, ts') -> tokens ts' = tokens ts /\ pos ts <= pos ts'.
Proof. apply (canon_progress _ mul_enough). Qed.
Lemma run_expr_progress ts ts' v :
  run_expr ts = Ok (v, ts') -> tokens ts' = tokens ts /\ pos ts <= pos ts'.
Proof. apply (canon_progress _ expr_enough). Qed.

(** The fuel of a sub-call is enough: the cursor only moves forward. *)
Ltac fuel_ok :=
  repeat match goal with
         | H : run_primary _ = Ok _ |- _ => apply run_primary_progress in H
         | H : run_unary _ = Ok _ |- _ => apply run_unary_progress in H
         | H : run_pow _ = Ok _ |- _ => apply run_pow_progress in H
         | H : run_mul _ = Ok _ |- _ => apply run_mul_progress in H
         | H : run_expr _ = Ok _ |- _ => apply run_expr_progress in H
         | H : _ /\ _ |- _ => destruct H
         end;
  unfold fuel_for, remaining, advance in *; simpl in *;
  repeat match goal with H : tokens _ = tokens _ |- _ => rewrite H in * end;
  lia.

Lemma bind_some {A B : Type} (r : outcome (A * TokenStream))
    (k : A -> TokenStream -> run B)
    (k' : A -> TokenStream -> outcome (B * TokenStream)) :
  (forall a ts, r = Ok (a, ts) -> k a ts = Some (k' a ts)) ->
  bind (Some r) k = Some (rbind r k').
Proof.
  intros H. destruct r as [[a ts]| |]; simpl; [apply H; reflexivity| |];
    reflexivity.
Qed.

Lemma ret_rret (o : outcome value) (ts : TokenStream) :
  ret o ts = Some (rret o ts).
Proof. reflexivity. Qed.

Lemma run_unique_from (m : nat -> TokenStream -> run value)
    (fuel : nat) (ts : TokenStream) (o o' : outcome (value * TokenStream)) :
  m fuel ts = Some o -> m fuel ts = Some o' -> o = o'.
Proof. congruence. Qed.

(** [parse_primary] *)
Lemma run_primary_eq (ts : TokenStream) :
  run_primary ts
  = match peek ts with
    | NUM v => Ok (v, advance ts)
    | LPAREN =>
        rbind (run_expr (advance ts)) (fun val ts1 =>
        rbind (eat KRPAREN (Some ")"%string) ts1) (fun _ ts2 =>
        Ok (val, ts2)))
    | _ => Raise (ParseError ExpectedNumberOrParen)
    end.
Proof.
  pose proof (run_primary_at (S (fuel_for ts)) ts ltac:(lia)) as E.
  remember (fuel_for ts) as f eqn:Hf. simpl in E.
  destruct (peek ts) eqn:Hp; try congruence.
  - unfold eat in E. rewrite Hp in E. simpl in E. inversion E. reflexivity.
  - unfold eat in E at 1. rewrite Hp in E. simpl in E.
    unfold lift in E at 1. rewrite bind_ok in E.
    rewrite run_expr_at in E by (rewrite Hf; apply fuel_for_advance).
    erewrite bind_some in E; [inversion E; reflexivity|].
    intros val ts1 _. unfold lift. apply bind_some. reflexivity.
Qed.

Lemma is_op_plus_minus (tok : token) :
  is_op tok "-" = true -> is_op tok "+" = false.
Proof.
  unfold is_op. destruct tok; try discriminate.
  intros H. apply String.eqb_eq in H. subst. reflexivity.
Qed.

(** [parse_unary] *)
Lemma run_unary_eq (ts : TokenStream) :
  run_unary ts
  = if is_op (peek ts) "+" then
      rbind (run_unary (advance ts)) (fun v ts1 => rret (Py.pos v) ts1)
    else if is_op (peek ts) "-" then
      rbind (run_unary (advance ts)) (fun v ts1 => rret (Py.neg v) ts1)
    else run_primary ts.
Proof.
  pose proof (run_unary_at (S (fuel_for ts)) ts ltac:(lia)) as E.
  remember (fuel_for ts) as f eqn:Hf. simpl in E.
  destruct (is_op (peek ts) "+") eqn:Hplus;
    [|destruct (is_op (peek ts) "-") eqn:Hminus].
  - unfold lift in E. rewrite (eat_op _ _ Hplus), bind_ok in E.
    rewrite run_unary_at in E by (rewrite Hf; apply fuel_for_advance).
    erewrite bind_some in E; [inversion E; reflexivity|].
    intros; apply ret_rret.
  - unfold lift in E. rewrite (eat_op _ _ Hminus), bind_ok in E.
    rewrite run_unary_at in E by (rewrite Hf; apply fuel_for_advance).
    erewrite bind_some in E; [inversion E; reflexivity|].
    intros; apply ret_rret.
  - rewrite run_primary_at in E by lia. inversion E. reflexivity.
Qed.

(** [parse_pow] *)
Lemma run_pow_eq (ts : TokenStream) :
  run_pow ts
  = rbind (run_unary ts) (fun left ts1 =>
    if is_op (peek ts1) "**" then
      rbind (run_pow (advance ts1)) (fun right ts2 =>
      rret (Py.pow left right) ts2)
    else Ok (left, ts1)).
Proof.
  pose proof (run_pow_at (S (fuel_for ts)) ts ltac:(lia)) as E.
  remember (fuel_for ts) as f eqn:Hf. simpl in E.
  rewrite run_unary_at in E by lia.
  erewrite bind_some in E; [inversion E; reflexivity|].
  intros left ts1 Hu. simpl.
  destruct (is_op (peek ts1) "**") eqn:Hop; [|reflexivity].
  unfold lift. rewrite (eat_op _ _ Hop), bind_ok.
  rewrite run_pow_at by (subst f; fuel_ok).
  apply bind_some. intros; apply ret_rret.
Qed.

(** The loop of [parse_mul] *)
Lemma run_mul_loop_eq (v : value) (ts : TokenStream) :
  run_mul_loop v ts
  = match peek ts with
    | OP op =>
        if is_mul_op op then
          rbind (run_pow (advance ts)) (fun rhs ts1 =>
          rbind (rret (_apply_mul_op op v rhs) ts1) (fun v' ts2 =>
          run_mul_loop v' ts2))
        else Ok (v, ts)
    | _ => Ok (v, ts)
    end.
Proof.
  pose proof (run_mul_loop_at (S (fuel_for ts)) v ts ltac:(lia)) as E.
  remember (fuel_for ts) as f eqn:Hf. simpl in E.
  destruct (peek ts) as [|op| | |] eqn:Hp; try (inversion E; reflexivity).
  destruct (is_mul_op op); [|inversion E; reflexivity].
  unfold lift in E. rewrite (eat_op_token _ _ Hp), bind_ok in E.
  rewrite run_pow_at in E by (rewrite Hf; apply fuel_for_advance).
  erewrite bind_some in E; [inversion E; reflexivity|].
  intros rhs ts1 Hr. simpl. rewrite ret_rret.
  apply bind_some. intros v' ts2 Hv.
  assert (ts2 = ts1) as ->
    by (unfold rret in Hv; destruct (_apply_mul_op op v rhs); simpl in Hv;
        inversion Hv; reflexivity).
  apply run_mul_loop_at. subst f. fuel_ok.
Qed.

(** [parse_mul] *)
Lemma run_mul_eq (ts : TokenStream) :
  run_mul ts = rbind (run_pow ts) (fun v ts1 => run_mul_loop v ts1).
Proof.
  pose proof (run_mul_at (S (fuel_for ts)) ts ltac:(lia)) as E.
  remember (fuel_for ts) as f eqn:Hf. simpl in E.
  rewrite run_pow_at in E by lia.
  erewrite bind_some in E; [inversion E; reflexivity|].
  intros v ts1 Hv. simpl. apply run_mul_loop_at. subst f. fuel_ok.
Qed.

(** The loop of [parse_add] *)
Lemma run_add_loop_eq (v : value) (ts : TokenStream) :
  run_add_loop v ts
  = if is_op (peek ts) "+" then
      rbind (run_mul (advance ts)) (fun rhs ts1 =>
      rbind (rret (Py.add v rhs) ts1) (fun v' ts2 =>
      run_add_loop v' ts2))
    else if is_op (peek ts) "-" then
      rbind (run_mul (advance ts)) (fun rhs ts1 =>
      rbind (rret (Py.sub v rhs) ts1) (fun v' ts2 =>
      run_add_loop v' ts2))
    else Ok (v, ts).
Proof.
  pose proof (run_add_loop_at (S (fuel_for ts)) v ts ltac:(lia)) as E.
  remember (fuel_for ts) as f eqn:Hf. simpl in E.
  destruct (is_op (peek ts) "+") eqn:Hplus;
    [|destruct (is_op (peek ts) "-") eqn:Hminus].
  - unfold lift in E. rewrite (eat_op _ _ Hplus), bind_ok in E.
    rewrite run_mul_at in E by (rewrite Hf; apply fuel_for_advance).
    erewrite bind_some in E; [inversion E; reflexivity|].
    intros rhs ts1 Hr. simpl. rewrite ret_rret.
    apply bind_some. intros v' ts2 Hv.
    assert (ts2 = ts1) as ->
      by (unfold rret in Hv; destruct (Py.add v rhs); simpl in Hv;
          inversion Hv; reflexivity).
    apply run_add_loop_at. subst f. fuel_ok.
  - unfold lift in E. rewrite (eat_op _ _ Hminus), bind_ok in E.
    rewrite run_mul_at in E by (rewrite Hf; apply fuel_for_advance).
    erewrite bind_some in E; [inversion E; reflexivity|].
    intros rhs ts1 Hr. simpl. rewrite ret_rret.
    apply bind_some. intros v' ts2 Hv.
    assert (ts2 = ts1) as ->
      by (unfold rret in Hv; destruct (Py.sub v rhs); simpl in Hv;
          inversion Hv; reflexivity).
    apply run_add_loop_at. subst f. fuel_ok.
  - inversion E. reflexivity.
Qed.

(** [parse_add] *)
Lemma run_add_eq (ts : TokenStream) :
  run_add ts = rbind (run_mul ts) (fun v ts1 => run_add_loop v ts1).
Proof.
  pose proof (run_add_at (S (fuel_for ts)) ts ltac:(lia)) as E.
  remember (fuel_for ts) as f eqn:Hf. simpl in E.
  rewrite run_mul_at in E by lia.
  erewrite bind_some in E; [inversion E; reflexivity|].
  intros v ts1 Hv. simpl. apply run_add_loop_at. subst f. fuel_ok.
Qed.

(** [parse_expr] *)
Lemma run_expr_eq (ts : TokenStream) : run_expr ts = run_add ts.
Proof.
  pose proof (run_expr_at (S (fuel_for ts)) ts ltac:(lia)) as E.
  simpl in E. rewrite run_add_at in E by lia. inversion E. reflexivity.
Qed.

(** [calculate_expression] after [tokenize] *)
Lemma calculate_tokens_eq (toks : list token) :
  calculate_tokens (budget toks) toks
  = Some (finish (run_expr (stream_at toks 0))).
Proof.
  unfold calculate_tokens. fold (stream_at toks 0).
  rewrite run_expr_at
    by (unfold fuel_for, remaining, budget, stream_at; simpl; lia).
  destruct (run_expr (stream_at toks 0)) as [[v ts]| |]; simpl;
    [destruct (negb _)|..]; reflexivity.
Qed.

Lemma calculate_expression_eq (expression : string) (toks : list token) :
  tokenize expression = Some (Ok toks) ->
  calculate_expression expression
  = Some (finish (run_expr (stream_at toks 0))).
Proof.
  intros H. unfold calculate_expression. rewrite H.
  apply calculate_tokens_eq.
Qed.

(** ** Evaluating the tokens of an expression *)

Scheme primary_expr_mut := Induction for primary_expr Sort Prop
  with unary_expr_mut := Induction for unary_expr Sort Prop
  with pow_expr_mut := Induction for pow_expr Sort Prop
  with mul_expr_mut := Induction for mul_expr Sort Prop
  with add_expr_mut := Induction for add_expr Sort Prop.
Combined Scheme expr_mutind from primary_expr_mut, unary_expr_mut,
  pow_expr_mut, mul_expr_mut, add_expr_mut.

Lemma peek_at (pre suf : list token) : peek (at_ pre suf) = hd EOF suf.
Proof.
  unfold peek, at_, stream_at; simpl.
  rewrite nth_error_app2 by lia. rewrite Nat.sub_diag.
  destruct suf; reflexivity.
Qed.

Lemma advance_at (pre suf : list token) (tok : token) :
  advance (at_ pre (tok :: suf)) = at_ (pre ++ [tok]) suf.
Proof.
  unfold advance, at_, stream_at; simpl.
  rewrite <- app_assoc, length_app; simpl. reflexivity.
Qed.

Lemma at_app (pre a suf : list token) (tok : token) :
  at_ ((pre ++ a) ++ [tok]) suf = at_ (pre ++ a ++ [tok]) suf.
Proof. rewrite <- app_assoc. reflexivity. Qed.

Arguments at_ : simpl never.
Arguments run_primary : simpl never.
Arguments run_unary : simpl never.
Arguments run_pow : simpl never.
Arguments run_mul_loop : simpl never.
Arguments run_mul : simpl never.
Arguments run_add_loop : simpl never.
Arguments run_add : simpl never.
Arguments run_expr : simpl never.

Lemma eat_rparen (ts : TokenStream) :
  peek ts = RPAREN -> eat KRPAREN (Some ")"%string) ts = Ok (RPAREN, advance ts).
Proof. intros H. unfold eat. rewrite H. reflexivity. Qed.

Lemma run_mul_loop_stop (v : value) (ts : TokenStream) :
  is_mul_tok (peek ts) = false -> run_mul_loop v ts = Ok (v, ts).
Proof.
  intros H. rewrite run_mul_loop_eq.
  destruct (peek ts); try reflexivity. simpl in H. rewrite H. reflexivity.
Qed.

Lemma run_add_loop_stop (v : value) (ts : TokenStream) :
  is_op (peek ts) "+" = false -> is_op (peek ts) "-" = false ->
  run_add_loop v ts = Ok (v, ts).
Proof. intros H1 H2. rewrite run_add_loop_eq, H1, H2. reflexivity. Qed.

Lemma stops_mul_pow (tok : token) : stops_mul tok = true -> stops_pow tok = true.
Proof. unfold stops_mul. intros H. apply andb_true_iff in H. tauto. Qed.

Lemma stops_mul_tok (tok : token) :
  stops_mul tok = true -> is_mul_tok tok = false.
Proof.
  unfold stops_mul. intros H. apply andb_true_iff in H.
  destruct H as [_ H]. apply negb_true_iff in H. exact H.
Qed.

Lemma stops_pow_op (tok : token) :
  stops_pow tok = true -> is_op tok "**" = false.
Proof. unfold stops_pow. apply negb_true_iff. Qed.

Lemma mulop_symbol_is_mul_op (o : mulop) : is_mul_op (mulop_symbol o) = true.
Proof. destruct o; reflexivity. Qed.

Ltac norm_lists := repeat rewrite <- app_assoc; simpl app.

Lemma tokens_evaluate :
  (forall p pre rest,
     run_primary (at_ pre (tokens_of_primary p ++ rest))
     = rret (eval_primary p) (at_ (pre ++ tokens_of_primary p) rest))
  /\ (forall u pre rest,
        run_unary (at_ pre (tokens_of_unary u ++ rest))
        = rret (eval_unary u) (at_ (pre ++ tokens_of_unary u) rest))
  /\ (forall w pre rest,
        stops_pow (hd EOF rest) = true ->
        run_pow (at_ pre (tokens_of_pow w ++ rest))
        = rret (eval_pow w) (at_ (pre ++ tokens_of_pow w) rest))
  /\ (forall t pre rest,
        stops_pow (hd EOF rest) = true ->
        run_mul (at_ pre (tokens_of_mul t ++ rest))
        = rbind (rret (eval_mul t) (at_ (pre ++ tokens_of_mul t) rest))
            run_mul_loop)
  /\ (forall e pre rest,
        stops_mul (hd EOF rest) = true ->
        run_add (at_ pre (tokens_of_add e ++ rest))
        = rbind (rret (eval_add e) (at_ (pre ++ tokens_of_add e) rest))
            run_add_loop).
Proof.
  apply expr_mutind.
  - (* Num *)
    intros v pre rest. simpl.
    rewrite run_primary_eq, peek_at. simpl. rewrite advance_at. reflexivity.
  - (* Paren *)
    intros e IH pre rest. simpl. norm_lists.
    rewrite run_primary_eq, peek_at. simpl. rewrite advance_at.
    rewrite run_expr_eq, IH by reflexivity.
    destruct (eval_add e) as [v| |]; simpl; try reflexivity.
    rewrite run_add_loop_stop by (rewrite peek_at; reflexivity). simpl.
    rewrite eat_rparen by (rewrite peek_at; reflexivity). simpl.
    rewrite advance_at. norm_lists. reflexivity.
  - (* Primary *)
    intros p IH pre rest. simpl.
    rewrite run_unary_eq, peek_at.
    assert (Hhd : forall s, is_op (hd EOF (tokens_of_primary p ++ rest)) s
                            = false)
      by (intros s; destruct p; reflexivity).
    rewrite !Hhd. apply IH.
  - (* Plus *)
    intros u IH pre rest. simpl.
    rewrite run_unary_eq, peek_at. simpl. rewrite advance_at, IH.
    norm_lists. destruct (eval_unary u); reflexivity.
  - (* Minus *)
    intros u IH pre rest. simpl.
    rewrite run_unary_eq, peek_at. simpl. rewrite advance_at, IH.
    norm_lists. destruct (eval_unary u); reflexivity.
  - (* Unary *)
    intros u IH pre rest Hs. simpl.
    rewrite run_pow_eq, IH.
    destruct (eval_unary u) as [v| |]; simpl; try reflexivity.
    rewrite peek_at, (stops_pow_op _ Hs). reflexivity.
  - (* Power *)
    intros u IHu w IHw pre rest Hs. simpl. norm_lists.
    rewrite run_pow_eq, IHu.
    destruct (eval_unary u) as [a| |]; simpl; try reflexivity.
    rewrite peek_at. simpl. rewrite advance_at, at_app.
    rewrite app_assoc, IHw by exact Hs. norm_lists.
    destruct (eval_pow w) as [b| |]; reflexivity.
  - (* Pow *)
    intros w IH pre rest Hs. simpl.
    rewrite run_mul_eq, IH by exact Hs. reflexivity.
  - (* MulOp *)
    intros t IHt o w IHw pre rest Hs. simpl. norm_lists.
    rewrite IHt by (destruct o; reflexivity).
    destruct (eval_mul t) as [a| |]; simpl; try reflexivity.
    rewrite run_mul_loop_eq, peek_at. simpl.
    rewrite mulop_symbol_is_mul_op, advance_at, at_app.
    rewrite app_assoc, IHw by exact Hs. norm_lists.
    destruct (eval_pow w) as [b| |]; reflexivity.
  - (* Mul *)
    intros t IH pre rest Hs. simpl.
    rewrite run_add_eq, IH by (apply stops_mul_pow; exact Hs).
    destruct (eval_mul t) as [v| |]; simpl; try reflexivity.
    rewrite run_mul_loop_stop
      by (rewrite peek_at; apply stops_mul_tok; exact Hs).
    reflexivity.
  - (* Add *)
    intros e IHe t IHt pre rest Hs. simpl. norm_lists.
    rewrite IHe by reflexivity.
    destruct (eval_add e) as [a| |]; simpl; try reflexivity.
    rewrite run_add_loop_eq, peek_at. simpl. rewrite advance_at, at_app.
    rewrite app_assoc, IHt by (apply stops_mul_pow; exact Hs). norm_lists.
    destruct (eval_mul t) as [b| |]; simpl; try reflexivity.
    rewrite run_mul_loop_stop
      by (rewrite peek_at; apply stops_mul_tok; exact Hs).
    simpl. destruct (Py.add a b); reflexivity.
  - (* Sub *)
    intros e IHe t IHt pre rest Hs. simpl. norm_lists.
    rewrite IHe by reflexivity.
    destruct (eval_add e) as [a| |]; simpl; try reflexivity.
    rewrite run_add_loop_eq, peek_at. simpl. rewrite advance_at, at_app.
    rewrite app_assoc, IHt by (apply stops_mul_pow; exact Hs). norm_lists.
    destruct (eval_mul t) as [b| |]; simpl; try reflexivity.
    rewrite run_mul_loop_stop
      by (rewrite peek_at; apply stops_mul_tok; exact Hs).
    simpl. destruct (Py.sub a b); reflexivity.
Qed.

Lemma stream_at_0 (toks : list token) : stream_at toks 0 = at_ [] toks.
Proof. reflexivity. Qed.

Lemma stops_add_ops (tok : token) :
  stops_add tok = true ->
  stops_mul tok = true /\ is_op tok "+" = false /\ is_op tok "-" = false.
Proof.
  unfold stops_add. intros H.
  apply andb_true_iff in H. destruct H as [H H3].
  apply andb_true_iff in H. destruct H as [H1 H2].
  apply negb_true_iff in H2, H3. auto.
Qed.

Lemma run_expr_tokens (e : add_expr) (pre rest : list token) :
  stops_add (hd EOF rest) = true ->
  run_expr (at_ pre (tokens_of_add e ++ rest))
  = rret (eval_add e) (at_ (pre ++ tokens_of_add e) rest).
Proof.
  intros Hs. apply stops_add_ops in Hs. destruct Hs as (Hm & Hp & Hn).
  rewrite run_expr_eq.
  rewrite (proj2 (proj2 (proj2 (proj2 tokens_evaluate))) e pre rest Hm).
  destruct (eval_add e) as [v| |]; simpl; try reflexivity.
  apply run_add_loop_stop; rewrite peek_at; assumption.
Qed.

(** X1. Evaluating the tokens of an expression of the grammar gives the
    value of the expression: the two binary levels group to the left,
    [**] groups to the right and binds tighter than the multiplicative
    operators, those tighter than [+] and [-], a sign applies to the
    unary expression after it, and a parenthesis stands for its content.
    Operands are evaluated from left to right and the first exception is
    the result. *)
Theorem evaluate_tokens_of_expression (e : add_expr) :
  calculate_tokens (budget (tokens_of_add e ++ [EOF]))
    (tokens_of_add e ++ [EOF])
  = Some (eval_add e).
Proof.
  rewrite calculate_tokens_eq, stream_at_0, run_expr_tokens by reflexivity.
  destruct (eval_add e) as [v| |]; simpl; try reflexivity.
  rewrite peek_at. reflexivity.
Qed.

(** X2. Tokens left after a complete expression: when the tokens of an
    expression are followed by a token that is neither an operator nor
    EOF (a number or a parenthesis), the expression is evaluated first,
    its exception if any is the result, and otherwise ParseError
    (trailing tokens) is raised. *)
Theorem trailing_tokens_rejected (e : add_expr) (tok : token)
    (rest : list token) :
  stops_add tok = true ->
  tok_kind tok <> KEOF ->
  let toks := tokens_of_add e ++ tok :: rest in
  calculate_tokens (budget toks) toks
  = Some (obind (eval_add e) (fun _ => Raise (ParseError Trailing))).
Proof.
  intros Hs Hk toks. subst toks.
  rewrite calculate_tokens_eq, stream_at_0, run_expr_tokens by exact Hs.
  destruct (eval_add e) as [v| |]; simpl; try reflexivity.
  rewrite peek_at. simpl.
  destruct tok; simpl in *; try reflexivity. congruence.
Qed.

Lemma trailing_tokens_rejected_witness :
  stops_add RPAREN = true
  /\ tok_kind RPAREN <> KEOF
  /\ calculate_tokens
       (budget [NUM (VInt 2); OP "+"; NUM (VInt 3); RPAREN; EOF])
       [NUM (VInt 2); OP "+"; NUM (VInt 3); RPAREN; EOF]
     = Some (Raise (ParseError Trailing)).
Proof.
  split; [reflexivity|]. split; [discriminate|].
  exact (trailing_tokens_rejected
           (Add (Mul (Pow (Unary (Primary (Num (VInt 2))))))
                (Pow (Unary (Primary (Num (VInt 3))))))
           RPAREN [EOF] eq_refl ltac:(discriminate)).
Defined.

(** ** Invariants of the evaluation *)

Lemma peek_in (ts : TokenStream) :
  peek ts = EOF \/ In (peek ts) (tokens ts).
Proof.
  unfold peek. destruct (nth_error (tokens ts) (pos ts)) eqn:E; [|auto].
  right. eapply nth_error_In; eassumption.
Qed.

Lemma eat_num (ts : TokenStream) (v : value) :
  peek ts = NUM v -> eat KNUM None ts = Ok (NUM v, advance ts).
Proof. intros H. unfold eat. rewrite H. reflexivity. Qed.

Lemma eat_lparen (ts : TokenStream) :
  peek ts = LPAREN -> eat KLPAREN (Some "("%string) ts = Ok (LPAREN, advance ts).
Proof. intros H. unfold eat. rewrite H. reflexivity. Qed.

Section Invariant.

(** [P] holds of every token of the list, [Q] of every number in it and
    is kept by the operations whose operator is in the list. *)
Variable P : token -> Prop.
Variable Q : value -> Prop.
Variable E : exn -> Prop.
Variable M : Prop.

Hypothesis P_num : forall v, P (NUM v) -> Q v.
Hypothesis P_plus :
  P (OP "+") ->
  (forall a, Q a -> good_out E M Q (Py.pos a))
  /\ (forall a b, Q a -> Q b -> good_out E M Q (Py.add a b)).
Hypothesis P_minus :
  P (OP "-") ->
  (forall a, Q a -> good_out E M Q (Py.neg a))
  /\ (forall a b, Q a -> Q b -> good_out E M Q (Py.sub a b)).
Hypothesis P_pow :
  P (OP "**") -> forall a b, Q a -> Q b -> good_out E M Q (Py.pow a b).
Hypothesis P_mul :
  forall op, P (OP op) -> is_mul_op op = true ->
  forall a b, Q a -> Q b -> good_out E M Q (_apply_mul_op op a b).
Hypothesis E_kind : E (ParseError ExpectedKind).
Hypothesis E_primary : E (ParseError ExpectedNumberOrParen).

Lemma peek_P (ts : TokenStream) (tok : token) :
  Forall P (tokens ts) -> peek ts = tok -> tok <> EOF -> P tok.
Proof.
  intros HP Hp Hn. destruct (peek_in ts) as [H|H]; [congruence|].
  rewrite Hp in H. rewrite Forall_forall in HP. auto.
Qed.

Lemma is_op_peek (ts : TokenStream) (s : string) :
  Forall P (tokens ts) -> is_op (peek ts) s = true -> P (OP s).
Proof.
  intros HP H. destruct (peek ts) as [|s'| | |] eqn:Hp; try discriminate.
  simpl in H. apply String.eqb_eq in H. subst s'.
  apply (peek_P ts); [assumption..|discriminate].
Qed.

Lemma good_bind (tks : list token) (m : run value)
    (k : value -> TokenStream -> run value)
    (r : outcome (value * TokenStream)) :
  bind m k = Some r ->
  (forall x, m = Some x -> good_res E M Q tks x) ->
  (forall a ts1, Q a -> tokens ts1 = tks -> k a ts1 = Some r -> good_res E M Q tks r) ->
  good_res E M Q tks r.
Proof.
  intros Hb Hm Hk. destruct m as [[[a ts1]|e|]|]; simpl in Hb;
    try discriminate.
  - destruct (Hm _ eq_refl) as [Ha Ht]. eauto.
  - inversion Hb; subst. apply (Hm _ eq_refl).
  - inversion Hb; subst. apply (Hm _ eq_refl).
Qed.

Lemma good_ret (tks : list token) (o : outcome value) (ts : TokenStream)
    (r : outcome (value * TokenStream)) :
  good_out E M Q o -> tokens ts = tks -> ret o ts = Some r -> good_res E M Q tks r.
Proof.
  intros Ho Ht H. unfold ret in H. inversion H; subst.
  destruct o; simpl in *; auto.
Qed.

Lemma invariant (fuel : nat) : invariant_at P Q E M fuel.
Proof.
  induction fuel as [|fuel IH].
  { repeat split; intros; discriminate. }
  destruct IH as (Hprim & Hun & Hpow & Hml & Hmul & Hal & Hadd & Hexpr).
  repeat split.
  - (* parse_primary *)
    intros ts r HP H. simpl in H.
    destruct (peek ts) as [v| | | |] eqn:Hp;
      try (inversion H; subst; exact E_primary).
    + unfold lift in H. rewrite (eat_num _ _ Hp), bind_ok in H.
      inversion H; subst. split; [|reflexivity].
      apply P_num. apply (peek_P ts); [assumption..|discriminate].
    + unfold lift in H. rewrite (eat_lparen _ Hp), bind_ok in H.
      apply (good_bind _ _ _ _ H);
        [intros x Hx; apply (Hexpr (advance ts) _ HP Hx)|].
      intros val ts1 Hq Ht Hk.
      unfold lift, eat in Hk. destruct (peek ts1); simpl in Hk;
        try (inversion Hk; subst; exact E_kind).
      rewrite bind_ok in Hk. inversion Hk; subst. split; auto.
  - (* parse_unary *)
    intros ts r HP H. simpl in H.
    destruct (is_op (peek ts) "+") eqn:Hplus;
      [|destruct (is_op (peek ts) "-") eqn:Hminus].
    + unfold lift in H. rewrite (eat_op _ _ Hplus), bind_ok in H.
      apply (good_bind _ _ _ _ H);
        [intros x Hx; apply (Hun (advance ts) _ HP Hx)|].
      intros v ts1 Hq Ht Hk. apply (good_ret _ _ _ _ (proj1
        (P_plus (is_op_peek _ _ HP Hplus)) v Hq) Ht Hk).
    + unfold lift in H. rewrite (eat_op _ _ Hminus), bind_ok in H.
      apply (good_bind _ _ _ _ H);
        [intros x Hx; apply (Hun (advance ts) _ HP Hx)|].
      intros v ts1 Hq Ht Hk. apply (good_ret _ _ _ _ (proj1
        (P_minus (is_op_peek _ _ HP Hminus)) v Hq) Ht Hk).
    + apply (Hprim _ _ HP H).
  - (* parse_pow *)
    intros ts r HP H. simpl in H.
    apply (good_bind _ _ _ _ H); [intros x Hx; apply (Hun _ _ HP Hx)|].
    intros left ts1 Hq Ht Hk. simpl in Hk.
    assert (HP1 : Forall P (tokens ts1)) by (rewrite Ht; exact HP).
    destruct (is_op (peek ts1) "**") eqn:Hop.
    + unfold lift in Hk. rewrite (eat_op _ _ Hop), bind_ok in Hk.
      apply (good_bind _ _ _ _ Hk).
      * intros x Hx. rewrite <- Ht. apply (Hpow (advance ts1) _ HP1 Hx).
      * intros right ts2 Hq2 Ht2 Hk2.
        apply (good_ret _ _ _ _
                 (P_pow (is_op_peek _ _ HP1 Hop) left right Hq Hq2) Ht2 Hk2).
    + apply (good_ret _ (Ok left) ts1 _ Hq Ht Hk).
  - (* parse_mul_loop *)
    intros v ts r Hv HP H. simpl in H.
    destruct (peek ts) as [|op| | |] eqn:Hp;
      try (apply (good_ret _ (Ok v) ts _ Hv eq_refl H)).
    destruct (is_mul_op op) eqn:Hmo;
      [|apply (good_ret _ (Ok v) ts _ Hv eq_refl H)].
    unfold lift in H. rewrite (eat_op_token _ _ Hp), bind_ok in H.
    apply (good_bind _ _ _ _ H);
      [intros x Hx; apply (Hpow (advance ts) _ HP Hx)|].
    intros rhs ts1 Hq Ht Hk. simpl in Hk.
    assert (Hop : P (OP op))
      by (apply (peek_P ts); [assumption..|discriminate]).
    apply (good_bind _ _ _ _ Hk).
    + intros x Hx. apply (good_ret _ _ _ _ (P_mul op Hop Hmo v rhs Hv Hq) Ht Hx).
    + intros v' ts2 Hq' Ht' Hk'. rewrite <- Ht'.
      apply (Hml _ _ _ Hq'); [rewrite Ht'; exact HP|exact Hk'].
  - (* parse_mul *)
    intros ts r HP H. simpl in H.
    apply (good_bind _ _ _ _ H); [intros x Hx; apply (Hpow _ _ HP Hx)|].
    intros v ts1 Hq Ht Hk. rewrite <- Ht.
    apply (Hml _ _ _ Hq); [rewrite Ht; exact HP|exact Hk].
  - (* parse_add_loop *)
    intros v ts r Hv HP H. simpl in H.
    destruct (is_op (peek ts) "+") eqn:Hplus;
      [|destruct (is_op (peek ts) "-") eqn:Hminus].
    + unfold lift in H. rewrite (eat_op _ _ Hplus), bind_ok in H.
      apply (good_bind _ _ _ _ H);
        [intros x Hx; apply (Hmul (advance ts) _ HP Hx)|].
      intros rhs ts1 Hq Ht Hk. simpl in Hk.
      apply (good_bind _ _ _ _ Hk).
      * intros x Hx. apply (good_ret _ _ _ _ (proj2
          (P_plus (is_op_peek _ _ HP Hplus)) v rhs Hv Hq) Ht Hx).
      * intros v' ts2 Hq' Ht' Hk'. rewrite <- Ht'.
        apply (Hal _ _ _ Hq'); [rewrite Ht'; exact HP|exact Hk'].
    + unfold lift in H. rewrite (eat_op _ _ Hminus), bind_ok in H.
      apply (good_bind _ _ _ _ H);
        [intros x Hx; apply (Hmul (advance ts) _ HP Hx)|].
      intros rhs ts1 Hq Ht Hk. simpl in Hk.
      apply (good_bind _ _ _ _ Hk).
      * intros x Hx. apply (good_ret _ _ _ _ (proj2
          (P_minus (is_op_peek _ _ HP Hminus)) v rhs Hv Hq) Ht Hx).
      * intros v' ts2 Hq' Ht' Hk'. rewrite <- Ht'.
        apply (Hal _ _ _ Hq'); [rewrite Ht'; exact HP|exact Hk'].
    + apply (good_ret _ (Ok v) ts _ Hv eq_refl H).
  - (* parse_add *)
    intros ts r HP H. simpl in H.
    apply (good_bind _ _ _ _ H); [intros x Hx; apply (Hmul _ _ HP Hx)|].
    intros v ts1 Hq Ht Hk. rewrite <- Ht.
    apply (Hal _ _ _ Hq); [rewrite Ht; exact HP|exact Hk].
  - (* parse_expr *)
    intros ts r HP H. simpl in H. apply (Hadd _ _ HP H).
Qed.

Lemma calculate_tokens_invariant (fuel : nat) (toks : list token)
    (o : outcome value) :
  Forall P toks ->
  calculate_tokens fuel toks = Some o ->
  match o with
  | Ok v => Q v
  | Raise e => E e \/ e = ParseError Trailing
  | OutOfModel => M
  end.
Proof.
  intros HP H. unfold calculate_tokens in H.
  destruct (parse_expr fuel _) as [r|] eqn:Hr; [|discriminate].
  destruct (invariant fuel) as (_ & _ & _ & _ & _ & _ & _ & Hexpr).
  pose proof (Hexpr {| tokens := toks; pos := 0 |} _ HP Hr) as Hg.
  destruct r as [[v ts]|e|]; simpl in Hg.
  - destruct (negb _); inversion H; subst; [auto|tauto].
  - inversion H; subst. auto.
  - inversion H; subst. exact Hg.
Qed.

End Invariant.

(** *** What the operations raise *)

Lemma arith_raises (iop : Z -> Z -> Z) (fop : float -> float -> float)
    (a b : value) :
  match arith iop fop a b with
  | Ok _ => True
  | Raise e => e = OverflowError
  | OutOfModel => False
  end.
Proof.
  destruct a as [x|x], b as [y|y]; simpl; auto;
    unfold int_to_float;
    repeat match goal with
           | |- context [if ?c then _ else _] => destruct c; simpl; auto
           end.
Qed.

Lemma float_pow_raises (iv iw : float) :
  match float_pow iv iw with
  | Raise e => e = ZeroDivisionError
  | _ => True
  end.
Proof.
  unfold float_pow.
  repeat match goal with
         | |- context [if ?c then _ else _] => destruct c; simpl; auto
         end.
Qed.

Lemma pow_raises (a b : value) :
  match Py.pow a b with
  | Raise e => e = ZeroDivisionError \/ e = OverflowError
  | _ => True
  end.
Proof.
  assert (H : forall oa ob,
            (forall e, oa = Raise e -> e = OverflowError) ->
            (forall e, ob = Raise e -> e = OverflowError) ->
            match obind oa (fun iv => obind ob (fun iw => float_pow iv iw)) with
            | Raise e => e = ZeroDivisionError \/ e = OverflowError
            | _ => True
            end).
  { intros oa ob Ha Hb. destruct oa as [iv|e|]; simpl; auto.
    destruct ob as [iw|e|]; simpl; auto.
    pose proof (float_pow_raises iv iw). destruct (float_pow iv iw); auto. }
  assert (Hi : forall z e, int_to_float z = Raise e -> e = OverflowError).
  { intros z e. unfold int_to_float. destruct (is_inf _); congruence. }
  destruct a as [x|x], b as [y|y]; unfold Py.pow.
  - destruct (0 <=? y)%Z; [exact I|]. apply H; apply Hi.
  - apply (H (to_float (VInt x)) (to_float (VFloat y)));
      [apply Hi|discriminate].
  - apply (H (to_float (VFloat x)) (to_float (VInt y)));
      [discriminate|apply Hi].
  - apply (H (to_float (VFloat x)) (to_float (VFloat y))); discriminate.
Qed.

Lemma to_float_nonzero (b : value) (y : float) :
  eq_zero b = false -> to_float b = Ok y -> SFeqb y fzero = false.
Proof.
  destruct b as [z|f]; simpl; intros Hz H.
  - apply (int_to_float_nonzero z); [|exact H].
    apply Z.eqb_neq; exact Hz.
  - inversion H; subst. exact Hz.
Qed.

Lemma truediv_raises (a b : value) :
  eq_zero b = false ->
  match Py.truediv a b with
  | Ok v => is_float v = true
  | Raise e => e = OverflowError
  | OutOfModel => False
  end.
Proof.
  intros Hz.
  assert (H : match obind (to_float a) (fun x =>
                    obind (to_float b) (fun y =>
                    if SFeqb y fzero then Raise ZeroDivisionError
                    else Ok (VFloat (fdiv x y)))) with
              | Ok v => is_float v = true
              | Raise e => e = OverflowError
              | OutOfModel => False
              end).
  { destruct (to_float_cases a) as [[x ->]| ->]; simpl; [|reflexivity].
    destruct (to_float_cases b) as [[y Hy]| ->]; simpl; [|reflexivity].
    rewrite Hy. simpl. rewrite (to_float_nonzero b y Hz Hy). reflexivity. }
  destruct a as [x|x], b as [y|y]; try exact H.
  simpl in *. rewrite Hz. destruct (is_inf _); reflexivity.
Qed.

Lemma apply_mul_op_raises (op : string) (a b : value) :
  is_mul_op op = true ->
  match _apply_mul_op op a b with
  | Ok _ => True
  | Raise e => (exists r, e = EvalError r) \/ e = OverflowError
  | OutOfModel => False
  end.
Proof.
  intros Hop. unfold _apply_mul_op.
  destruct (eq_zero b) eqn:Hz.
  - assert ((op =? "/")%string || (op =? "//")%string || (op =? "%")%string
            = true \/ (op =? "*")%string = true) as [-> | H].
    { unfold is_mul_op in Hop.
      destruct (op =? "*")%string; [auto|left; exact Hop]. }
    + simpl. eauto.
    + apply String.eqb_eq in H. subst op. simpl.
      pose proof (arith_raises Z.mul fmul a b) as Ha. unfold Py.mul.
      destruct (arith Z.mul fmul a b); auto.
  - rewrite andb_false_r. unfold is_mul_op in Hop. revert Hop.
    destruct (op =? "*")%string.
    { intros _. pose proof (arith_raises Z.mul fmul a b) as Ha. unfold Py.mul.
      destruct (arith Z.mul fmul a b); auto. }
    destruct (op =? "/")%string.
    { intros _. pose proof (truediv_raises a b Hz) as Ha.
      destruct (Py.truediv a b); auto. }
    destruct (op =? "//")%string.
    { intros _. destruct a as [x|x], b as [y|y]; simpl; eauto.
      simpl in Hz. rewrite Hz. exact I. }
    destruct (op =? "%")%string.
    { intros _. destruct a as [x|x], b as [y|y]; simpl; eauto.
      simpl in Hz. rewrite Hz. exact I. }
    discriminate.
Qed.

Lemma evaluator_exceptions (fuel : nat) (toks : list token) (e : exn) :
  calculate_tokens fuel toks = Some (Raise e) ->
  any_exn e \/ e = ParseError Trailing.
Proof.
  intros H.
  apply (calculate_tokens_invariant (fun _ => True) (fun _ => True)
           any_exn True) with (fuel := fuel) (toks := toks) (o := Raise e);
    try (intros; exact I); try (left; reflexivity); try (right; reflexivity);
    try exact H.
  - intros _. split; intros; simpl; auto.
    pose proof (arith_raises Z.add fadd a b) as Ha. unfold Py.add.
    destruct (arith Z.add fadd a b); simpl; auto. subst; exact I.
  - intros _. split; intros.
    + destruct a; exact I.
    + pose proof (arith_raises Z.sub fsub a b) as Ha. unfold Py.sub.
      destruct (arith Z.sub fsub a b); simpl; auto. subst; exact I.
  - intros _ a b _ _. pose proof (pow_raises a b) as Ha.
    destruct (Py.pow a b); simpl; auto. destruct Ha; subst; exact I.
  - intros op _ Hop a b _ _. pose proof (apply_mul_op_raises op a b Hop) as Ha.
    destruct (_apply_mul_op op a b); simpl; auto.
    destruct Ha as [[r ->]| ->]; exact I.
  - apply Forall_forall. intros; exact I.
Qed.

(** X3. Without the power operator the evaluator raises only ParseError,
    EvalError or OverflowError, never the built-in ZeroDivisionError, and
    its result is always determined by the model. *)
Theorem no_pow_no_zero_division (fuel : nat) (toks : list token)
    (o : outcome value) :
  Forall (fun tok => tok <> OP "**") toks ->
  calculate_tokens fuel toks = Some o ->
  match o with
  | Ok _ => True
  | Raise e => no_pow_exn e \/ e = ParseError Trailing
  | OutOfModel => False
  end.
Proof.
  intros HP H.
  apply (calculate_tokens_invariant (fun tok => tok <> OP "**")
           (fun _ => True) no_pow_exn False)
    with (fuel := fuel) (toks := toks) (o := o);
    try (intros; exact I); try (left; reflexivity); try (right; reflexivity);
    try assumption.
  - intros _. split; intros; simpl; auto.
    pose proof (arith_raises Z.add fadd a b) as Ha. unfold Py.add.
    destruct (arith Z.add fadd a b); simpl; auto. subst; exact I.
  - intros _. split; intros.
    + destruct a; exact I.
    + pose proof (arith_raises Z.sub fsub a b) as Ha. unfold Py.sub.
      destruct (arith Z.sub fsub a b); simpl; auto. subst; exact I.
  - intros Hc. congruence.
  - intros op _ Hop a b _ _. pose proof (apply_mul_op_raises op a b Hop) as Ha.
    destruct (_apply_mul_op op a b); simpl; auto.
    destruct Ha as [[r ->]| ->]; exact I.
Qed.

Lemma no_pow_no_zero_division_witness :
  Forall (fun tok => tok <> OP "**") [NUM (VInt 1); OP "/"; NUM (VInt 0); EOF]
  /\ calculate_tokens 9 [NUM (VInt 1); OP "/"; NUM (VInt 0); EOF]
     = Some (Raise (EvalError DivisionByZero))
  /\ (no_pow_exn (EvalError DivisionByZero)
      \/ EvalError DivisionByZero = ParseError Trailing).
Proof.
  assert (HP : Forall (fun tok => tok <> OP "**")
                 [NUM (VInt 1); OP "/"; NUM (VInt 0); EOF])
    by (repeat constructor; discriminate).
  split; [exact HP|]. split; [reflexivity|].
  exact (no_pow_no_zero_division 9 _ (Raise (EvalError DivisionByZero))
           HP eq_refl).
Defined.

Lemma int_token_op (op : string) :
  int_token (OP op) -> is_mul_op op = true ->
  op = "*"%string \/ op = "//"%string \/ op = "%"%string.
Proof.
  simpl. intros [->|[->|[->|[->| ->]]]] H; auto; discriminate.
Qed.

(** X4. Integer arithmetic is closed: on a token list whose numbers are
    ints and whose operators are among [+], [-], [*], [//] and [%], the
    evaluator returns an int or raises ParseError or EvalError, and
    nothing else. *)
Theorem integer_arithmetic_closed (fuel : nat) (toks : list token)
    (o : outcome value) :
  Forall int_token toks ->
  calculate_tokens fuel toks = Some o ->
  match o with
  | Ok v => is_int v = true
  | Raise e => int_exn e \/ e = ParseError Trailing
  | OutOfModel => False
  end.
Proof.
  intros HP H.
  apply (calculate_tokens_invariant int_token (fun v => is_int v = true)
           int_exn False)
    with (fuel := fuel) (toks := toks) (o := o);
    try (left; reflexivity); try (right; reflexivity); try assumption.
  - intros v Hv. exact Hv.
  - intros _. split.
    + intros a Ha. exact Ha.
    + intros [x|x] [y|y] Ha Hb; try discriminate. reflexivity.
  - intros _. split.
    + intros [x|x] Ha; try discriminate. reflexivity.
    + intros [x|x] [y|y] Ha Hb; try discriminate. reflexivity.
  - simpl. intros [H0|[H0|[H0|[H0|H0]]]]; discriminate.
  - intros op Hop Hm [x|x] [y|y] Ha Hb; try discriminate.
    destruct (int_token_op op Hop Hm) as [-> | [-> | ->]];
      unfold _apply_mul_op; simpl.
    + reflexivity.
    + destruct (y =? 0)%Z; simpl; [exact I|reflexivity].
    + destruct (y =? 0)%Z; simpl; [exact I|reflexivity].
Qed.

Lemma integer_arithmetic_closed_witness :
  Forall int_token
    [NUM (VInt 7); OP "//"; LPAREN; NUM (VInt 2); OP "-"; NUM (VInt 5);
     RPAREN; EOF]
  /\ calculate_tokens 20
       [NUM (VInt 7); OP "//"; LPAREN; NUM (VInt 2); OP "-"; NUM (VInt 5);
        RPAREN; EOF]
     = Some (Ok (VInt (-3)))
  /\ is_int (VInt (-3)) = true.
Proof.
  assert (HP : Forall int_token
                 [NUM (VInt 7); OP "//"; LPAREN; NUM (VInt 2); OP "-";
                  NUM (VInt 5); RPAREN; EOF])
    by (repeat constructor; simpl; auto).
  split; [exact HP|]. split; [reflexivity|].
  exact (integer_arithmetic_closed 20 _ (Ok (VInt (-3))) HP eq_refl).
Defined.

(** ** The cursor *)

Lemma moves_bind {A B : Type} (R1 R2 R3 : TokenStream -> TokenStream -> Prop)
    (m : run A) (k : A -> TokenStream -> run B) (ts0 : TokenStream) :
  (forall x y z, R1 x y -> R2 y z -> R3 x z) ->
  moves R1 m ts0 ->
  (forall a ts1, R1 ts0 ts1 -> moves R2 (k a ts1) ts1) ->
  moves R3 (bind m k) ts0.
Proof.
  intros Hc Hm Hk b ts H.
  destruct m as [[[a ts1]|e|]|]; simpl in H; try discriminate.
  pose proof (Hm a ts1 eq_refl) as H1.
  apply (Hc _ _ _ H1 (Hk a ts1 H1 b ts H)).
Qed.

Lemma consumed_kept x y z : consumed x y -> kept y z -> consumed x z.
Proof.
  unfold consumed, kept. intros (T1 & P1 & W1) (T2 & P2 & W2).
  repeat split; [congruence|lia|auto].
Qed.

Lemma kept_consumed x y z : kept x y -> consumed y z -> consumed x z.
Proof.
  unfold consumed, kept. intros (T1 & P1 & W1) (T2 & P2 & W2).
  repeat split; [congruence|lia|auto].
Qed.

Lemma consumed_consumed x y z : consumed x y -> consumed y z -> consumed x z.
Proof.
  unfold consumed. intros (T1 & P1 & W1) (T2 & P2 & W2).
  repeat split; [congruence|lia|auto].
Qed.

Lemma kept_kept x y z : kept x y -> kept y z -> kept x z.
Proof.
  unfold kept. intros (T1 & P1 & W1) (T2 & P2 & W2).
  repeat split; [congruence|lia|auto].
Qed.

Lemma kept_refl x : kept x x.
Proof. unfold kept. auto. Qed.

Lemma moves_ret (o : outcome value) (ts : TokenStream) :
  moves kept (ret o ts) ts.
Proof.
  intros v ts' H. unfold ret in H. destruct o; simpl in H; inversion H.
  apply kept_refl.
Qed.

Lemma moves_eat (k : kind) (value : option string) (ts : TokenStream) :
  k <> KEOF -> moves consumed (lift (eat k value ts)) ts.
Proof.
  intros Hk tok ts' H. unfold lift in H. inversion H as [H'].
  apply eat_remaining in H'; [|exact Hk].
  destruct H' as (Ht & Hp & Hr).
  unfold consumed, within. rewrite Ht, Hp. unfold remaining in Hr.
  rewrite Ht, Hp in Hr. repeat split; lia.
Qed.

Lemma moves_weaken {A : Type} (m : run A) (ts : TokenStream) :
  moves consumed m ts -> moves kept m ts.
Proof.
  intros H a ts' E. destruct (H a ts' E) as (T & P & W).
  unfold kept. repeat split; [assumption|lia|auto].
Qed.

Ltac seq_ck :=
  eapply (moves_bind consumed kept consumed);
  [exact consumed_kept | | intros ? ? _].
Ltac eat_first := seq_ck; [apply moves_eat; discriminate|].
Ltac seq_kk :=
  eapply (moves_bind kept kept kept);
  [exact kept_kept | apply moves_ret | intros ? ? _].

Lemma cursor (fuel : nat) : cursor_at fuel.
Proof.
  induction fuel as [|fuel IH].
  { refine (conj _ (conj _ (conj _ (conj _ (conj _ (conj _ (conj _ _)))))));
      unfold moves; intros; discriminate. }
  destruct IH as (Hprim & Hun & Hpow & Hml & Hmul & Hal & Hadd & Hexpr).
  refine (conj _ (conj _ (conj _ (conj _ (conj _ (conj _ (conj _ _))))))).
  - (* parse_primary *)
    intros ts. simpl.
    destruct (peek ts); try (unfold moves; intros; discriminate).
    + eat_first. apply moves_ret.
    + eat_first. apply moves_weaken.
      seq_ck; [apply Hexpr|]. apply moves_weaken.
      eat_first. apply moves_ret.
  - (* parse_unary *)
    intros ts. simpl.
    destruct (is_op (peek ts) "+"); [|destruct (is_op (peek ts) "-")].
    + eat_first. apply moves_weaken. seq_ck; [apply Hun|]. apply moves_ret.
    + eat_first. apply moves_weaken. seq_ck; [apply Hun|]. apply moves_ret.
    + apply Hprim.
  - (* parse_pow *)
    intros ts. simpl. seq_ck; [apply Hun|]. simpl.
    destruct (is_op (peek _) "**"); [|apply moves_ret].
    apply moves_weaken. eat_first. apply moves_weaken.
    seq_ck; [apply Hpow|]. apply moves_ret.
  - (* parse_mul_loop *)
    intros v ts. simpl.
    destruct (peek ts) as [|op| | |]; try apply moves_ret.
    destruct (is_mul_op op); [|apply moves_ret].
    apply moves_weaken. eat_first. apply moves_weaken.
    seq_ck; [apply Hpow|]. simpl. seq_kk. apply Hml.
  - (* parse_mul *)
    intros ts. simpl. seq_ck; [apply Hpow|]. apply Hml.
  - (* parse_add_loop *)
    intros v ts. simpl.
    destruct (is_op (peek ts) "+"); [|destruct (is_op (peek ts) "-")].
    + apply moves_weaken. eat_first. apply moves_weaken.
      seq_ck; [apply Hmul|]. simpl. seq_kk. apply Hal.
    + apply moves_weaken. eat_first. apply moves_weaken.
      seq_ck; [apply Hmul|]. simpl. seq_kk. apply Hal.
    + apply moves_ret.
  - (* parse_add *)
    intros ts. simpl. seq_ck; [apply Hmul|]. apply Hal.
  - (* parse_expr *)
    intros ts. simpl. apply Hadd.
Qed.

(** X5. The cursor: a successful [eat] returns the current token, which
    has the expected kind, and moves the cursor by exactly one on the same
    token list; every grammar rule that returns a value has consumed at
    least one token, left the token list unchanged and kept the cursor
    within the list. *)
Theorem cursor_moves_forward :
  (forall (k : kind) (value : option string) (ts ts' : TokenStream)
          (tok : token),
     eat k value ts = Ok (tok, ts') ->
     tok = peek ts /\ tok_kind tok = k
     /\ tokens ts' = tokens ts /\ pos ts' = pos ts + 1)
  /\ (forall (fuel : nat) (ts ts' : TokenStream) (v : value),
        parse_primary fuel ts = Some (Ok (v, ts'))
        \/ parse_unary fuel ts = Some (Ok (v, ts'))
        \/ parse_pow fuel ts = Some (Ok (v, ts'))
        \/ parse_mul fuel ts = Some (Ok (v, ts'))
        \/ parse_add fuel ts = Some (Ok (v, ts'))
        \/ parse_expr fuel ts = Some (Ok (v, ts')) ->
        tokens ts' = tokens ts
        /\ pos ts < pos ts' <= List.length (tokens ts)).
Proof.
  split; [exact eat_ok|].
  intros fuel ts ts' v H.
  destruct (cursor fuel) as (Hprim & Hun & Hpow & _ & Hmul & _ & Hadd & Hexpr).
  assert (Hc : consumed ts ts').
  { destruct H as [H|[H|[H|[H|[H|H]]]]];
      [apply (Hprim ts v ts' H)|apply (Hun ts v ts' H)|apply (Hpow ts v ts' H)
      |apply (Hmul ts v ts' H)|apply (Hadd ts v ts' H)
      |apply (Hexpr ts v ts' H)]. }
  destruct Hc as (Ht & Hp & Hw). unfold within in Hw. rewrite Ht in Hw.
  repeat split; assumption.
Qed.

Lemma cursor_moves_forward_witness :
  parse_expr 9 (stream_at toks_minus_pow 0)
  = Some (Ok (VInt 4, stream_at toks_minus_pow 4))
  /\ 0 < 4 <= List.length toks_minus_pow.
Proof.
  split; [reflexivity|].
  exact (proj2 (proj2 cursor_moves_forward 9 (stream_at toks_minus_pow 0)
                  (stream_at toks_minus_pow 4) (VInt 4)
                  (or_intror (or_intror (or_intror (or_intror
                     (or_intror eq_refl))))))).
Defined.

(** ** The tokenizer without fuel *)

Lemma lex_at (fuel : nat) (expression : string) (toks : list token) (i : nat) :
  String.length expression - i <= fuel ->
  tokenize_loop fuel expression toks i = Some (lex expression toks i).
Proof.
  intros Hf. unfold lex.
  destruct (tokenize_loop_enough (String.length expression - i) expression
              toks i (Nat.le_refl _)) as (o & Ho & _).
  rewrite Ho. apply (tokenize_loop_fuel_mono _ _ _ _ _ _ Hf Ho).
Qed.

Lemma tokenize_lex (expression : string) :
  tokenize expression = Some (lex expression [] 0).
Proof. apply lex_at. lia. Qed.

Lemma lex_eq (expression : string) (toks : list token) (i : nat) :
  lex expression toks i
  = if i <? String.length expression then
      match tokenize_step expression toks i with
      | Ok (toks', i') => lex expression toks' i'
      | Raise e => Raise e
      | OutOfModel => OutOfModel
      end
    else Ok (toks ++ [EOF]).
Proof.
  pose proof (lex_at (S (String.length expression - i)) expression toks i
                ltac:(lia)) as E.
  remember (String.length expression - i) as f eqn:Hf.
  cbn [tokenize_loop] in E.
  destruct (i <? String.length expression) eqn:Hlt; [|congruence].
  apply Nat.ltb_lt in Hlt.
  pose proof (tokenize_step_advances expression toks i Hlt) as Hs.
  destruct (tokenize_step expression toks i) as [[toks' i']|e|];
    [|congruence|congruence].
  rewrite lex_at in E by lia. congruence.
Qed.

Ltac step_cases :=
  repeat match goal with
         | |- context [if ?c then _ else _] => destruct c
         | |- context [match py_float ?x with _ => _ end] =>
             destruct (py_float x)
         | |- context [match py_int ?x with _ => _ end] =>
             destruct (py_int x)
         end.

(** An iteration appends to the tokens it is given. *)
Lemma tokenize_step_acc (expression : string) (acc : list token) (i : nat) :
  tokenize_step expression acc i
  = match tokenize_step expression [] i with
    | Ok (l, i') => Ok (acc ++ l, i')
    | Raise e => Raise e
    | OutOfModel => OutOfModel
    end.
Proof.
  unfold tokenize_step. step_cases; simpl; rewrite ?app_nil_r; reflexivity.
Qed.

Lemma tokenize_loop_acc (fuel : nat) (expression : string)
    (acc : list token) (i : nat) :
  tokenize_loop fuel expression acc i
  = option_map (prepend acc) (tokenize_loop fuel expression [] i).
Proof.
  revert acc i. induction fuel as [|fuel IH]; intros acc i; simpl.
  - destruct (i <? String.length expression); reflexivity.
  - destruct (i <? String.length expression); [|reflexivity].
    rewrite tokenize_step_acc.
    destruct (tokenize_step expression [] i) as [[l i']|e|]; try reflexivity.
    rewrite (IH (acc ++ l)), (IH l).
    destruct (tokenize_loop fuel expression [] i') as [[l'| |]|];
      simpl; try reflexivity.
    rewrite app_assoc. reflexivity.
Qed.

Lemma lex_acc (expression : string) (acc : list token) (i : nat) :
  lex expression acc i = prepend acc (lex expression [] i).
Proof.
  unfold lex. rewrite tokenize_loop_acc.
  destruct (tokenize_loop _ expression [] i); reflexivity.
Qed.

(** A character in front moves everything by one. *)
Lemma scan_digits_cons (k : nat) (c : ascii) (s : string) (i : nat) :
  scan_digits k (String c s) (S i) = S (scan_digits k s i).
Proof.
  revert i. induction k as [|k IH]; intros i; [reflexivity|].
  cbn [scan_digits]. change (char_at (String c s) (S i)) with (char_at s i).
  change (S i <? String.length (String c s)) with (i <? String.length s).
  destruct ((i <? String.length s) && isdigit (char_at s i)); [|reflexivity].
  apply (IH (i + 1)).
Qed.

Lemma tokenize_step_cons (c : ascii) (s : string) (toks : list token)
    (i : nat) :
  tokenize_step (String c s) toks (S i) = shift_step 1 (tokenize_step s toks i).
Proof.
  unfold tokenize_step.
  change (String.length (String c s) - S i) with (String.length s - i).
  change (char_at (String c s) (S i)) with (char_at s i).
  rewrite scan_digits_cons.
  set (j := scan_digits (String.length s - i) s i).
  change (S j <? String.length (String c s)) with (j <? String.length s).
  change (char_at (String c s) (S j)) with (char_at s j).
  change (String.length (String c s) <=? S j + 1)
    with (String.length s <=? j + 1).
  change (char_at (String c s) (S j + 1)) with (char_at s (j + 1)).
  change (String.length (String c s) - (S j + 1))
    with (String.length s - (j + 1)).
  change (S j + 1) with (S (j + 1)). rewrite scan_digits_cons.
  change (S i + 1 <? String.length (String c s))
    with (i + 1 <? String.length s).
  change (char_at (String c s) (S i + 1)) with (char_at s (i + 1)).
  set (j2 := scan_digits (String.length s - (j + 1)) s (j + 1)).
  change (substring (S i) (S j2 - S i) (String c s))
    with (substring i (j2 - i) s).
  change (substring (S i) (S j - S i) (String c s))
    with (substring i (j - i) s).
  step_cases; reflexivity.
Qed.

Lemma shift_outcome_add {A : Type} (k1 k2 : nat) (o : outcome A) :
  shift_outcome k1 (shift_outcome k2 o) = shift_outcome (k1 + k2) o.
Proof.
  destruct o as [a|e|]; try reflexivity. simpl.
  destruct e as [r| | |]; try reflexivity. simpl.
  destruct r; simpl; try reflexivity; rewrite Nat.add_assoc; reflexivity.
Qed.

Lemma shift_outcome_0 {A : Type} (o : outcome A) : shift_outcome 0 o = o.
Proof.
  destruct o as [a|e|]; try reflexivity.
  destruct e as [r| | |]; try reflexivity. destruct r; reflexivity.
Qed.

Lemma tokenize_loop_cons (fuel : nat) (c : ascii) (s : string)
    (toks : list token) (i : nat) :
  tokenize_loop fuel (String c s) toks (S i)
  = option_map (shift_outcome 1) (tokenize_loop fuel s toks i).
Proof.
  revert toks i. induction fuel as [|fuel IH]; intros toks i;
    cbn [tokenize_loop];
    change (S i <? String.length (String c s)) with (i <? String.length s).
  - destruct (i <? String.length s); reflexivity.
  - destruct (i <? String.length s); [|reflexivity].
    rewrite tokenize_step_cons.
    destruct (tokenize_step s toks i) as [[toks' i']|e|]; try reflexivity.
    apply IH.
Qed.

Lemma lex_cons (c : ascii) (s : string) (toks : list token) (i : nat) :
  lex (String c s) toks (S i) = shift_outcome 1 (lex s toks i).
Proof.
  unfold lex.
  change (String.length (String c s) - S i) with (String.length s - i).
  rewrite tokenize_loop_cons.
  destruct (tokenize_loop _ s toks i); reflexivity.
Qed.

(** The scan from the end of a prefix [p] is the scan of what follows. *)
Lemma lex_prefix (p q : string) (toks : list token) (i : nat) :
  lex (p ++ q) toks (String.length p + i)
  = shift_outcome (String.length p) (lex q toks i).
Proof.
  induction p as [|c p IH]; simpl.
  - symmetry. apply shift_outcome_0.
  - rewrite lex_cons, IH, shift_outcome_add. reflexivity.
Qed.

Lemma lex_skip_space (c : ascii) (s : string) (toks : list token) :
  isspace c = true ->
  lex (String c s) toks 0 = shift_outcome 1 (lex s toks 0).
Proof.
  intros Hc. rewrite lex_eq. cbn [String.length Nat.ltb Nat.leb].
  unfold tokenize_step. change (char_at (String c s) 0) with c.
  rewrite Hc. apply lex_cons.
Qed.

Lemma lex_skip_blank (ws s : string) (toks : list token) :
  blank ws = true ->
  lex (ws ++ s) toks 0 = shift_outcome (String.length ws) (lex s toks 0).
Proof.
  induction ws as [|c ws IH]; simpl; intros H.
  - symmetry. apply shift_outcome_0.
  - apply andb_true_iff in H. destruct H as [Hc Hw].
    rewrite (lex_skip_space c _ toks Hc), (IH Hw), shift_outcome_add.
    reflexivity.
Qed.

Lemma calculate_tokens_shift (k : nat) (toks : list token)
    (o : outcome value) :
  calculate_tokens (budget toks) toks = Some o -> shift_outcome k o = o.
Proof.
  intros H. destruct o as [v|e|]; try reflexivity.
  destruct (evaluator_exceptions _ _ _ H) as [He| ->]; [|reflexivity].
  destruct e as [r| | |]; try reflexivity.
  destruct He as [-> | ->]; reflexivity.
Qed.

Lemma calculate_expression_lex (expression : string) :
  calculate_expression expression
  = match lex expression [] 0 with
    | Ok toks => calculate_tokens (budget toks) toks
    | Raise e => Some (Raise e)
    | OutOfModel => Some OutOfModel
    end.
Proof. unfold calculate_expression. rewrite tokenize_lex. reflexivity. Qed.

(** X6. White space in front of an expression is skipped: the tokens are
    those of the rest of the string, and so is the result of the
    evaluation; only the positions reported by the tokenizer's errors
    move by the number of characters skipped. *)
Theorem leading_whitespace_skipped (ws expression : string) :
  blank ws = true ->
  tokenize (ws ++ expression)
  = option_map (shift_outcome (String.length ws)) (tokenize expression)
  /\ calculate_expression (ws ++ expression)
     = option_map (shift_outcome (String.length ws))
         (calculate_expression expression).
Proof.
  intros Hb. split.
  - rewrite !tokenize_lex, (lex_skip_blank _ _ _ Hb). reflexivity.
  - rewrite !calculate_expression_lex, (lex_skip_blank _ _ _ Hb).
    destruct (lex expression [] 0) as [toks|e|]; try reflexivity. simpl.
    destruct (calculate_tokens_total toks) as [o Ho]. rewrite Ho. simpl.
    rewrite (calculate_tokens_shift _ _ _ Ho). reflexivity.
Qed.

Lemma leading_whitespace_skipped_witness :
  blank "  " = true
  /\ calculate_expression "  7 // 2" = Some (Ok (VInt 3))
  /\ tokenize "  1 $" = Some (Raise (ParseError (BadChar "$" 4))).
Proof.
  split; [reflexivity|]. split.
  - exact (eq_trans
             (proj2 (leading_whitespace_skipped "  " "7 // 2" eq_refl))
             eq_refl).
  - exact (eq_trans
             (proj1 (leading_whitespace_skipped "  " "1 $" eq_refl))
             eq_refl).
Defined.

Lemma append_empty (s : string) : (s ++ "")%string = s.
Proof. induction s as [|c s IH]; simpl; [|rewrite IH]; reflexivity. Qed.

(** X7. The empty string, and every string of white space only,
    tokenizes to the single token EOF, and its evaluation raises
    ParseError (a number or a parenthesis was expected). *)
Theorem blank_input_rejected (expression : string) :
  blank expression = true ->
  tokenize expression = Some (Ok [EOF])
  /\ calculate_expression expression
     = Some (Raise (ParseError ExpectedNumberOrParen)).
Proof.
  intros Hb.
  assert (E : lex expression [] 0 = Ok [EOF]).
  { rewrite <- (append_empty expression), (lex_skip_blank _ _ _ Hb).
    reflexivity. }
  split.
  - rewrite tokenize_lex, E. reflexivity.
  - rewrite calculate_expression_lex, E. reflexivity.
Qed.

Lemma blank_input_rejected_witness :
  blank "" = true
  /\ tokenize "" = Some (Ok [EOF])
  /\ calculate_expression ""
     = Some (Raise (ParseError ExpectedNumberOrParen)).
Proof.
  split; [reflexivity|]. exact (blank_input_rejected "" eq_refl).
Defined.

(** ** The tokenizer on well-formed input *)

Lemma length_append (p q : string) :
  String.length (p ++ q) = String.length p + String.length q.
Proof. induction p as [|c p IH]; simpl; [|rewrite IH]; reflexivity. Qed.

Lemma append_assoc (p q r : string) :
  ((p ++ q) ++ r)%string = (p ++ (q ++ r))%string.
Proof. induction p as [|c p IH]; simpl; [|rewrite IH]; reflexivity. Qed.

Lemma char_at_append (p q : string) (i : nat) :
  char_at (p ++ q) (String.length p + i) = char_at q i.
Proof. induction p as [|c p IH]; simpl; [reflexivity|exact IH]. Qed.

Lemma substring_prefix (p q : string) :
  substring 0 (String.length p) (p ++ q) = p.
Proof.
  induction p as [|c p IH]; simpl.
  - destruct q; reflexivity.
  - rewrite IH. reflexivity.
Qed.

Lemma scan_digits_append (k : nat) (p q : string) (i : nat) :
  scan_digits k (p ++ q) (String.length p + i)
  = String.length p + scan_digits k q i.
Proof.
  induction p as [|c p IH]; simpl; [reflexivity|].
  rewrite scan_digits_cons, IH. reflexivity.
Qed.

Lemma ascii_digit_isdigit (c : ascii) :
  is_ascii_digit c = true -> isdigit c = true.
Proof. unfold isdigit. intros ->. reflexivity. Qed.

Lemma scan_digits_numeral (k : nat) (d rest : string) :
  digits_only d = true -> no_digit_first rest = true ->
  String.length d <= k ->
  scan_digits k (d ++ rest) 0 = String.length d.
Proof.
  revert k. induction d as [|c d IH]; intros k Hd Hr Hk.
  - simpl. destruct k; [reflexivity|]. simpl.
    destruct rest as [|w r]; [reflexivity|].
    simpl in Hr. apply negb_true_iff in Hr.
    change (char_at (String w r) 0) with w. rewrite Hr.
    rewrite andb_false_r. reflexivity.
  - simpl in Hd. apply andb_true_iff in Hd. destruct Hd as [Hc Hd].
    destruct k as [|k]; [simpl in Hk; lia|].
    cbn [scan_digits append]. change (char_at (String c (d ++ rest)) 0) with c.
    rewrite (ascii_digit_isdigit c Hc). cbn [String.length Nat.ltb Nat.leb andb].
    change (0 + 1) with 1. rewrite scan_digits_cons, IH; auto.
    simpl in Hk. lia.
Qed.

Lemma ascii_digit_not_space (c : ascii) :
  is_ascii_digit c = true -> isspace c = false.
Proof.
  destruct c as [[] [] [] [] [] [] [] []]; intros H;
    try discriminate; reflexivity.
Qed.

Lemma ascii_digit_not_point (c : ascii) :
  is_ascii_digit c = true -> Ascii.eqb c "." = false.
Proof.
  intros H. destruct (Ascii.eqb c ".") eqn:E; [|reflexivity].
  apply Ascii.eqb_eq in E. subst. discriminate.
Qed.

Lemma int_of_digits_some (acc : Z) (d : string) :
  digits_only d = true ->
  exists z, int_of_digits acc d = Some z /\ (0 <= acc -> 0 <= z)%Z.
Proof.
  revert acc. induction d as [|c d IH]; intros acc H; simpl.
  - eauto.
  - simpl in H. apply andb_true_iff in H. destruct H as [Hc Hd].
    rewrite Hc. destruct (IH (10 * acc + Z.of_nat (code c - 48))%Z Hd)
      as (z & Hz & Hpos).
    exists z. split; [exact Hz|]. intros Ha. apply Hpos. lia.
Qed.

Lemma digits_value_spec (d : string) :
  digits_only d = true -> int_of_digits 0 d = Some (digits_value d).
Proof.
  intros H. unfold digits_value.
  destruct (int_of_digits_some 0 d H) as (z & -> & _). reflexivity.
Qed.

Lemma numeral_inv (d : string) :
  numeral d = true ->
  exists c d', d = String c d' /\ is_ascii_digit c = true
               /\ digits_only d' = true /\ digits_only d = true.
Proof.
  unfold numeral. destruct d as [|c d']; [discriminate|]. simpl.
  intros H. apply andb_true_iff in H. destruct H as [Hc Hd].
  exists c, d'. rewrite Hc, Hd. auto.
Qed.

Lemma py_int_numeral (d : string) :
  numeral d = true -> String.length d <= int_max_str_digits ->
  py_int d = Some (digits_value d).
Proof.
  intros H Hl. destruct (numeral_inv d H) as (c & d' & -> & _ & _ & Hd).
  unfold py_int.
  replace (int_max_str_digits <? String.length (String c d')) with false
    by (symmetry; apply Nat.ltb_ge; exact Hl).
  apply digits_value_spec. exact Hd.
Qed.

Lemma digits_only_append (p q : string) :
  digits_only p = true -> digits_only q = true -> digits_only (p ++ q) = true.
Proof.
  induction p as [|c p IH]; simpl; intros Hp Hq; [exact Hq|].
  apply andb_true_iff in Hp. destruct Hp as [Hc Hp].
  rewrite Hc, (IH Hp Hq). reflexivity.
Qed.

Lemma split_point_numeral (ip fp : string) :
  digits_only ip = true -> split_point (ip ++ String "." fp) = (ip, fp).
Proof.
  induction ip as [|c ip IH]; simpl; intros H; [reflexivity|].
  apply andb_true_iff in H. destruct H as [Hc Hd].
  rewrite (ascii_digit_not_point c Hc), (IH Hd). reflexivity.
Qed.

Lemma py_float_numeral (ip fp : string) :
  numeral ip = true -> numeral fp = true ->
  py_float (ip ++ String "." fp)
  = Some (fdiv (Z2SF (digits_value (ip ++ fp)))
               (Z2SF (10 ^ Z.of_nat (String.length fp)))).
Proof.
  intros Hi Hf.
  destruct (numeral_inv ip Hi) as (c & ip' & E & _ & _ & Hdi).
  destruct (numeral_inv fp Hf) as (_ & _ & _ & _ & _ & Hdf).
  unfold py_float. rewrite (split_point_numeral ip fp Hdi).
  pose proof (digits_value_spec _ (digits_only_append _ _ Hdi Hdf)) as Hv.
  subst ip. cbn [append] in *. rewrite Hv. reflexivity.
Qed.

Lemma follows_number_no_digit (l : lexeme) (rest : string) :
  (exists d, l = LInt d) \/ (exists ip fp, l = LDec ip fp) ->
  follows l rest = true -> no_digit_first rest = true.
Proof.
  intros Hl H. destruct rest as [|w r]; [reflexivity|]. simpl in *.
  destruct Hl as [[d ->]|[ip [fp ->]]];
    apply andb_true_iff in H; tauto.
Qed.

Lemma no_point_after (d rest : string) (l : lexeme) :
  (exists d, l = LInt d) \/ (exists ip fp, l = LDec ip fp) ->
  follows l rest = true ->
  (String.length d <? String.length (d ++ rest))
  && Ascii.eqb (char_at (d ++ rest) (String.length d)) "." = false.
Proof.
  intros Hl H. destruct rest as [|w r].
  - rewrite append_empty, Nat.ltb_irrefl. reflexivity.
  - rewrite <- (Nat.add_0_r (String.length d)) at 2.
    rewrite char_at_append. change (char_at (String w r) 0) with w.
    simpl in H.
    assert (Ascii.eqb w "." = false) as ->.
    { destruct Hl as [[d0 ->]|[ip [fp ->]]];
        apply andb_true_iff in H; destruct H as [_ H];
        apply negb_true_iff in H; exact H. }
    apply andb_false_r.
Qed.

(** The iteration on an int literal. *)
Lemma step_int (d rest : string) (toks : list token) :
  numeral d = true -> String.length d <= int_max_str_digits ->
  follows (LInt d) rest = true ->
  tokenize_step (d ++ rest) toks 0
  = Ok (toks ++ [NUM (VInt (digits_value d))], String.length d).
Proof.
  intros Hn Hl Hf.
  destruct (numeral_inv d Hn) as (c & d' & E & Hc & Hd' & Hd).
  unfold tokenize_step.
  assert (Hch : char_at (d ++ rest) 0 = c) by (subst d; reflexivity).
  rewrite Hch, (ascii_digit_not_space c Hc), (ascii_digit_isdigit c Hc).
  cbv zeta. rewrite Nat.sub_0_r.
  rewrite (scan_digits_numeral _ d rest Hd
             (follows_number_no_digit _ _ (or_introl (ex_intro _ d eq_refl)) Hf))
    by (rewrite length_append; lia).
  rewrite (no_point_after d rest (LInt d)
             (or_introl (ex_intro _ d eq_refl)) Hf).
  rewrite Nat.sub_0_r, substring_prefix, (py_int_numeral d Hn Hl).
  reflexivity.
Qed.

(** The iteration on a decimal literal. *)
Lemma step_dec (ip fp rest : string) (toks : list token) :
  numeral ip = true -> numeral fp = true ->
  follows (LDec ip fp) rest = true ->
  tokenize_step ((ip ++ String "." fp) ++ rest) toks 0
  = Ok (toks ++ [lexeme_token (LDec ip fp)],
        String.length (ip ++ String "." fp)).
Proof.
  intros Hi Hf Hr.
  destruct (numeral_inv ip Hi) as (c & ip' & Ei & Hc & _ & Hdi).
  destruct (numeral_inv fp Hf) as (c2 & fp' & Ef & Hc2 & _ & Hdf).
  pose proof (follows_number_no_digit _ _
                (or_intror (ex_intro _ ip (ex_intro _ fp eq_refl))) Hr) as Hnd.
  remember ((ip ++ String "." fp) ++ rest)%string as S eqn:ES.
  assert (E1 : S = (ip ++ String "." (fp ++ rest))%string)
    by (rewrite ES, append_assoc; reflexivity).
  assert (E2 : S = ((ip ++ String "." "") ++ (fp ++ rest))%string)
    by (rewrite E1, append_assoc; reflexivity).
  assert (Lp : String.length (ip ++ String "." "") = String.length ip + 1)
    by (rewrite length_append; reflexivity).
  assert (F3 : String.length S
               = String.length ip + 1 + String.length fp + String.length rest)
    by (rewrite E2, !length_append; simpl; lia).
  assert (F0 : char_at S 0 = c) by (rewrite E1, Ei; reflexivity).
  assert (F1 : scan_digits (String.length S - 0) S 0 = String.length ip).
  { rewrite E1 at 2. apply scan_digits_numeral; [exact Hdi|reflexivity|lia]. }
  assert (F2 : char_at S (String.length ip) = "."%char).
  { rewrite E1, <- (Nat.add_0_r (String.length ip)), char_at_append.
    reflexivity. }
  assert (F4 : char_at S (String.length ip + 1) = c2).
  { rewrite E2, <- Lp, <- (Nat.add_0_r (String.length (ip ++ String "." ""))),
      char_at_append, Ef. reflexivity. }
  assert (F5 : scan_digits (String.length S - (String.length ip + 1)) S
                 (String.length ip + 1)
               = String.length ip + 1 + String.length fp).
  { replace (String.length ip + 1)
      with (String.length (ip ++ String "." "") + 0) by (rewrite Lp; lia).
    rewrite E2 at 2.
    rewrite scan_digits_append, scan_digits_numeral;
      [lia|exact Hdf|exact Hnd|].
    rewrite F3, Lp. lia. }
  assert (F6 : substring 0 (String.length ip + 1 + String.length fp - 0) S
               = (ip ++ String "." fp)%string).
  { rewrite ES, Nat.sub_0_r.
    replace (String.length ip + 1 + String.length fp)
      with (String.length (ip ++ String "." fp))
      by (rewrite length_append; simpl; lia).
    apply substring_prefix. }
  unfold tokenize_step.
  rewrite F0, (ascii_digit_not_space c Hc), (ascii_digit_isdigit c Hc).
  cbv zeta. rewrite F1, F2.
  replace (String.length ip <? String.length S) with true
    by (symmetry; apply Nat.ltb_lt; lia).
  cbn [andb Ascii.eqb Bool.eqb]. rewrite F4, (ascii_digit_isdigit c2 Hc2).
  replace (String.length S <=? String.length ip + 1) with false
    by (symmetry; apply Nat.leb_gt; rewrite F3, Ef; simpl; lia).
  cbn [orb negb]. rewrite F5, F6, (py_float_numeral ip fp Hi Hf).
  rewrite length_append. simpl. f_equal. f_equal. lia.
Qed.

(** The iteration on an operator or a parenthesis. *)
Lemma step_symbol (l : lexeme) (rest : string) (toks : list token) :
  match l with LInt _ | LDec _ _ => False | _ => True end ->
  follows l rest = true ->
  tokenize_step (lexeme_text l ++ rest) toks 0
  = Ok (toks ++ [lexeme_token l], String.length (lexeme_text l)).
Proof.
  intros Hl Hf.
  destruct l as [d|ip fp|o| |]; try contradiction;
    [destruct o|..]; destruct rest as [|w r]; try reflexivity;
    simpl in Hf; apply negb_true_iff in Hf;
    unfold tokenize_step; cbn; rewrite Hf; reflexivity.
Qed.

Lemma step_lexeme (l : lexeme) (rest : string) (toks : list token) :
  wf_lexeme l = true -> follows l rest = true ->
  tokenize_step (lexeme_text l ++ rest) toks 0
  = Ok (toks ++ [lexeme_token l], String.length (lexeme_text l))
  /\ 0 < String.length (lexeme_text l).
Proof.
  intros Hw Hf. destruct l as [d|ip fp|o| |].
  - cbn [wf_lexeme] in Hw. apply andb_true_iff in Hw. destruct Hw as [Hw Hl].
    apply Nat.leb_le in Hl.
    split; [apply step_int; assumption|].
    destruct (numeral_inv d Hw) as (c & d' & -> & _). simpl. lia.
  - simpl in Hw. apply andb_true_iff in Hw. destruct Hw as [Hi Hp].
    split; [apply step_dec; assumption|].
    destruct (numeral_inv ip Hi) as (c & d' & -> & _). simpl. lia.
  - split; [apply step_symbol; [exact I|exact Hf]|]. destruct o; simpl; lia.
  - split; [apply step_symbol; [exact I|exact Hf]|]. simpl; lia.
  - split; [apply step_symbol; [exact I|exact Hf]|]. simpl; lia.
Qed.

Lemma lex_lexeme (l : lexeme) (rest : string) (toks : list token) :
  wf_lexeme l = true -> follows l rest = true ->
  lex (lexeme_text l ++ rest) toks 0
  = shift_outcome (String.length (lexeme_text l))
      (lex rest (toks ++ [lexeme_token l]) 0).
Proof.
  intros Hw Hf. destruct (step_lexeme l rest toks Hw Hf) as [Hs Hl].
  rewrite lex_eq, Hs.
  replace (0 <? String.length (lexeme_text l ++ rest)) with true
    by (symmetry; apply Nat.ltb_lt; rewrite length_append; lia).
  rewrite <- (Nat.add_0_r (String.length (lexeme_text l))) at 1.
  apply lex_prefix.
Qed.

Lemma lex_items (items : list (lexeme * string)) (toks : list token) :
  wf_items items = true ->
  lex (render items) toks 0 = Ok (toks ++ lexeme_tokens items ++ [EOF]).
Proof.
  revert toks. induction items as [|[l ws] items IH]; intros toks Hw.
  - rewrite lex_eq. reflexivity.
  - simpl in Hw.
    apply andb_true_iff in Hw. destruct Hw as [Hw Hi].
    apply andb_true_iff in Hw. destruct Hw as [Hw Hf].
    apply andb_true_iff in Hw. destruct Hw as [Hl Hb].
    cbn [render]. rewrite (lex_lexeme _ _ _ Hl Hf), (lex_skip_blank _ _ _ Hb).
    rewrite (IH _ Hi). simpl. rewrite <- app_assoc. reflexivity.
Qed.

(** X8. The tokenizer on well-formed input: a string made of int
    literals of at most [int_max_str_digits] digits, decimal literals,
    operators and parentheses, each followed by any amount of white space
    (none included, unless a digit or a point would follow a number, [*] a
    [*], or [/] a [/]), tokenizes to the tokens of these lexemes in order,
    followed by EOF; white space in front is skipped. *)
Theorem tokenize_lexemes (ws : string) (items : list (lexeme * string)) :
  blank ws = true ->
  wf_items items = true ->
  tokenize (ws ++ render items) = Some (Ok (lexeme_tokens items ++ [EOF])).
Proof.
  intros Hb Hw.
  rewrite tokenize_lex, (lex_skip_blank _ _ _ Hb), (lex_items _ _ Hw).
  reflexivity.
Qed.

Lemma tokenize_lexemes_witness :
  blank " " = true
  /\ wf_items [(LOpen, ""%string); (LDec "12" "50", " "%string);
               (LOp OPow, ""%string); (LInt "3", ""%string);
               (LClose, "  "%string)] = true
  /\ tokenize " (12.50 **3)  "
     = Some (Ok [LPAREN;
                 NUM (VFloat (S754_finite false 7036874417766400 (-49)));
                 OP "**"; NUM (VInt 3); RPAREN; EOF]).
Proof.
  split; [reflexivity|]. split; [reflexivity|].
  exact (tokenize_lexemes " "
           [(LOpen, ""%string); (LDec "12" "50", " "%string);
            (LOp OPow, ""%string); (LInt "3", ""%string);
            (LClose, "  "%string)] eq_refl eq_refl).
Defined.

(** X9. From the string to the value: a well-formed string (int
    literals of at most [int_max_str_digits] digits) whose lexemes are the
    tokens of an expression of the grammar evaluates to the value of that
    expression. *)
Theorem evaluate_well_formed_string (ws : string)
    (items : list (lexeme * string)) (e : add_expr) :
  blank ws = true ->
  wf_items items = true ->
  lexeme_tokens items = tokens_of_add e ->
  calculate_expression (ws ++ render items) = Some (eval_add e).
Proof.
  intros Hb Hw He.
  rewrite calculate_expression_lex, (lex_skip_blank _ _ _ Hb),
    (lex_items _ _ Hw).
  simpl. rewrite He, calculate_tokens_eq, stream_at_0, run_expr_tokens
    by reflexivity.
  destruct (eval_add e) as [v| |]; simpl; try reflexivity.
  rewrite peek_at. reflexivity.
Qed.

Lemma evaluate_well_formed_string_witness :
  blank "" = true
  /\ wf_items [(LInt "10", " "%string); (LOp OMinus, " "%string);
               (LInt "2", " "%string); (LOp OMinus, " "%string);
               (LInt "3", ""%string)] = true
  /\ calculate_expression "10 - 2 - 3" = Some (Ok (VInt 5)).
Proof.
  split; [reflexivity|]. split; [reflexivity|].
  exact (evaluate_well_formed_string ""
           [(LInt "10", " "%string); (LOp OMinus, " "%string);
            (LInt "2", " "%string); (LOp OMinus, " "%string);
            (LInt "3", ""%string)]
           (Sub (Sub (Mul (Pow (Unary (Primary (Num (VInt 10))))))
                     (Pow (Unary (Primary (Num (VInt 2))))))
                (Pow (Unary (Primary (Num (VInt 3))))))
           eq_refl eq_refl eq_refl).
Defined.

(** ** Integer literals *)

Lemma digits_only_uint (d : Decimal.uint) :
  digits_only (DecimalString.NilEmpty.string_of_uint d) = true.
Proof. induction d; simpl; auto. Qed.

Lemma int_of_digits_uint (d : Decimal.uint) (acc : nat) :
  int_of_digits (Z.of_nat acc) (DecimalString.NilEmpty.string_of_uint d)
  = Some (Z.of_nat (Nat.of_uint_acc d acc)).
Proof.
  revert acc. induction d as [|d IH|d IH|d IH|d IH|d IH|d IH|d IH|d IH|d IH|d IH];
    intros acc; cbn [DecimalString.NilEmpty.string_of_uint int_of_digits
                     Nat.of_uint_acc];
    [reflexivity|..];
    match goal with
    | |- context [is_ascii_digit ?c] =>
        change (is_ascii_digit c) with true; cbv iota
    end;
    rewrite <- IH; f_equal; rewrite Nat.tail_mul_spec.
  all: unfold code; simpl nat_of_ascii; simpl Nat.sub; lia.
Qed.

Lemma numeral_decimal (n : nat) : numeral (decimal n) = true.
Proof.
  unfold decimal, DecimalString.NilZero.string_of_uint.
  destruct (Nat.to_uint n) eqn:E; try reflexivity;
    unfold numeral; rewrite digits_only_uint; reflexivity.
Qed.

Lemma digits_value_decimal (n : nat) : digits_value (decimal n) = Z.of_nat n.
Proof.
  pose proof (DecimalNat.Unsigned.of_to n) as H.
  unfold Nat.of_uint in H.
  unfold digits_value, decimal, DecimalString.NilZero.string_of_uint.
  destruct (Nat.to_uint n) as [|d|d|d|d|d|d|d|d|d|d] eqn:E;
    try (change 0%Z with (Z.of_nat 0); rewrite int_of_digits_uint, H;
         reflexivity).
  simpl in H. subst n. reflexivity.
Qed.

(** X10. Integer literals: for every natural number [n] whose decimal
    writing has at most [int_max_str_digits] digits, [int] reads back the
    decimal writing of [n], the tokenizer turns it into the single number
    token [n], and its evaluation returns the int [n]. *)
Theorem integer_literal (n : nat) :
  String.length (decimal n) <= int_max_str_digits ->
  py_int (decimal n) = Some (Z.of_nat n)
  /\ tokenize (decimal n) = Some (Ok [NUM (VInt (Z.of_nat n)); EOF])
  /\ calculate_expression (decimal n) = Some (Ok (VInt (Z.of_nat n))).
Proof.
  intros Hlen.
  assert (Hw : wf_items [(LInt (decimal n), ""%string)] = true).
  { cbn [wf_items wf_lexeme blank follows]. rewrite numeral_decimal.
    apply Nat.leb_le in Hlen. rewrite Hlen. reflexivity. }
  assert (El : lex (decimal n) [] 0 = Ok [NUM (VInt (Z.of_nat n)); EOF]).
  { pose proof (lex_items _ [] Hw) as H. cbn [render lexeme_text] in H.
    rewrite !append_empty in H. rewrite H.
    unfold lexeme_tokens. simpl. rewrite digits_value_decimal. reflexivity. }
  split; [|split].
  - rewrite (py_int_numeral _ (numeral_decimal n) Hlen), digits_value_decimal.
    reflexivity.
  - rewrite tokenize_lex, El. reflexivity.
  - rewrite calculate_expression_lex, El. reflexivity.
Qed.

Lemma integer_literal_witness :
  String.length (decimal 2024) <= int_max_str_digits
  /\ py_int (decimal 2024) = Some 2024%Z
  /\ tokenize (decimal 2024) = Some (Ok [NUM (VInt 2024); EOF])
  /\ calculate_expression (decimal 2024) = Some (Ok (VInt 2024)).
Proof.
  assert (H : String.length (decimal 2024) <= int_max_str_digits)
    by (vm_compute; lia).
  split; [exact H|]. exact (integer_literal 2024 H).
Defined.

(** ** Int literals beyond the digit limit *)

Lemma py_int_long (d : string) :
  numeral d = true -> int_max_str_digits < String.length d ->
  py_int d = None.
Proof.
  intros H Hl. destruct (numeral_inv d H) as (c & d' & -> & _).
  unfold py_int.
  replace (int_max_str_digits <? String.length (String c d')) with true
    by (symmetry; apply Nat.ltb_lt; exact Hl).
  reflexivity.
Qed.

Lemma step_int_long (d rest : string) (toks : list token) :
  numeral d = true -> int_max_str_digits < String.length d ->
  follows (LInt d) rest = true ->
  tokenize_step (d ++ rest) toks 0 = Raise (ParseError BadNumber).
Proof.
  intros Hn Hl Hf.
  destruct (numeral_inv d Hn) as (c & d' & E & Hc & Hd' & Hd).
  unfold tokenize_step.
  assert (Hch : char_at (d ++ rest) 0 = c) by (subst d; reflexivity).
  rewrite Hch, (ascii_digit_not_space c Hc), (ascii_digit_isdigit c Hc).
  cbv zeta. rewrite Nat.sub_0_r.
  rewrite (scan_digits_numeral _ d rest Hd
             (follows_number_no_digit _ _ (or_introl (ex_intro _ d eq_refl)) Hf))
    by (rewrite length_append; lia).
  rewrite (no_point_after d rest (LInt d)
             (or_introl (ex_intro _ d eq_refl)) Hf).
  rewrite Nat.sub_0_r, substring_prefix, (py_int_long d Hn Hl).
  reflexivity.
Qed.

(** X19. The digit limit of [int]: an int literal of more than
    [int_max_str_digits] digits (4300), after any white space and
    followed by the end of the string or by a character that is neither a
    digit nor a point, is refused: [int] raises ValueError, which
    [tokenize] turns into ParseError, and [calculate_expression] raises
    it. *)
Theorem long_literal_rejected (ws d rest : string) :
  blank ws = true ->
  numeral d = true ->
  int_max_str_digits < String.length d ->
  follows (LInt d) rest = true ->
  tokenize (ws ++ d ++ rest) = Some (Raise (ParseError BadNumber))
  /\ calculate_expression (ws ++ d ++ rest)
     = Some (Raise (ParseError BadNumber)).
Proof.
  intros Hb Hn Hl Hf.
  assert (El : lex (ws ++ d ++ rest) [] 0 = Raise (ParseError BadNumber)).
  { rewrite (lex_skip_blank _ _ _ Hb), lex_eq.
    replace (0 <? String.length (d ++ rest)) with true.
    - rewrite (step_int_long d rest [] Hn Hl Hf). reflexivity.
    - symmetry. apply Nat.ltb_lt. rewrite length_append. lia. }
  split.
  - rewrite tokenize_lex, El. reflexivity.
  - rewrite calculate_expression_lex, El. reflexivity.
Qed.

Lemma long_literal_rejected_witness :
  blank " " = true
  /\ numeral (repeat_char "1" 4301) = true
  /\ int_max_str_digits < String.length (repeat_char "1" 4301)
  /\ follows (LInt (repeat_char "1" 4301)) " + 1" = true
  /\ calculate_expression (" " ++ repeat_char "1" 4301 ++ " + 1")
     = Some (Raise (ParseError BadNumber)).
Proof.
  assert (H1 : numeral (repeat_char "1" 4301) = true)
    by (vm_compute; reflexivity).
  assert (H2 : int_max_str_digits < String.length (repeat_char "1" 4301))
    by (vm_compute; lia).
  assert (H3 : follows (LInt (repeat_char "1" 4301)) " + 1" = true)
    by reflexivity.
  split; [reflexivity|]. split; [exact H1|]. split; [exact H2|].
  split; [exact H3|].
  exact (proj2 (long_literal_rejected " " (repeat_char "1" 4301) " + 1"
                  eq_refl H1 H2 H3)).
Defined.

(** ** What the tokenizer accepts *)

Lemma substring_split (s : string) (a l1 l2 : nat) :
  substring a (l1 + l2) s
  = (substring a l1 s ++ substring (a + l1) l2 s)%string.
Proof.
  revert a l1. induction s as [|c s IH]; intros a l1.
  - destruct a, l1, l2; reflexivity.
  - destruct a as [|a].
    + destruct l1 as [|l1]; [reflexivity|].
      simpl. rewrite (IH 0 l1). reflexivity.
    + simpl. apply IH.
Qed.

Lemma substring_one (s : string) (a : nat) :
  a < String.length s -> substring a 1 s = String (char_at s a) EmptyString.
Proof.
  revert a. induction s as [|c s IH]; intros a H; [simpl in H; lia|].
  destruct a as [|a].
  - simpl. destruct s; reflexivity.
  - simpl in H. change (char_at (String c s) (S a)) with (char_at s a).
    simpl. apply IH. lia.
Qed.

Lemma substring_all (s : string) : substring 0 (String.length s) s = s.
Proof. induction s as [|c s IH]; simpl; [|rewrite IH]; reflexivity. Qed.

Lemma substring_nil (s : string) (a : nat) :
  String.length s <= a -> forall l, substring a l s = EmptyString.
Proof.
  revert a. induction s as [|c s IH]; intros a H l.
  - destruct a, l; reflexivity.
  - destruct a as [|a]; [simpl in H; lia|]. simpl. apply IH. simpl in H. lia.
Qed.

Lemma suffix_0 (s : string) : suffix 0 s = s.
Proof. unfold suffix. rewrite Nat.sub_0_r. apply substring_all. Qed.

Lemma suffix_end (s : string) (i : nat) :
  String.length s <= i -> suffix i s = EmptyString.
Proof. intros H. apply substring_nil. exact H. Qed.

Lemma suffix_split (s : string) (i j : nat) :
  i <= j -> j <= String.length s ->
  suffix i s = (substring i (j - i) s ++ suffix j s)%string.
Proof.
  intros Hij Hj. unfold suffix.
  replace (String.length s - i) with ((j - i) + (String.length s - j)) by lia.
  rewrite substring_split. replace (i + (j - i)) with j by lia. reflexivity.
Qed.

Lemma suffix_char (s : string) (i : nat) :
  i < String.length s ->
  suffix i s = String (char_at s i) (suffix (i + 1) s).
Proof.
  intros H. rewrite (suffix_split s i (i + 1)) by lia.
  replace (i + 1 - i) with 1 by lia. rewrite substring_one by exact H.
  reflexivity.
Qed.

(** The characters that [scan_digits] passes are digits. *)
Lemma scan_digits_all (k : nat) (s : string) (i j : nat) :
  i <= j -> j < scan_digits k s i -> isdigit (char_at s j) = true.
Proof.
  revert i. induction k as [|k IH]; intros i Hij Hj; simpl in Hj; [lia|].
  destruct ((i <? String.length s) && isdigit (char_at s i)) eqn:Hc; [|lia].
  apply andb_true_iff in Hc. destruct Hc as [_ Hd].
  destruct (Nat.eq_dec i j) as [->|Hne]; [exact Hd|].
  apply (IH (i + 1)); [lia|exact Hj].
Qed.

Lemma all_chars_substring (p : ascii -> bool) (s : string) (a l : nat) :
  a + l <= String.length s ->
  (forall k, a <= k -> k < a + l -> p (char_at s k) = true) ->
  all_chars p (substring a l s) = true.
Proof.
  revert a. induction l as [|l IH]; intros a Hl Hp.
  - assert (E : substring a 0 s = EmptyString).
    { clear. revert a. induction s as [|c s IH]; intros a;
        destruct a; simpl; auto. }
    rewrite E. reflexivity.
  - change (S l) with (1 + l). rewrite substring_split, substring_one by lia.
    simpl. rewrite (Hp a) by lia. simpl. apply IH; [lia|].
    intros k H1 H2. apply Hp; lia.
Qed.

Lemma all_chars_append (p : ascii -> bool) (a b : string) :
  all_chars p (a ++ b) = all_chars p a && all_chars p b.
Proof.
  induction a as [|c a IH]; simpl; [reflexivity|].
  rewrite IH, andb_assoc. reflexivity.
Qed.

Lemma digits_only_all_chars (s : string) :
  digits_only s = all_chars is_ascii_digit s.
Proof. induction s as [|c s IH]; simpl; [|rewrite IH]; reflexivity. Qed.

Lemma int_of_digits_digits_only (acc : Z) (s : string) (z : Z) :
  int_of_digits acc s = Some z -> digits_only s = true.
Proof.
  revert acc. induction s as [|c s IH]; intros acc H; simpl in *;
    [reflexivity|].
  destruct (is_ascii_digit c); [|discriminate]. simpl. eapply IH. exact H.
Qed.

Lemma split_point_no_point (a b : string) :
  all_chars (fun c => negb (Ascii.eqb c ".")) a = true ->
  split_point (a ++ String "." b) = (a, b).
Proof.
  induction a as [|c a IH]; simpl; intros H; [reflexivity|].
  apply andb_true_iff in H. destruct H as [Hc Ha].
  apply negb_true_iff in Hc. rewrite Hc, (IH Ha). reflexivity.
Qed.

Lemma isdigit_not_point (c : ascii) :
  isdigit c = true -> negb (Ascii.eqb c ".") = true.
Proof.
  intros H. destruct (Ascii.eqb c ".") eqn:E; [|reflexivity].
  apply Ascii.eqb_eq in E. subst. discriminate.
Qed.

Lemma substring_nonempty (s : string) (a l : nat) :
  a < String.length s -> 0 < l ->
  negb (String.eqb (substring a l s) "") = true.
Proof.
  intros Ha Hl. destruct l as [|l]; [lia|].
  change (S l) with (1 + l). rewrite substring_split, substring_one by exact Ha.
  reflexivity.
Qed.

Lemma py_int_inv (t : string) (val : Z) :
  negb (String.eqb t "") = true -> py_int t = Some val ->
  numeral t = true /\ String.length t <= int_max_str_digits
  /\ val = digits_value t.
Proof.
  intros Hn H. destruct t as [|c t]; [discriminate|].
  unfold py_int in H.
  destruct (int_max_str_digits <? String.length (String c t)) eqn:Hl;
    [discriminate|].
  apply Nat.ltb_ge in Hl.
  pose proof (int_of_digits_digits_only _ _ _ H) as Hd.
  unfold numeral, digits_value. rewrite Hd, H. auto.
Qed.

Lemma py_float_inv (a b : string) (val : float) :
  all_chars (fun c => negb (Ascii.eqb c ".")) a = true ->
  negb (String.eqb a "") = true -> negb (String.eqb b "") = true ->
  py_float (a ++ String "." b) = Some val ->
  numeral a = true /\ numeral b = true
  /\ val = fdiv (Z2SF (digits_value (a ++ b)))
                (Z2SF (10 ^ Z.of_nat (String.length b))).
Proof.
  intros Hp Ha Hb H. unfold py_float in H.
  rewrite (split_point_no_point a b Hp) in H.
  destruct a as [|c a]; [discriminate|]. cbn [append] in H.
  destruct (int_of_digits 0 (String c (a ++ b))) as [m|] eqn:Em;
    [|discriminate].
  pose proof (int_of_digits_digits_only _ _ _ Em) as Hd.
  change (String c (a ++ b)) with (String c a ++ b)%string in Hd, Em.
  rewrite digits_only_all_chars, all_chars_append in Hd.
  apply andb_true_iff in Hd. destruct Hd as [Hda Hdb].
  unfold numeral. rewrite !digits_only_all_chars, Hda, Hdb, Hb.
  repeat split. unfold digits_value. rewrite Em. congruence.
Qed.

Lemma follows_step_suffix (l : lexeme) (s : string) (j : nat) (p : ascii -> bool) :
  (forall rest, follows_step l (String (char_at s j) rest)
                = p (char_at s j)) ->
  (j < String.length s -> p (char_at s j) = true) ->
  follows_step l (suffix j s) = true.
Proof.
  intros Hf Hp. destruct (Nat.lt_ge_cases j (String.length s)) as [H|H].
  - rewrite (suffix_char s j H), Hf. apply Hp. exact H.
  - rewrite (suffix_end s j H). reflexivity.
Qed.

Lemma tokenize_step_sound (s : string) (toks toks' : list token) (i i' : nat) :
  i < String.length s ->
  tokenize_step s toks i = Ok (toks', i') ->
  (toks' = toks /\ i' = i + 1 /\ isspace (char_at s i) = true)
  \/ (exists l, toks' = toks ++ [lexeme_token l]
                /\ wf_lexeme l = true
                /\ substring i (i' - i) s = lexeme_text l
                /\ i < i' /\ i' <= String.length s
                /\ follows_step l (suffix i' s) = true).
Proof.
  intros Hi H. unfold tokenize_step in H.
  set (n := String.length s) in *.
  destruct (isspace (char_at s i)) eqn:Hsp.
  { inversion H; subst. left. auto. }
  right.
  destruct (isdigit (char_at s i)) eqn:Hd.
  - (* a number *)
    assert (H1 : i < scan_digits (n - i) s i)
      by (apply scan_digits_first; [exact Hi|exact Hd|lia]).
    assert (H2 : scan_digits (n - i) s i <= n)
      by (apply scan_digits_le; fold n; lia).
    pose proof (scan_digits_exit (n - i) s i (Nat.le_refl _)) as Hx.
    pose proof (fun k => scan_digits_all (n - i) s i k) as Hall.
    cbv zeta in Hx. fold n in Hx.
    set (j := scan_digits (n - i) s i) in *.
    assert (Ha : all_chars (fun c => negb (Ascii.eqb c ".")) (substring i (j - i) s)
                 = true).
    { apply all_chars_substring; [fold n; lia|].
      intros k K1 K2. apply isdigit_not_point. apply Hall; lia. }
    assert (Hna : negb (String.eqb (substring i (j - i) s) "") = true)
      by (apply substring_nonempty; [exact Hi|lia]).
    destruct ((j <? n) && Ascii.eqb (char_at s j) ".") eqn:Hpt.
    + (* a decimal literal *)
      apply andb_true_iff in Hpt. destruct Hpt as [Hjn Hpt].
      apply Nat.ltb_lt in Hjn. apply Ascii.eqb_eq in Hpt.
      destruct ((n <=? j + 1) || negb (isdigit (char_at s (j + 1)))) eqn:Hq;
        [discriminate|].
      apply orb_false_iff in Hq. destruct Hq as [Hq Hd2].
      apply Nat.leb_gt in Hq. apply negb_false_iff in Hd2.
      assert (H3 : j + 1 < scan_digits (n - (j + 1)) s (j + 1))
        by (apply scan_digits_first; [exact Hq|exact Hd2|lia]).
      assert (H4 : scan_digits (n - (j + 1)) s (j + 1) <= n)
        by (apply scan_digits_le; fold n; lia).
      pose proof (scan_digits_exit (n - (j + 1)) s (j + 1) (Nat.le_refl _))
        as Hx2.
      cbv zeta in Hx2. fold n in Hx2.
      set (j2 := scan_digits (n - (j + 1)) s (j + 1)) in *.
      assert (ET : substring i (j2 - i) s
                   = (substring i (j - i) s
                      ++ String "." (substring (j + 1) (j2 - (j + 1)) s))%string).
      { replace (j2 - i) with ((j - i) + (1 + (j2 - (j + 1)))) by lia.
        rewrite substring_split. replace (i + (j - i)) with j by lia.
        rewrite substring_split, substring_one by exact Hjn.
        rewrite Hpt. reflexivity. }
      rewrite ET in H.
      assert (Hnb : negb (String.eqb (substring (j + 1) (j2 - (j + 1)) s) "")
                    = true)
        by (apply substring_nonempty; [exact Hq|lia]).
      destruct (py_float _) as [val|] eqn:Ef; [|discriminate].
      destruct (py_float_inv _ _ _ Ha Hna Hnb Ef) as (Na & Nb & Ev).
      inversion H; subst toks' i'.
      exists (LDec (substring i (j - i) s) (substring (j + 1) (j2 - (j + 1)) s)).
      simpl. rewrite Na, Nb, <- Ev, ET.
      repeat split; try lia; try reflexivity.
      apply (follows_step_suffix _ s j2
               (fun c => negb (isdigit c))); [reflexivity|].
      intros Hlt. apply Nat.ltb_lt in Hlt. fold n in Hlt.
      rewrite Hlt in Hx2. simpl in Hx2. rewrite Hx2. reflexivity.
    + (* an int literal *)
      destruct (py_int _) as [val|] eqn:Ei; [|discriminate].
      destruct (py_int_inv _ _ Hna Ei) as (Nt & Nl & Ev).
      apply Nat.leb_le in Nl.
      inversion H; subst toks' i'.
      exists (LInt (substring i (j - i) s)).
      cbn [wf_lexeme lexeme_token lexeme_text]. rewrite Nt, Nl, <- Ev.
      repeat split; try lia; try reflexivity.
      apply (follows_step_suffix _ s j
               (fun c => negb (isdigit c) && negb (Ascii.eqb c ".")));
        [reflexivity|].
      intros Hlt. apply Nat.ltb_lt in Hlt. fold n in Hlt.
      rewrite Hlt in Hx, Hpt. simpl in Hx, Hpt. rewrite Hx, Hpt. reflexivity.
  - (* a symbol *)
    assert (Hone : substring i (i + 1 - i) s
                   = String (char_at s i) EmptyString).
    { replace (i + 1 - i) with 1 by lia. apply substring_one. exact Hi. }
    destruct (Ascii.eqb (char_at s i) "(") eqn:E1.
    { apply Ascii.eqb_eq in E1. inversion H; subst toks' i'.
      exists LOpen. rewrite Hone, E1.
      repeat split; try (fold n; lia).
      apply (follows_step_suffix _ s (i + 1) (fun _ => true));
        [reflexivity|reflexivity]. }
    destruct (Ascii.eqb (char_at s i) ")") eqn:E2.
    { apply Ascii.eqb_eq in E2. inversion H; subst toks' i'.
      exists LClose. rewrite Hone, E2.
      repeat split; try (fold n; lia).
      apply (follows_step_suffix _ s (i + 1) (fun _ => true));
        [reflexivity|reflexivity]. }
    destruct (Ascii.eqb (char_at s i) "*") eqn:E3.
    { apply Ascii.eqb_eq in E3.
      destruct ((i + 1 <? n) && Ascii.eqb (char_at s (i + 1)) "*") eqn:Hs.
      - apply andb_true_iff in Hs. destruct Hs as [Hs Hc].
        apply Nat.ltb_lt in Hs. apply Ascii.eqb_eq in Hc.
        inversion H; subst toks' i'. exists (LOp OPow).
        replace (i + 2 - i) with (1 + 1) by lia.
        rewrite substring_split, !substring_one, E3, Hc by (fold n; lia).
        repeat split; try lia.
        apply (follows_step_suffix _ s (i + 2) (fun _ => true));
          [reflexivity|reflexivity].
      - inversion H; subst toks' i'. exists (LOp OTimes). rewrite Hone, E3.
        repeat split; try (fold n; lia).
        apply (follows_step_suffix _ s (i + 1)
                 (fun c => negb (Ascii.eqb c "*"))); [reflexivity|].
        intros Hlt. apply Nat.ltb_lt in Hlt. fold n in Hlt.
        rewrite Hlt in Hs. simpl in Hs. rewrite Hs. reflexivity. }
    destruct (Ascii.eqb (char_at s i) "/") eqn:E4.
    { apply Ascii.eqb_eq in E4.
      destruct ((i + 1 <? n) && Ascii.eqb (char_at s (i + 1)) "/") eqn:Hs.
      - apply andb_true_iff in Hs. destruct Hs as [Hs Hc].
        apply Nat.ltb_lt in Hs. apply Ascii.eqb_eq in Hc.
        inversion H; subst toks' i'. exists (LOp OFloorDiv).
        replace (i + 2 - i) with (1 + 1) by lia.
        rewrite substring_split, !substring_one, E4, Hc by (fold n; lia).
        repeat split; try lia.
        apply (follows_step_suffix _ s (i + 2) (fun _ => true));
          [reflexivity|reflexivity].
      - inversion H; subst toks' i'. exists (LOp ODiv). rewrite Hone, E4.
        repeat split; try (fold n; lia).
        apply (follows_step_suffix _ s (i + 1)
                 (fun c => negb (Ascii.eqb c "/"))); [reflexivity|].
        intros Hlt. apply Nat.ltb_lt in Hlt. fold n in Hlt.
        rewrite Hlt in Hs. simpl in Hs. rewrite Hs. reflexivity. }
    destruct (Ascii.eqb (char_at s i) "+") eqn:E5.
    { apply Ascii.eqb_eq in E5. simpl in H. inversion H; subst toks' i'.
      exists (LOp OPlus). rewrite Hone, E5.
      repeat split; try (fold n; lia).
      apply (follows_step_suffix _ s (i + 1) (fun _ => true));
        [reflexivity|reflexivity]. }
    destruct (Ascii.eqb (char_at s i) "-") eqn:E6.
    { apply Ascii.eqb_eq in E6. simpl in H. inversion H; subst toks' i'.
      exists (LOp OMinus). rewrite Hone, E6.
      repeat split; try (fold n; lia).
      apply (follows_step_suffix _ s (i + 1) (fun _ => true));
        [reflexivity|reflexivity]. }
    destruct (Ascii.eqb (char_at s i) "%") eqn:E7; [|discriminate].
    apply Ascii.eqb_eq in E7. simpl in H. inversion H; subst toks' i'.
    exists (LOp OMod). rewrite Hone, E7.
    repeat split; try (fold n; lia).
    apply (follows_step_suffix _ s (i + 1) (fun _ => true));
      [reflexivity|reflexivity].
Qed.

Lemma lex_point (s : string) (toks : list token) (i : nat) :
  i < String.length s -> char_at s i = "."%char ->
  lex s toks i = Raise (ParseError (BadChar "." i)).
Proof.
  intros Hi Hc. rewrite lex_eq.
  apply Nat.ltb_lt in Hi. rewrite Hi.
  unfold tokenize_step. rewrite Hc. reflexivity.
Qed.

Lemma follows_of_step (l : lexeme) (rest : string) :
  follows_step l rest = true ->
  match rest with
  | String "." _ => False
  | _ => True
  end ->
  follows l rest = true.
Proof.
  destruct rest as [|c r]; [reflexivity|]. simpl.
  destruct l as [d|ip fp|o| |]; try (intros H _; exact H).
  intros H Hp. rewrite H. simpl.
  destruct (Ascii.eqb c ".") eqn:E; [|reflexivity].
  apply Ascii.eqb_eq in E. subst c. contradiction.
Qed.

Lemma lex_sound (s : string) (m : nat) :
  forall (i : nat) (toks out : list token),
    String.length s - i <= m -> i <= String.length s ->
    lex s toks i = Ok out ->
    exists ws items,
      blank ws = true /\ wf_items items = true
      /\ suffix i s = (ws ++ render items)%string
      /\ out = toks ++ lexeme_tokens items ++ [EOF].
Proof.
  induction m as [|m IH]; intros i toks out Hm Hi H; rewrite lex_eq in H.
  - replace (i <? String.length s) with false in H
      by (symmetry; apply Nat.ltb_ge; lia).
    inversion H; subst. exists EmptyString, [].
    rewrite suffix_end by lia. auto.
  - destruct (i <? String.length s) eqn:Hlt.
    2:{ apply Nat.ltb_ge in Hlt. inversion H; subst.
        exists EmptyString, []. rewrite suffix_end by lia. auto. }
    apply Nat.ltb_lt in Hlt.
    destruct (tokenize_step s toks i) as [[toks' i']|e|] eqn:Hs;
      try discriminate.
    destruct (tokenize_step_sound s toks toks' i i' Hlt Hs)
      as [(-> & -> & Hsp)|(l & -> & Hw & Ht & Hii & Hin & Hf)].
    + destruct (IH (i + 1) toks out) as (ws & items & Hb & Hwf & Hsuf & Hout);
        [lia|lia|exact H|].
      exists (String (char_at s i) ws), items.
      simpl. rewrite Hsp, Hb, (suffix_char s i Hlt), Hsuf. auto.
    + destruct (IH i' (toks ++ [lexeme_token l]) out)
        as (ws & items & Hb & Hwf & Hsuf & Hout); [lia|lia|exact H|].
      exists EmptyString, ((l, ws) :: items).
      assert (Hfol : follows l (ws ++ render items) = true).
      { rewrite <- Hsuf. apply follows_of_step; [exact Hf|].
        destruct (Nat.lt_ge_cases i' (String.length s)) as [Hl|Hl].
        - rewrite (suffix_char s i' Hl).
          destruct (Ascii.eqb (char_at s i') ".") eqn:E.
          + apply Ascii.eqb_eq in E.
            rewrite (lex_point s _ i' Hl E) in H. discriminate.
          + destruct (char_at s i') as [[] [] [] [] [] [] [] []];
              try exact I; discriminate.
        - rewrite (suffix_end s i' Hl). exact I. }
      simpl. rewrite Hw, Hb, Hfol, Hwf.
      rewrite (suffix_split s i i') by lia. rewrite Ht, Hsuf, Hout.
      rewrite <- app_assoc. auto.
Qed.

(** X11. What the tokenizer accepts, for a string of characters
    U+0000..U+00FF, where the decimal digits are [0] to [9]: when
    [tokenize] returns tokens, the string is white space followed by
    well-formed lexemes (int literals of at most [int_max_str_digits]
    digits, decimal literals, operators, parentheses), each followed by
    white space (possibly none), and the tokens are the tokens of these
    lexemes, in order, followed by EOF. With X8 this describes the accepted
    strings of these characters and their tokens exactly. *)
Theorem tokenize_accepts_lexemes (expression : string) (toks : list token) :
  tokenize expression = Some (Ok toks) ->
  exists ws items,
    blank ws = true /\ wf_items items = true
    /\ expression = (ws ++ render items)%string
    /\ toks = lexeme_tokens items ++ [EOF].
Proof.
  intros H. rewrite tokenize_lex in H. inversion H as [E].
  destruct (lex_sound expression (String.length expression) 0 [] toks)
    as (ws & items & Hb & Hw & Hs & Ho); [lia|lia|exact E|].
  exists ws, items. rewrite suffix_0 in Hs. auto.
Qed.

Lemma tokenize_accepts_lexemes_witness :
  tokenize "7//2 " = Some (Ok [NUM (VInt 7); OP "//"; NUM (VInt 2); EOF])
  /\ exists ws items,
       blank ws = true /\ wf_items items = true
       /\ "7//2 "%string = (ws ++ render items)%string
       /\ [NUM (VInt 7); OP "//"; NUM (VInt 2); EOF]
          = lexeme_tokens items ++ [EOF].
Proof.
  split; [reflexivity|].
  exact (tokenize_accepts_lexemes "7//2 " _ eq_refl).
Defined.

(** ** The tokens of the tokenizer *)

Section LiteralValues.
Local Open Scope Z_scope.

Lemma shr_fexp_nonneg (m e : Z) (l : location) :
  0 <= m -> 0 <= shr_m (fst (shr_fexp Py.prec Py.emax m e l)).
Proof.
  intros Hm. unfold shr_fexp, shr.
  destruct (fexp Py.prec Py.emax (Zdigits2 m + e) - e) as [|p|p]; simpl;
    try (rewrite shr_m_of_loc; exact Hm).
  apply digits_iter_shr_1. rewrite shr_m_of_loc. exact Hm.
Qed.

Lemma round_nearest_even_nonneg (m : Z) (l : location) :
  0 <= m -> 0 <= round_nearest_even m l.
Proof.
  intros Hm. unfold round_nearest_even.
  destruct l as [|[]]; try destruct (Z.even m); lia.
Qed.

Lemma binary_round_aux_nonneg (mx ex : Z) (lx : location) :
  0 <= mx ->
  nonneg_float (binary_round_aux Py.prec Py.emax false mx ex lx) = true.
Proof.
  intros Hm. unfold binary_round_aux.
  pose proof (shr_fexp_nonneg mx ex lx Hm) as H1.
  destruct (shr_fexp Py.prec Py.emax mx ex lx) as [mrs' e']. simpl in H1.
  pose proof (shr_fexp_nonneg _ e' loc_Exact
                (round_nearest_even_nonneg _ (loc_of_shr_record mrs') H1)) as H2.
  destruct (shr_fexp Py.prec Py.emax _ e' loc_Exact) as [mrs'' e''].
  simpl in H2.
  destruct (shr_m mrs'') as [|q|q]; [reflexivity| |lia].
  destruct (e'' <=? Py.emax - Py.prec); reflexivity.
Qed.

Lemma fdiv_nonneg (m p : Z) :
  0 <= m -> 0 < p -> nonneg_float (fdiv (Z2SF m) (Z2SF p)) = true.
Proof.
  intros Hm Hp. destruct p as [|p|p]; try lia.
  destruct m as [|m|m]; try lia; [reflexivity|].
  unfold fdiv, Z2SF, SFdiv, SFdiv_core_binary.
  set (s := (0 - 0 - _)%Z).
  set (m' := match s with Zpos _ => Z.shiftl (Zpos m) s | Z0 => Zpos m
                     | Zneg _ => 0 end).
  assert (Hm' : 0 <= m').
  { subst m'. destruct s; try lia. apply Z.shiftl_nonneg. lia. }
  pose proof (Z.div_pos m' (Zpos p) Hm' ltac:(lia)) as Hq.
  unfold Z.div in Hq. destruct (Z.div_eucl m' (Zpos p)) as [q r].
  apply binary_round_aux_nonneg. exact Hq.
Qed.

Lemma int_of_digits_nonneg (acc : Z) (s : string) (z : Z) :
  int_of_digits acc s = Some z -> 0 <= acc -> 0 <= z.
Proof.
  revert acc. induction s as [|c s IH]; intros acc H Ha;
    cbn [int_of_digits] in H.
  - inversion H; subst. exact Ha.
  - destruct (is_ascii_digit c); [|discriminate].
    apply (IH _ H). lia.
Qed.

Lemma digits_value_nonneg (d : string) : 0 <= digits_value d.
Proof.
  unfold digits_value. destruct (int_of_digits 0 d) as [z|] eqn:E; [|lia].
  apply (int_of_digits_nonneg _ _ _ E). lia.
Qed.

End LiteralValues.

Lemma lexeme_token_literal (l : lexeme) : literal_token (lexeme_token l).
Proof.
  destruct l as [d|ip fp|o| |]; simpl; auto.
  - apply digits_value_nonneg.
  - apply fdiv_nonneg; [apply digits_value_nonneg|].
    apply Z.pow_pos_nonneg; lia.
  - destruct o; simpl; tauto.
Qed.

Lemma lexeme_text_nonempty (l : lexeme) :
  wf_lexeme l = true -> 0 < String.length (lexeme_text l).
Proof.
  destruct l as [d|ip fp|o| |]; cbn [wf_lexeme lexeme_text]; intros H;
    try (simpl; lia).
  - apply andb_true_iff in H. destruct H as [H _].
    destruct (numeral_inv d H) as (c & d' & -> & _). simpl. lia.
  - rewrite length_append. simpl. lia.
  - destruct o; simpl; lia.
Qed.

Lemma render_length (items : list (lexeme * string)) :
  wf_items items = true ->
  List.length items <= String.length (render items).
Proof.
  induction items as [|[l ws] items IH]; simpl; intros H; [lia|].
  apply andb_true_iff in H. destruct H as [H Hi].
  apply andb_true_iff in H. destruct H as [H _].
  apply andb_true_iff in H. destruct H as [Hl _].
  pose proof (lexeme_text_nonempty l Hl). specialize (IH Hi).
  rewrite !length_append. lia.
Qed.

(** X12. The tokens that [tokenize] returns: exactly one EOF, at the
    end; before it only numbers that are not negative (ints, or floats
    that are neither negative nor NaN), the seven operators and
    parentheses; and at most one token for each character of the input. *)
Theorem tokenize_tokens (expression : string) (toks : list token) :
  tokenize expression = Some (Ok toks) ->
  exists body,
    toks = body ++ [EOF]
    /\ Forall literal_token body
    /\ List.length body <= String.length expression.
Proof.
  intros H. rewrite tokenize_lex in H. inversion H as [E].
  destruct (lex_sound expression (String.length expression) 0 [] toks)
    as (ws & items & Hb & Hw & Hs & Ho); [lia|lia|exact E|].
  exists (lexeme_tokens items). split; [exact Ho|]. split.
  - unfold lexeme_tokens. apply Forall_forall. intros tok Hin.
    apply in_map_iff in Hin. destruct Hin as ([l w] & <- & _).
    apply lexeme_token_literal.
  - rewrite suffix_0 in Hs. rewrite Hs, length_append.
    unfold lexeme_tokens. rewrite length_map.
    pose proof (render_length items Hw). lia.
Qed.

Lemma tokenize_tokens_witness :
  tokenize "-1.5" = Some (Ok [OP "-";
                              NUM (VFloat (S754_finite false
                                             6755399441055744 (-52)));
                              EOF])
  /\ exists body,
       [OP "-"; NUM (VFloat (S754_finite false 6755399441055744 (-52))); EOF]
       = body ++ [EOF]
       /\ Forall literal_token body
       /\ List.length body <= String.length "-1.5".
Proof.
  split; [reflexivity|].
  exact (tokenize_tokens "-1.5" _ eq_refl).
Defined.

(** ** The token lists that evaluate *)

Lemma bind_inv {A B : Type} (m : run A) (k : A -> TokenStream -> run B)
    (b : B) (ts' : TokenStream) :
  bind m k = Some (Ok (b, ts')) ->
  exists a ts1, m = Some (Ok (a, ts1)) /\ k a ts1 = Some (Ok (b, ts')).
Proof.
  unfold bind. destruct m as [[[a ts1]|e|]|]; try discriminate.
  intros H. exists a, ts1. split; [reflexivity|exact H].
Qed.

Lemma ret_inv (o : outcome value) (ts ts' : TokenStream) (v : value) :
  ret o ts = Some (Ok (v, ts')) -> o = Ok v /\ ts' = ts.
Proof.
  unfold ret. destruct o; simpl; intros H; inversion H. split; reflexivity.
Qed.

Lemma eat_inv (k : kind) (value : option string) (ts ts' : TokenStream)
    (tok : token) :
  lift (eat k value ts) = Some (Ok (tok, ts')) ->
  tok_kind (peek ts) = k /\ ts' = advance ts.
Proof.
  unfold lift, eat. intros H.
  destruct (kind_eqb (tok_kind (peek ts)) k) eqn:Hk; simpl in H;
    [|discriminate].
  assert (tok_kind (peek ts) = k) as Hk'.
  { destruct (tok_kind (peek ts)), k; simpl in Hk;
      reflexivity || discriminate. }
  split; [exact Hk'|].
  destruct value as [s|]; [destruct (payload_is (peek ts) s)|];
    simpl in H; inversion H; reflexivity.
Qed.

Lemma skipn_nth (l : list token) (n : nat) (tok : token) :
  nth_error l n = Some tok -> skipn n l = tok :: skipn (S n) l.
Proof.
  revert l. induction n as [|n IH]; intros [|x l] H; simpl in H;
    try discriminate.
  - inversion H. reflexivity.
  - apply (IH l H).
Qed.

Lemma reads_advance (ts : TokenStream) :
  tok_kind (peek ts) <> KEOF -> reads ts (advance ts) [peek ts].
Proof.
  intros H. unfold peek in *.
  destruct (nth_error (tokens ts) (pos ts)) as [tok|] eqn:E;
    [|exfalso; apply H; reflexivity].
  unfold reads, advance. simpl. repeat split.
  rewrite Nat.add_1_r. apply skipn_nth. exact E.
Qed.

Lemma reads_nil (ts : TokenStream) : reads ts ts [].
Proof. unfold reads. simpl. repeat split. lia. Qed.

Lemma reads_app (a b c : TokenStream) (l1 l2 : list token) :
  reads a b l1 -> reads b c l2 -> reads a c (l1 ++ l2).
Proof.
  intros (T1 & P1 & S1) (T2 & P2 & S2). unfold reads.
  rewrite T1 in T2, S2. rewrite length_app. repeat split.
  - exact T2.
  - lia.
  - rewrite S1, S2, app_assoc. reflexivity.
Qed.

Lemma is_op_true (tok : token) (s : string) :
  is_op tok s = true -> tok = OP s.
Proof.
  destruct tok; simpl; try discriminate.
  intros H. apply String.eqb_eq in H. subst. reflexivity.
Qed.

Lemma is_mul_op_inv (op : string) :
  is_mul_op op = true -> exists o, op = mulop_symbol o.
Proof.
  unfold is_mul_op. intros H.
  destruct (String.eqb op "*") eqn:E1;
    [apply String.eqb_eq in E1; exists Times; exact E1|].
  destruct (String.eqb op "/") eqn:E2;
    [apply String.eqb_eq in E2; exists Div; exact E2|].
  destruct (String.eqb op "//") eqn:E3;
    [apply String.eqb_eq in E3; exists FloorDiv; exact E3|].
  destruct (String.eqb op "%") eqn:E4;
    [apply String.eqb_eq in E4; exists Mod; exact E4|].
  discriminate.
Qed.

Lemma peek_skipn (ts : TokenStream) :
  peek ts = hd EOF (skipn (pos ts) (tokens ts)).
Proof.
  unfold peek. generalize (pos ts) as n. generalize (tokens ts) as l.
  induction l as [|x l IH]; intros [|n]; simpl; try reflexivity.
  apply IH.
Qed.

(** One token read by [eat]. *)
Lemma reads_eat (k : kind) (value : option string) (ts ts' : TokenStream)
    (tok : token) :
  k <> KEOF ->
  lift (eat k value ts) = Some (Ok (tok, ts')) ->
  tok_kind (peek ts) = k /\ reads ts ts' [peek ts].
Proof.
  intros Hk H. destruct (eat_inv _ _ _ _ _ H) as [Hkind ->].
  split; [exact Hkind|]. apply reads_advance. rewrite Hkind. exact Hk.
Qed.

Ltac split_bind H a ts E :=
  apply bind_inv in H; destruct H as (a & ts & E & H).

Lemma sound (fuel : nat) : sound_at fuel.
Proof.
  induction fuel as [|fuel IH].
  { refine (conj _ (conj _ (conj _ (conj _ (conj _ (conj _ (conj _ _)))))));
      intros; discriminate. }
  destruct IH as (Hprim & Hun & Hpow & Hml & Hmul & Hal & Hadd & Hexpr).
  refine (conj _ (conj _ (conj _ (conj _ (conj _ (conj _ (conj _ _))))))).
  - (* parse_primary *)
    intros ts v ts' H. simpl in H.
    destruct (peek ts) as [v0| | | |] eqn:Hp; try discriminate.
    + split_bind H tok ts1 E1.
      apply reads_eat in E1; [|discriminate]. destruct E1 as [_ R1].
      apply ret_inv in H. destruct H as [Hv ->]. inversion Hv; subst v0.
      exists (Num v). rewrite Hp in R1. split; [exact R1|reflexivity].
    + split_bind H tok ts1 E1.
      apply reads_eat in E1; [|discriminate]. destruct E1 as [_ R1].
      split_bind H val ts2 E2.
      destruct (Hexpr _ _ _ E2) as (e & R2 & V2).
      split_bind H tok' ts3 E3.
      apply reads_eat in E3; [|discriminate]. destruct E3 as [K3 R3].
      apply ret_inv in H. destruct H as [Hv ->]. inversion Hv; subst val.
      exists (Paren e). split; [|exact V2].
      rewrite Hp in R1.
      assert (peek ts2 = RPAREN) as Hr
        by (destruct (peek ts2); simpl in K3; reflexivity || discriminate).
      rewrite Hr in R3.
      exact (reads_app _ _ _ [LPAREN] _ R1 (reads_app _ _ _ _ _ R2 R3)).
  - (* parse_unary *)
    intros ts v ts' H. simpl in H.
    destruct (is_op (peek ts) "+") eqn:Hplus;
      [|destruct (is_op (peek ts) "-") eqn:Hminus].
    + apply is_op_true in Hplus.
      split_bind H tok ts1 E1.
      apply reads_eat in E1; [|discriminate]. destruct E1 as [_ R1].
      split_bind H x ts2 E2.
      destruct (Hun _ _ _ E2) as (u & R2 & V2).
      apply ret_inv in H. destruct H as [Hv ->].
      exists (Plus u). rewrite Hplus in R1. split.
      * exact (reads_app _ _ _ [OP "+"%string] _ R1 R2).
      * simpl. rewrite V2. exact Hv.
    + apply is_op_true in Hminus.
      split_bind H tok ts1 E1.
      apply reads_eat in E1; [|discriminate]. destruct E1 as [_ R1].
      split_bind H x ts2 E2.
      destruct (Hun _ _ _ E2) as (u & R2 & V2).
      apply ret_inv in H. destruct H as [Hv ->].
      exists (Minus u). rewrite Hminus in R1. split.
      * exact (reads_app _ _ _ [OP "-"%string] _ R1 R2).
      * simpl. rewrite V2. exact Hv.
    + destruct (Hprim _ _ _ H) as (p & R & V).
      exists (Primary p). split; assumption.
  - (* parse_pow *)
    intros ts v ts' H. simpl in H.
    split_bind H x ts1 E1.
    destruct (Hun _ _ _ E1) as (u & R1 & V1).
    simpl in H. destruct (is_op (peek ts1) "**") eqn:Hop.
    + apply is_op_true in Hop.
      split_bind H tok ts2 E2.
      apply reads_eat in E2; [|discriminate]. destruct E2 as [_ R2].
      split_bind H y ts3 E3.
      destruct (Hpow _ _ _ E3) as (w & R3 & V3).
      apply ret_inv in H. destruct H as [Hv ->].
      exists (Power u w). rewrite Hop in R2. split.
      * exact (reads_app _ _ _ _ _ R1
                 (reads_app _ _ _ [OP "**"%string] _ R2 R3)).
      * simpl. rewrite V1, V3. exact Hv.
    + apply ret_inv in H. destruct H as [Hv ->]. inversion Hv; subst x.
      exists (Unary u). split; assumption.
  - (* parse_mul_loop *)
    intros t v ts v' ts' Ht H. simpl in H.
    assert (forall o, ret (Ok v) ts = Some (Ok (v', ts')) -> o = tt ->
              exists t' l, reads ts ts' l
                           /\ tokens_of_mul t' = tokens_of_mul t ++ l
                           /\ eval_mul t' = Ok v') as Hstop.
    { intros _ Hr _. apply ret_inv in Hr. destruct Hr as [Hv ->].
      inversion Hv; subst v'. exists t, [].
      rewrite app_nil_r.
      refine (conj _ (conj _ _)); [apply reads_nil|reflexivity|exact Ht]. }
    destruct (peek ts) as [|op| | |] eqn:Hp;
      try exact (Hstop tt H eq_refl).
    destruct (is_mul_op op) eqn:Hop; [|exact (Hstop tt H eq_refl)].
    clear Hstop. apply is_mul_op_inv in Hop. destruct Hop as [o ->].
    split_bind H tok ts1 E1.
    apply reads_eat in E1; [|discriminate]. destruct E1 as [_ R1].
    split_bind H rhs ts2 E2.
    destruct (Hpow _ _ _ E2) as (w & R2 & V2).
    split_bind H x ts3 E3.
    apply ret_inv in E3. destruct E3 as [Hx ->].
    destruct (Hml (MulOp t o w) x ts2 v' ts') as (t' & l & R3 & T3 & V3).
    { simpl. rewrite Ht, V2. exact Hx. }
    { exact H. }
    exists t', (OP (mulop_symbol o) :: tokens_of_pow w ++ l).
    rewrite Hp in R1. refine (conj _ (conj _ _)).
    + exact (reads_app _ _ _ [OP (mulop_symbol o)] _ R1
               (reads_app _ _ _ _ _ R2 R3)).
    + rewrite T3. simpl. rewrite <- app_assoc. reflexivity.
    + exact V3.
  - (* parse_mul *)
    intros ts v ts' H. simpl in H.
    split_bind H x ts1 E1.
    destruct (Hpow _ _ _ E1) as (w & R1 & V1).
    destruct (Hml (Pow w) x ts1 v ts' V1 H) as (t' & l & R2 & T2 & V2).
    exists t'. rewrite T2. split; [|exact V2].
    exact (reads_app _ _ _ _ _ R1 R2).
  - (* parse_add_loop *)
    intros e v ts v' ts' He H. simpl in H.
    destruct (is_op (peek ts) "+") eqn:Hplus;
      [|destruct (is_op (peek ts) "-") eqn:Hminus].
    + apply is_op_true in Hplus.
      split_bind H tok ts1 E1.
      apply reads_eat in E1; [|discriminate]. destruct E1 as [_ R1].
      split_bind H rhs ts2 E2.
      destruct (Hmul _ _ _ E2) as (t & R2 & V2).
      split_bind H x ts3 E3.
      apply ret_inv in E3. destruct E3 as [Hx ->].
      destruct (Hal (Add e t) x ts2 v' ts') as (e' & l & R3 & T3 & V3).
      { simpl. rewrite He, V2. exact Hx. }
      { exact H. }
      exists e', (OP "+"%string :: tokens_of_mul t ++ l).
      rewrite Hplus in R1. refine (conj _ (conj _ _)).
      * exact (reads_app _ _ _ [OP "+"%string] _ R1
                 (reads_app _ _ _ _ _ R2 R3)).
      * rewrite T3. simpl. rewrite <- app_assoc. reflexivity.
      * exact V3.
    + apply is_op_true in Hminus.
      split_bind H tok ts1 E1.
      apply reads_eat in E1; [|discriminate]. destruct E1 as [_ R1].
      split_bind H rhs ts2 E2.
      destruct (Hmul _ _ _ E2) as (t & R2 & V2).
      split_bind H x ts3 E3.
      apply ret_inv in E3. destruct E3 as [Hx ->].
      destruct (Hal (Sub e t) x ts2 v' ts') as (e' & l & R3 & T3 & V3).
      { simpl. rewrite He, V2. exact Hx. }
      { exact H. }
      exists e', (OP "-"%string :: tokens_of_mul t ++ l).
      rewrite Hminus in R1. refine (conj _ (conj _ _)).
      * exact (reads_app _ _ _ [OP "-"%string] _ R1
                 (reads_app _ _ _ _ _ R2 R3)).
      * rewrite T3. simpl. rewrite <- app_assoc. reflexivity.
      * exact V3.
    + apply ret_inv in H. destruct H as [Hv ->]. inversion Hv; subst v'.
      exists e, []. rewrite app_nil_r.
      refine (conj _ (conj _ _)); [apply reads_nil|reflexivity|exact He].
  - (* parse_add *)
    intros ts v ts' H. simpl in H.
    split_bind H x ts1 E1.
    destruct (Hmul _ _ _ E1) as (t & R1 & V1).
    destruct (Hal (Mul t) x ts1 v ts' V1 H) as (e' & l & R2 & T2 & V2).
    exists e'. rewrite T2. split; [|exact V2].
    exact (reads_app _ _ _ _ _ R1 R2).
  - (* parse_expr *)
    intros ts v ts' H. simpl in H. exact (Hadd _ _ _ H).
Qed.

(** X13. Only expressions of the grammar evaluate: when the evaluator
    returns a value for a token list, the list is the tokens of an
    expression of the grammar, followed by EOF or by nothing, and the value
    is the one of that expression. *)
Theorem evaluated_tokens_form_expression (fuel : nat) (toks : list token)
    (v : value) :
  calculate_tokens fuel toks = Some (Ok v) ->
  exists e rest,
    toks = tokens_of_add e ++ rest
    /\ tok_kind (hd EOF rest) = KEOF
    /\ eval_add e = Ok v.
Proof.
  unfold calculate_tokens. intros H.
  destruct (parse_expr fuel {| tokens := toks; pos := 0 |})
    as [[[r ts']|x|]|] eqn:E; try discriminate.
  destruct (kind_eqb (tok_kind (peek ts')) KEOF) eqn:K; simpl in H;
    [|discriminate].
  inversion H; subst r.
  destruct (sound fuel) as (_ & _ & _ & _ & _ & _ & _ & Hexpr).
  destruct (Hexpr _ _ _ E) as (e & (T & P & S) & V). simpl in T, P, S.
  exists e, (skipn (pos ts') toks). split; [exact S|]. split; [|exact V].
  rewrite peek_skipn, T in K.
  destruct (tok_kind (hd EOF (skipn (pos ts') toks)));
    simpl in K; reflexivity || discriminate.
Qed.

Lemma evaluated_tokens_form_expression_witness :
  exists e rest,
    [NUM (VInt 7); OP "-"; LPAREN; NUM (VInt 2); RPAREN; EOF]%string
    = tokens_of_add e ++ rest
    /\ tok_kind (hd EOF rest) = KEOF
    /\ eval_add e = Ok (VInt 5).
Proof.
  exact (evaluated_tokens_form_expression 56
           [NUM (VInt 7); OP "-"; LPAREN; NUM (VInt 2); RPAREN; EOF]%string
           (VInt 5) eq_refl).
Defined.

(** ** The exceptions of the tokenizer *)

Lemma all_chars_char (p : ascii -> bool) (s : string) (k : nat) :
  all_chars p s = true -> k < String.length s -> p (char_at s k) = true.
Proof.
  revert k. induction s as [|c s IH]; intros k H Hk; simpl in *; [lia|].
  apply andb_true_iff in H. destruct H as [Hc Hs].
  destruct k as [|k]; [exact Hc|].
  change (char_at (String c s) (S k)) with (char_at s k).
  apply IH; [exact Hs|lia].
Qed.

(** A run of digits of a string without superscripts is a numeral. *)
Lemma digit_run_numeral (s : string) (a b : nat) :
  all_chars (fun c => negb (other_digit c)) s = true ->
  a < b -> b <= String.length s ->
  (forall k, a <= k -> k < b -> isdigit (char_at s k) = true) ->
  numeral (substring a (b - a) s) = true.
Proof.
  intros Hs Hab Hb Hd. unfold numeral.
  rewrite substring_nonempty by lia. simpl.
  rewrite digits_only_all_chars. apply all_chars_substring; [lia|].
  intros k K1 K2.
  pose proof (all_chars_char _ s k Hs ltac:(lia)) as Hk. simpl in Hk.
  unfold other_digit in Hk. rewrite (Hd k) in Hk by lia. simpl in Hk.
  apply negb_true_iff, negb_false_iff in Hk. exact Hk.
Qed.

Lemma tokenize_step_error (s : string) (toks : list token) (i : nat)
    (e : exn) :
  i < String.length s ->
  tokenize_step s toks i = Raise e -> lex_error s e.
Proof.
  intros Hi H. unfold tokenize_step in H.
  set (n := String.length s) in *.
  destruct (isspace (char_at s i)) eqn:Hsp; [discriminate|].
  destruct (isdigit (char_at s i)) eqn:Hd.
  - (* a number *)
    assert (H1 : i < scan_digits (n - i) s i)
      by (apply scan_digits_first; [exact Hi|exact Hd|lia]).
    assert (H2 : scan_digits (n - i) s i <= n)
      by (apply scan_digits_le; fold n; lia).
    pose proof (fun k => scan_digits_all (n - i) s i k) as Hall.
    set (j := scan_digits (n - i) s i) in *.
    destruct ((j <? n) && Ascii.eqb (char_at s j) ".") eqn:Hpt.
    + apply andb_true_iff in Hpt. destruct Hpt as [Hjn Hpt].
      apply Nat.ltb_lt in Hjn. apply Ascii.eqb_eq in Hpt.
      destruct ((n <=? j + 1) || negb (isdigit (char_at s (j + 1)))) eqn:Hq.
      * inversion H; subst e. simpl. fold n.
        refine (conj _ (conj Hjn (conj _ (conj Hpt _)))); [lia| |].
        -- apply Hall; lia.
        -- apply orb_true_iff in Hq. destruct Hq as [Hq|Hq].
           ++ left. apply Nat.leb_le in Hq. exact Hq.
           ++ right. apply negb_true_iff in Hq. exact Hq.
      * apply orb_false_iff in Hq. destruct Hq as [Hq Hd2].
        apply Nat.leb_gt in Hq. apply negb_false_iff in Hd2.
        assert (H3 : j + 1 < scan_digits (n - (j + 1)) s (j + 1))
          by (apply scan_digits_first; [exact Hq|exact Hd2|lia]).
        assert (H4 : scan_digits (n - (j + 1)) s (j + 1) <= n)
          by (apply scan_digits_le; fold n; lia).
        pose proof (fun k => scan_digits_all (n - (j + 1)) s (j + 1) k)
          as Hall2.
        set (j2 := scan_digits (n - (j + 1)) s (j + 1)) in *.
        assert (ET : substring i (j2 - i) s
                     = (substring i (j - i) s
                        ++ String "." (substring (j + 1) (j2 - (j + 1)) s))%string).
        { replace (j2 - i) with ((j - i) + (1 + (j2 - (j + 1)))) by lia.
          rewrite substring_split. replace (i + (j - i)) with j by lia.
          rewrite substring_split, substring_one by exact Hjn.
          rewrite Hpt. reflexivity. }
        rewrite ET in H.
        destruct (py_float _) as [val|] eqn:Ef; [discriminate|].
        inversion H; subst e. cbn [lex_error]. left.
        destruct (all_chars (fun c => negb (other_digit c)) s) eqn:Hs;
          [|reflexivity].
        rewrite py_float_numeral in Ef; [discriminate| |].
        -- apply digit_run_numeral; auto; fold n; lia.
        -- apply digit_run_numeral; auto; fold n; lia.
    + destruct (py_int _) as [val|] eqn:Ei; [discriminate|].
      inversion H; subst e. cbn [lex_error].
      destruct (all_chars (fun c => negb (other_digit c)) s) eqn:Hs;
        [right|left; reflexivity].
      assert (Hnum : numeral (substring i (j - i) s) = true)
        by (apply digit_run_numeral; auto; fold n; lia).
      exists i, (j - i).
      destruct (Nat.le_gt_cases (String.length (substring i (j - i) s))
                  int_max_str_digits) as [Hle|Hgt].
      * rewrite (py_int_numeral _ Hnum Hle) in Ei. discriminate.
      * split; [exact Hgt|].
        apply andb_true_iff in Hnum. apply (proj2 Hnum).
  - (* a symbol, or a character that is not allowed *)
    destruct (Ascii.eqb (char_at s i) "(") eqn:E1; [discriminate|].
    destruct (Ascii.eqb (char_at s i) ")") eqn:E2; [discriminate|].
    destruct (Ascii.eqb (char_at s i) "*") eqn:E3.
    { destruct (_ && _) in H; discriminate. }
    destruct (Ascii.eqb (char_at s i) "/") eqn:E4.
    { destruct (_ && _) in H; discriminate. }
    destruct (Ascii.eqb (char_at s i) "+") eqn:E5; [discriminate|].
    destruct (Ascii.eqb (char_at s i) "-") eqn:E6; [discriminate|].
    destruct (Ascii.eqb (char_at s i) "%") eqn:E7; [discriminate|].
    simpl in H. inversion H; subst e. simpl.
    unfold symbol_char. rewrite E1, E2, E3, E4, E5, E6, E7.
    repeat split; auto.
Qed.

Lemma lex_error_sound (s : string) (m : nat) :
  forall (i : nat) (toks : list token),
    String.length s - i <= m ->
    match lex s toks i with
    | Ok _ => True
    | Raise e => lex_error s e
    | OutOfModel => False
    end.
Proof.
  induction m as [|m IH]; intros i toks Hm; rewrite lex_eq.
  - replace (i <? String.length s) with false; [exact I|].
    symmetry. apply Nat.ltb_ge. lia.
  - destruct (i <? String.length s) eqn:Hi; [|exact I].
    apply Nat.ltb_lt in Hi.
    pose proof (tokenize_step_advances s toks i Hi) as Hadv.
    pose proof (tokenize_step_error s toks i) as Herr.
    destruct (tokenize_step s toks i) as [[toks' i']|e|].
    + apply IH. lia.
    + apply Herr; [exact Hi|reflexivity].
    + exact Hadv.
Qed.

(** X14. The exceptions of [tokenize], for a string of characters
    U+0000..U+00FF: it raises nothing but a ParseError, for a character
    that is not a blank, a digit, a parenthesis or an operator character,
    with the character and its index; for a point after digits that no
    digit follows, with the index of the point; and for a number it cannot
    convert, only when the string has a digit other than [0] to [9] or more
    than [int_max_str_digits] digits [0] to [9] in a row. *)
Theorem tokenize_exceptions (expression : string) :
  match tokenize expression with
  | Some (Ok _) => True
  | Some (Raise e) => lex_error expression e
  | Some OutOfModel => False
  | None => False
  end.
Proof.
  rewrite tokenize_lex.
  apply (lex_error_sound expression (String.length expression)). lia.
Qed.

(** ** Incomplete expressions *)

Lemma no_operand (pre rest : list token) :
  starts_operand (hd EOF rest) = false ->
  run_pow (at_ pre rest) = Raise (ParseError ExpectedNumberOrParen)
  /\ run_mul (at_ pre rest) = Raise (ParseError ExpectedNumberOrParen)
  /\ run_expr (at_ pre rest) = Raise (ParseError ExpectedNumberOrParen).
Proof.
  intros H.
  assert (Hu : run_unary (at_ pre rest)
               = Raise (ParseError ExpectedNumberOrParen)).
  { rewrite run_unary_eq, peek_at.
    destruct (hd EOF rest) as [v|s| | |] eqn:Hd; simpl in H;
      try discriminate; simpl.
    - apply orb_false_iff in H. destruct H as [H1 H2]. rewrite H1, H2.
      rewrite run_primary_eq, peek_at, Hd. reflexivity.
    - rewrite run_primary_eq, peek_at, Hd. reflexivity.
    - rewrite run_primary_eq, peek_at, Hd. reflexivity. }
  assert (Hp : run_pow (at_ pre rest)
               = Raise (ParseError ExpectedNumberOrParen))
    by (rewrite run_pow_eq, Hu; reflexivity).
  assert (Hm : run_mul (at_ pre rest)
               = Raise (ParseError ExpectedNumberOrParen))
    by (rewrite run_mul_eq, Hp; reflexivity).
  refine (conj Hp (conj Hm _)).
  rewrite run_expr_eq, run_add_eq, Hm. reflexivity.
Qed.

Lemma evaluate_eq (toks : list token) :
  evaluate toks = Some (finish (run_expr (at_ [] toks))).
Proof. unfold evaluate. rewrite calculate_tokens_eq. reflexivity. Qed.

(** X15. A missing operand: when the token after a binary operator
    cannot start an operand (it is EOF, a closing parenthesis or another
    operator than a sign, or the list ends), the expression on the left of
    the operator is evaluated, its exception if any is the result, and
    otherwise ParseError (a number or a parenthesis was expected) is
    raised; the same ParseError is raised when the whole token list starts
    with such a token. *)
Theorem missing_operand (rest : list token) :
  starts_operand (hd EOF rest) = false ->
  let missing := fun _ : value => Raise (ParseError ExpectedNumberOrParen) in
  (forall e, evaluate (tokens_of_add e ++ OP "+" :: rest)
             = Some (obind (eval_add e) missing))
  /\ (forall e, evaluate (tokens_of_add e ++ OP "-" :: rest)
                = Some (obind (eval_add e) missing))
  /\ (forall t o, evaluate (tokens_of_mul t ++ OP (mulop_symbol o) :: rest)
                  = Some (obind (eval_mul t) missing))
  /\ (forall u, evaluate (tokens_of_unary u ++ OP "**" :: rest)
                = Some (obind (eval_unary u) missing))
  /\ evaluate rest = Some (Raise (ParseError ExpectedNumberOrParen)).
Proof.
  intros H missing. subst missing.
  destruct tokens_evaluate as (_ & Hun & _ & Hmul & Hadd).
  refine (conj _ (conj _ (conj _ (conj _ _)))).
  - intros e. rewrite evaluate_eq, run_expr_eq, Hadd by reflexivity.
    destruct (eval_add e) as [v| |]; simpl; try reflexivity.
    rewrite run_add_loop_eq, peek_at. simpl. rewrite advance_at.
    rewrite (proj1 (proj2 (no_operand _ rest H))). reflexivity.
  - intros e. rewrite evaluate_eq, run_expr_eq, Hadd by reflexivity.
    destruct (eval_add e) as [v| |]; simpl; try reflexivity.
    rewrite run_add_loop_eq, peek_at. simpl. rewrite advance_at.
    rewrite (proj1 (proj2 (no_operand _ rest H))). reflexivity.
  - intros t o. rewrite evaluate_eq, run_expr_eq, run_add_eq.
    rewrite Hmul by (destruct o; reflexivity).
    destruct (eval_mul t) as [v| |]; simpl; try reflexivity.
    rewrite run_mul_loop_eq, peek_at. simpl.
    rewrite mulop_symbol_is_mul_op, advance_at.
    rewrite (proj1 (no_operand _ rest H)). reflexivity.
  - intros u. rewrite evaluate_eq, run_expr_eq, run_add_eq, run_mul_eq.
    rewrite run_pow_eq, Hun.
    destruct (eval_unary u) as [v| |]; simpl; try reflexivity.
    rewrite peek_at. simpl. rewrite advance_at.
    rewrite (proj1 (no_operand _ rest H)). reflexivity.
  - rewrite evaluate_eq.
    rewrite (proj2 (proj2 (no_operand [] rest H))). reflexivity.
Qed.

Lemma missing_operand_witness :
  starts_operand (hd EOF [OP "*"; NUM (VInt 3); EOF]) = false
  /\ evaluate [NUM (VInt 2); OP "+"; OP "*"; NUM (VInt 3); EOF]
     = Some (Raise (ParseError ExpectedNumberOrParen)).
Proof.
  split; [reflexivity|].
  exact (proj1 (missing_operand [OP "*"; NUM (VInt 3); EOF]%string eq_refl)
           (Mul (Pow (Unary (Primary (Num (VInt 2))))))).
Defined.

(** X16. A parenthesis that is not closed: when the tokens of an
    expression after an opening parenthesis are followed by a token that
    is neither an operator nor the closing parenthesis, the expression is
    evaluated, its exception if any is the result, and otherwise
    ParseError (another kind of token was expected) is raised. *)
Theorem unclosed_parenthesis (e : add_expr) (rest : list token) :
  stops_add (hd EOF rest) = true ->
  tok_kind (hd EOF rest) <> KRPAREN ->
  evaluate (LPAREN :: tokens_of_add e ++ rest)
  = Some (obind (eval_add e) (fun _ => Raise (ParseError ExpectedKind))).
Proof.
  intros Hs Hk.
  rewrite evaluate_eq, run_expr_eq, run_add_eq, run_mul_eq, run_pow_eq.
  rewrite run_unary_eq, peek_at. simpl.
  rewrite run_primary_eq, peek_at. simpl.
  rewrite advance_at, run_expr_tokens by exact Hs.
  destruct (eval_add e) as [v| |]; simpl; try reflexivity.
  unfold eat. rewrite peek_at.
  destruct (hd EOF rest); simpl in *; try reflexivity. congruence.
Qed.

Lemma unclosed_parenthesis_witness :
  stops_add (hd EOF [EOF]) = true
  /\ tok_kind (hd EOF [EOF]) <> KRPAREN
  /\ evaluate [LPAREN; NUM (VInt 2); OP "+"; NUM (VInt 3); EOF]
     = Some (Raise (ParseError ExpectedKind)).
Proof.
  split; [reflexivity|]. split; [discriminate|].
  exact (unclosed_parenthesis
           (Add (Mul (Pow (Unary (Primary (Num (VInt 2))))))
                (Pow (Unary (Primary (Num (VInt 3))))))
           [EOF] eq_refl ltac:(discriminate)).
Defined.

(** ** The exceptions of [calculate_expression] *)

(** X17. Two of the ParseErrors of the source are never raised: the
    one of [eat] for a token with another value than expected, and the one
    at the end of [_apply_mul_op] for an unknown operator; neither by the
    evaluator on any token list, nor by [calculate_expression] on any
    string, whose evaluation always ends. *)
Theorem unreachable_parse_errors :
  (forall (fuel : nat) (toks : list token),
     match calculate_tokens fuel toks with
     | Some (Raise (ParseError r)) => unreachable_reason r = false
     | _ => True
     end)
  /\ (forall expression : string,
        match calculate_expression expression with
        | Some (Raise (ParseError r)) => unreachable_reason r = false
        | Some _ => True
        | None => False
        end).
Proof.
  assert (Ht : forall fuel toks,
             match calculate_tokens fuel toks with
             | Some (Raise (ParseError r)) => unreachable_reason r = false
             | _ => True
             end).
  { intros fuel toks.
    destruct (calculate_tokens fuel toks) as [[v|e|]|] eqn:Ho; try exact I.
    destruct e as [r| | |]; try exact I.
    destruct (evaluator_exceptions _ _ _ Ho) as [H|H].
    - destruct H as [-> | ->]; reflexivity.
    - inversion H. reflexivity. }
  split; [exact Ht|].
  intros expression. rewrite calculate_expression_lex.
  pose proof (lex_error_sound expression (String.length expression) 0 []
                ltac:(lia)) as Hl.
  destruct (lex expression [] 0) as [toks|e|]; [| |exact I].
  - destruct (calculate_tokens_total toks) as [o Ho].
    specialize (Ht (budget toks) toks). rewrite Ho in *.
    destruct o as [v|e|]; try exact I. exact Ht.
  - destruct e as [r| | |]; try exact I.
    destruct r; simpl in Hl; try reflexivity; contradiction.
Qed.

(** ** Signs *)

Lemma evaluate_expression (e : add_expr) :
  evaluate (tokens_of_add e ++ [EOF]) = Some (eval_add e).
Proof.
  rewrite evaluate_eq, run_expr_tokens by reflexivity.
  destruct (eval_add e) as [v| |]; simpl; try reflexivity.
  rewrite peek_at. reflexivity.
Qed.

Lemma neg_neg (v : value) : obind (Py.neg v) Py.neg = Ok v.
Proof.
  destruct v as [z|f]; simpl.
  - rewrite Z.opp_involutive. reflexivity.
  - destruct f as [s|s| |s m e]; simpl; rewrite ?negb_involutive; reflexivity.
Qed.

(** X18. Signs: in front of a unary expression a plus sign changes
    nothing and two minus signs cancel, whatever the expression evaluates
    to (an int, a float, also a zero, an infinity or NaN, or an
    exception). *)
Theorem signs_cancel (u : unary_expr) :
  evaluate (OP "+" :: tokens_of_unary u ++ [EOF])
  = evaluate (tokens_of_unary u ++ [EOF])
  /\ evaluate (OP "-" :: OP "-" :: tokens_of_unary u ++ [EOF])
     = evaluate (tokens_of_unary u ++ [EOF]).
Proof.
  pose proof (evaluate_expression (Mul (Pow (Unary u)))) as H0.
  pose proof (evaluate_expression (Mul (Pow (Unary (Plus u))))) as H1.
  pose proof (evaluate_expression (Mul (Pow (Unary (Minus (Minus u))))))
    as H2.
  simpl in H0, H1, H2. rewrite H0, H1, H2. split.
  - destruct (eval_unary u); reflexivity.
  - destruct (eval_unary u) as [v| |]; simpl; try reflexivity.
    rewrite neg_neg. reflexivity.
Qed.
